(** * token-bucket.ts: a per-key token-bucket rate limiter

    Shallow embedding of [src/index.ts] (class [TokenBucket]) and proofs of
    the properties its specification states, followed by further properties
    of the code: the cooldown, the keys, [reset], [reset_all], [size] and
    [prune].

    Modelling choices, each visible in the definitions below:

    - A JavaScript [number] is read in two ways.  In the first embedding
      it is one of [NaN], [-Infinity], [+Infinity] or a finite value, and
      finite values are exact rationals ([Qc], canonical fractions, so
      that equality of numbers is Leibniz equality): rounding, overflow
      and the sign of zero are not modelled.  Module [Double] embeds the
      same methods with [number] a binary64 floating-point number
      ([SpecFloat]), every operation rounded to nearest, ties to even.
      The wait times, the sign of the tokens and what [prune] removes
      depend on the rounding, and are stated on [Double].
    - [Date.now()] is an effect: the world carries the sequence of readings
      the clock will deliver, and every call consumes one reading.
    - [Map<string, BucketState>] is an insertion-ordered association list.
    - A method that throws leaves the world as it was at the [throw]. *)

From Stdlib Require Import ZArith QArith Qcanon Lqa Lia List String Bool.
From Stdlib Require Import SpecFloat.
Import ListNotations.

Set Implicit Arguments.

(* ================================================================== *)
(** ** JavaScript numbers *)
(* ================================================================== *)

Module JS.

Inductive number : Type :=
| NaN
| NegInf
| PosInf
| Fin (q : Qc).

Definition of_Z (z : Z) : number := Fin (Q2Qc (inject_Z z)).

Definition zero : number := Fin 0%Qc.
Definition one : number := Fin 1%Qc.

Definition Number_isNaN (a : number) : bool :=
  match a with NaN => true | _ => false end.

Definition is_finite (a : number) : bool :=
  match a with Fin _ => true | _ => false end.

(** The IEEE comparison of two numbers; [None] when one of them is [NaN]. *)
Definition cmp (a b : number) : option comparison :=
  match a, b with
  | NaN, _ | _, NaN => None
  | NegInf, NegInf => Some Eq
  | NegInf, _ => Some Lt
  | _, NegInf => Some Gt
  | PosInf, PosInf => Some Eq
  | PosInf, _ => Some Gt
  | _, PosInf => Some Lt
  | Fin x, Fin y => Some (x ?= y)%Qc
  end.

(** [a < b], [a <= b], [a > b], [a >= b] and [a === b]. *)
Definition lt (a b : number) : bool :=
  match cmp a b with Some Lt => true | _ => false end.
Definition le (a b : number) : bool :=
  match cmp a b with Some Lt | Some Eq => true | _ => false end.
Definition gt (a b : number) : bool :=
  match cmp a b with Some Gt => true | _ => false end.
Definition ge (a b : number) : bool :=
  match cmp a b with Some Gt | Some Eq => true | _ => false end.
Definition strict_eq (a b : number) : bool :=
  match cmp a b with Some Eq => true | _ => false end.

Definition neg (a : number) : number :=
  match a with
  | NaN => NaN
  | NegInf => PosInf
  | PosInf => NegInf
  | Fin x => Fin (- x)%Qc
  end.

Definition add (a b : number) : number :=
  match a, b with
  | NaN, _ | _, NaN => NaN
  | PosInf, NegInf | NegInf, PosInf => NaN
  | PosInf, _ | _, PosInf => PosInf
  | NegInf, _ | _, NegInf => NegInf
  | Fin x, Fin y => Fin (x + y)%Qc
  end.

Definition sub (a b : number) : number := add a (neg b).

(** An infinity of the sign of [s] ([Gt]: positive), [NaN] for [Eq]. *)
Definition signed_inf (s : comparison) : number :=
  match s with Eq => NaN | Lt => NegInf | Gt => PosInf end.

Definition mul (a b : number) : number :=
  match a, b with
  | NaN, _ | _, NaN => NaN
  | Fin x, Fin y => Fin (x * y)%Qc
  | PosInf, Fin y | Fin y, PosInf => signed_inf (y ?= 0)%Qc
  | NegInf, Fin y | Fin y, NegInf => signed_inf (0 ?= y)%Qc
  | PosInf, PosInf | NegInf, NegInf => PosInf
  | PosInf, NegInf | NegInf, PosInf => NegInf
  end.

(** Division; a zero divisor is [+0]. *)
Definition div (a b : number) : number :=
  match a, b with
  | NaN, _ | _, NaN => NaN
  | Fin x, Fin y =>
      if Qeq_bool y 0 then signed_inf (x ?= 0)%Qc else Fin (x / y)%Qc
  | Fin _, (PosInf | NegInf) => zero
  | (PosInf | NegInf), (PosInf | NegInf) => NaN
  | PosInf, Fin y => if Qle_bool 0 y then PosInf else NegInf
  | NegInf, Fin y => if Qle_bool 0 y then NegInf else PosInf
  end.

Definition Math_min (a b : number) : number :=
  match cmp a b with
  | None => NaN
  | Some Gt => b
  | Some _ => a
  end.

Definition Math_max (a b : number) : number :=
  match cmp a b with
  | None => NaN
  | Some Lt => b
  | Some _ => a
  end.

End JS.

Import JS.

Declare Scope js_scope.
Delimit Scope js_scope with js.
Bind Scope js_scope with number.
Infix "+" := add : js_scope.
Infix "-" := sub : js_scope.
Infix "*" := mul : js_scope.
Infix "/" := div : js_scope.
Infix "<" := lt : js_scope.
Infix "<=" := le : js_scope.
Infix ">" := gt : js_scope.
Infix ">=" := ge : js_scope.
Infix "===" := strict_eq (at level 70, no associativity) : js_scope.

Open Scope js_scope.

(* ================================================================== *)
(** ** The runtime: clock, console, exceptions *)
(* ================================================================== *)

(** [type BucketState] *)
Record BucketState : Type := {
  tokens : number;
  last_refill : number;
  last_consume : number;
}.

(** The fields of [class TokenBucket]; [buckets] is the private [Map],
    kept in insertion order. *)
Record TokenBucket : Type := {
  capacity : number;
  interval : number;
  refill : number;
  initial : number;
  cooldown : number;
  buckets : list (string * BucketState);
}.

(** [type TokenBucketOptions]; an optional field is [None] when absent. *)
Record TokenBucketOptions : Type := {
  opt_capacity : number;
  opt_interval : number;
  opt_refill : option number;
  opt_initial : option number;
  opt_cooldown : option number;
}.

(** [a ?? b] *)
Definition nullish (a : option number) (b : number) : number :=
  match a with Some v => v | None => b end.

(** [constructor(options)] *)
Definition new_TokenBucket (options : TokenBucketOptions) : TokenBucket :=
  let capacity := opt_capacity options in
  {| capacity := capacity;
     interval := opt_interval options;
     refill := nullish (opt_refill options) one;
     initial := nullish (opt_initial options) capacity;
     cooldown := nullish (opt_cooldown options) zero;
     buckets := [] |}.

(** The world a method runs in: the readings [Date.now()] will return from
    now on (reading [0] is the next one), what [console.warn] has printed,
    and the limiter object [this]. *)
Record World : Type := {
  clock : nat -> Z;
  console : list string;
  self : TokenBucket;
}.

Inductive Outcome (A : Type) : Type :=
| Returned (a : A)
| Thrown (msg : string).
Arguments Thrown {A} msg.

Definition M (A : Type) : Type := World -> Outcome A * World.

Definition ret {A} (a : A) : M A := fun w => (Returned a, w).

Definition bind {A B} (m : M A) (f : A -> M B) : M B :=
  fun w =>
    match m w with
    | (Returned a, w') => f a w'
    | (Thrown msg, w') => (Thrown msg, w')
    end.

Notation "x <- m ;; k" := (bind m (fun x => k))
  (at level 61, m at next level, right associativity).
Notation "m ;;; k" := (bind m (fun _ => k))
  (at level 61, right associativity).

(** [throw new Error(msg)] *)
Definition throw {A} (msg : string) : M A := fun w => (Thrown msg, w).

(** [Date.now()]: an integer number of milliseconds. *)
Definition Date_now : M number :=
  fun w =>
    (Returned (of_Z (clock w 0)),
     {| clock := fun i => clock w (S i);
        console := console w;
        self := self w |}).

Definition console_warn (msg : string) : M unit :=
  fun w =>
    (Returned tt,
     {| clock := clock w; console := console w ++ [msg]; self := self w |}).

Definition get_this : M TokenBucket := fun w => (Returned (self w), w).

Definition set_buckets (bs : list (string * BucketState)) : M unit :=
  fun w =>
    (Returned tt,
     {| clock := clock w;
        console := console w;
        self := {| capacity := capacity (self w);
                   interval := interval (self w);
                   refill := refill (self w);
                   initial := initial (self w);
                   cooldown := cooldown (self w);
                   buckets := bs |} |}).

(* ================================================================== *)
(** ** [Map<string, BucketState>] *)
(* ================================================================== *)

Fixpoint Map_get (key : string) (m : list (string * BucketState))
  : option BucketState :=
  match m with
  | [] => None
  | (k, b) :: rest => if String.eqb key k then Some b else Map_get key rest
  end.

(** [Map.set]: an existing key keeps its place, a new key goes last. *)
Fixpoint Map_set (key : string) (v : BucketState)
  (m : list (string * BucketState)) : list (string * BucketState) :=
  match m with
  | [] => [(key, v)]
  | (k, b) :: rest =>
      if String.eqb key k then (k, v) :: rest
      else (k, b) :: Map_set key v rest
  end.

Fixpoint Map_delete (key : string) (m : list (string * BucketState))
  : list (string * BucketState) :=
  match m with
  | [] => []
  | (k, b) :: rest =>
      if String.eqb key k then rest else (k, b) :: Map_delete key rest
  end.

Definition Map_size (m : list (string * BucketState)) : nat := List.length m.

(** A write through a bucket reference: the [Map] entry of [key] and the
    [bucket] a method holds are the same object, so every assignment to a
    field of [bucket] is seen through the [Map]. *)
Definition write_bucket (key : string) (bucket : BucketState) : M unit :=
  t <- get_this ;; set_buckets (Map_set key bucket (buckets t)).

(* ================================================================== *)
(** ** The methods of [TokenBucket] *)
(* ================================================================== *)

(** [type TokenBucketResult] *)
Record TokenBucketResult : Type := { wait_time : number }.

(** [private get_bucket(key)] *)
Definition get_bucket (key : string) : M BucketState :=
  t <- get_this ;;
  match Map_get key (buckets t) with
  | Some bucket => ret bucket
  | None =>
      now <- Date_now ;;
      let bucket :=
        {| tokens := initial t; last_refill := now; last_consume := NegInf |} in
      write_bucket key bucket ;;;
      ret bucket
  end.

(** [private refill_bucket(bucket)]: returns the bucket as the assignments
    leave it; the caller writes it through its reference. *)
Definition refill_bucket (bucket : BucketState) : M BucketState :=
  t <- get_this ;;
  now <- Date_now ;;
  let elapsed := now - last_refill bucket in
  let refill_amount := (elapsed / interval t) * refill t in
  ret {| tokens := Math_min (capacity t) (tokens bucket + refill_amount);
         last_refill := now;
         last_consume := last_consume bucket |}.

(** [private calc_token_wait_time(tokens, amount)] *)
Definition calc_token_wait_time (tokens amount : number) : M number :=
  t <- get_this ;;
  if tokens >= amount then ret zero
  else
    let needed := amount - tokens in
    ret ((needed / refill t) * interval t).

(** [private calc_cooldown_wait_time(bucket)] *)
Definition calc_cooldown_wait_time (bucket : BucketState) : M number :=
  t <- get_this ;;
  if cooldown t === zero then ret zero
  else
    now <- Date_now ;;
    let elapsed := now - last_consume bucket in
    if elapsed >= cooldown t then ret zero
    else ret (cooldown t - elapsed).

(** The default of the parameter [amount] of [check] and [consume]. *)
Definition default_amount : number := one.

(** [check(key, amount = 1)] *)
Definition check (key : string) (amount : number) : M TokenBucketResult :=
  if Number_isNaN amount then throw "amount must be a number"
  else if amount < zero then throw "amount must be >= 0"
  else
    t <- get_this ;;
    if amount > capacity t then throw "amount must be <= capacity"
    else
      bucket <- get_bucket key ;;
      bucket <- refill_bucket bucket ;;
      write_bucket key bucket ;;;
      cooldown_wait <- calc_cooldown_wait_time bucket ;;
      token_wait <- calc_token_wait_time (tokens bucket) amount ;;
      ret {| wait_time := Math_max cooldown_wait token_wait |}.

(** [consume(key, amount = 1)] *)
Definition consume (key : string) (amount : number) : M TokenBucketResult :=
  if Number_isNaN amount then throw "amount must be a number"
  else if amount <= zero then throw "amount must be > 0"
  else
    t <- get_this ;;
    if amount > capacity t then throw "amount must be <= capacity"
    else
      bucket <- get_bucket key ;;
      bucket <- refill_bucket bucket ;;
      write_bucket key bucket ;;;
      cooldown_wait <- calc_cooldown_wait_time bucket ;;
      token_wait <- calc_token_wait_time (tokens bucket) amount ;;
      let wait_time := Math_max cooldown_wait token_wait in
      if wait_time === zero then
        now <- Date_now ;;
        write_bucket key
          {| tokens := tokens bucket - amount;
             last_refill := last_refill bucket;
             last_consume := now |} ;;;
        ret {| wait_time := wait_time |}
      else ret {| wait_time := wait_time |}.

(** [reset(key)] *)
Definition reset (key : string) : M unit :=
  t <- get_this ;; set_buckets (Map_delete key (buckets t)).

(** [reset_all()] *)
Definition reset_all : M unit := set_buckets [].

(** [get size()] *)
Definition size : M nat := t <- get_this ;; ret (Map_size (buckets t)).

(** The [for ... of this.buckets] loop of [prune]: every entry is visited
    once, in insertion order; [kept] are the entries the loop leaves in the
    [Map] (as refilled), [removed] counts the deleted ones. *)
Fixpoint prune_loop (capacity : number) (entries : list (string * BucketState))
  (removed : nat) : M (list (string * BucketState) * nat) :=
  match entries with
  | [] => ret ([], removed)
  | (key, bucket) :: rest =>
      bucket <- refill_bucket bucket ;;
      cooldown_wait <- calc_cooldown_wait_time bucket ;;
      if (tokens bucket < capacity) || (cooldown_wait > zero) then
        r <- prune_loop capacity rest removed ;;
        ret ((key, bucket) :: fst r, snd r)
      else prune_loop capacity rest (S removed)
  end.

(** [prune()] *)
Definition prune : M nat :=
  t <- get_this ;;
  let capacity := capacity t in
  if initial t < capacity then
    console_warn
      "TokenBucket.prune(): initial < capacity, won't prune to avoid losing accumulated tokens" ;;;
    ret 0%nat
  else
    r <- prune_loop capacity (buckets t) 0%nat ;;
    set_buckets (fst r) ;;;
    ret (snd r).

(* ================================================================== *)
(** ** What the specification says, in its own words *)
(* ================================================================== *)

Module Spec.

(** "if [tokens >= amount] the wait is 0; otherwise [needed = amount -
    tokens] and [wait = needed / refill_amount * interval]" *)
Definition token_wait (t : TokenBucket) (tokens amount : number) : number :=
  if tokens >= amount then zero
  else (amount - tokens) / refill t * interval t.

(** "if [cooldown == 0], always 0.  Otherwise, [elapsed = now -
    last_consume]; if [elapsed >= cooldown], wait is 0; else [wait =
    cooldown - elapsed]" *)
Definition cooldown_wait (t : TokenBucket) (now last_consume : number)
  : number :=
  if cooldown t === zero then zero
  else if (now - last_consume) >= cooldown t then zero
  else cooldown t - (now - last_consume).

(** "Add [elapsed / interval * refill_amount] tokens, clamped so [tokens]
    never exceeds [capacity].  Set [last_refill = now] unconditionally" *)
Definition apply_refill (t : TokenBucket) (now : number) (b : BucketState)
  : BucketState :=
  {| tokens :=
       Math_min (capacity t)
         (tokens b + (now - last_refill b) / interval t * refill t);
     last_refill := now;
     last_consume := last_consume b |}.

(** "created ... with [tokens = initial] and [last_refill = now]";
    [last_consume] "initialized to a value representing never". *)
Definition fresh_bucket (t : TokenBucket) (now : number) : BucketState :=
  {| tokens := initial t; last_refill := now; last_consume := NegInf |}.

End Spec.

(* ================================================================== *)
(** ** Configurations, clocks and worlds *)
(* ================================================================== *)

Definition positive (a : number) : bool := is_finite a && (zero < a).
Definition nonnegative (a : number) : bool := is_finite a && (zero <= a).

(** The configurations the data model admits: [capacity], [interval] and
    [refill] positive, [initial] and [cooldown] not negative, all finite. *)
Definition valid_config (t : TokenBucket) : bool :=
  positive (capacity t) && positive (interval t) && positive (refill t)
  && nonnegative (initial t) && nonnegative (cooldown t).

(** The amounts [check] accepts, and the amounts [consume] accepts. *)
Definition check_rejects (t : TokenBucket) (amount : number) : bool :=
  Number_isNaN amount || (amount < zero) || (amount > capacity t).
Definition consume_rejects (t : TokenBucket) (amount : number) : bool :=
  Number_isNaN amount || (amount <= zero) || (amount > capacity t).

(** No time passes: every reading of the clock is [now]. *)
Definition frozen (now : Z) (w : World) : Prop :=
  forall i, clock w i = now.

(** The world after one reading of the clock, and after [n] readings. *)
Definition tick (w : World) : World :=
  {| clock := fun i => clock w (S i); console := console w; self := self w |}.

Fixpoint advance (n : nat) (w : World) : World :=
  match n with
  | O => w
  | S n' => tick (advance n' w)
  end.

(** The world with [bs] as the limiter's [Map]. *)
Definition with_buckets (bs : list (string * BucketState)) (w : World)
  : World :=
  snd (set_buckets bs w).

(** The bucket a method finds under [key]: the stored one, or the one
    [get_bucket] creates at the reading [now]. *)
Definition entry_bucket (t : TokenBucket) (now : number) (key : string)
  : BucketState :=
  match Map_get key (buckets t) with
  | Some b => b
  | None => Spec.fresh_bucket t now
  end.

(** The number of clock readings [get_bucket] makes. *)
Definition creation_reads (t : TokenBucket) (key : string) : nat :=
  match Map_get key (buckets t) with Some _ => 0 | None => 1 end.

(** The number of clock readings [calc_cooldown_wait_time] makes. *)
Definition cooldown_reads (t : TokenBucket) : nat :=
  if cooldown t === zero then 0 else 1.

(** A limiter straight from the constructor, in a world with clock [clk]. *)
Definition fresh_world (clk : nat -> Z) (options : TokenBucketOptions)
  : World :=
  {| clock := clk; console := []; self := new_TokenBucket options |}.

(** The calls a client can make; a thrown error is caught by the client
    and the next call follows. *)
Inductive Call : Type :=
| CallCheck (key : string) (amount : number)
| CallConsume (key : string) (amount : number)
| CallReset (key : string)
| CallResetAll
| CallSize
| CallPrune.

Definition call (c : Call) (w : World) : World :=
  match c with
  | CallCheck key amount => snd (check key amount w)
  | CallConsume key amount => snd (consume key amount w)
  | CallReset key => snd (reset key w)
  | CallResetAll => snd (reset_all w)
  | CallSize => snd (size w)
  | CallPrune => snd (prune w)
  end.

Fixpoint run (cs : list Call) (w : World) : World :=
  match cs with
  | [] => w
  | c :: rest => run rest (call c w)
  end.

(** The fields of a bucket are numbers the methods can have put there. *)
Definition well_formed (b : BucketState) : bool :=
  is_finite (tokens b) && is_finite (last_refill b)
  && negb (Number_isNaN (last_consume b)).

(** A bucket [prune] regards as fully recovered at [now]. *)
Definition recovered (t : TokenBucket) (now : number) (b : BucketState)
  : bool :=
  (tokens b === capacity t)
  && (Spec.cooldown_wait t now (last_consume b) === zero).

(** The entries of the [Map] as a refill at [now] leaves them. *)
Definition refill_all (t : TokenBucket) (now : number)
  (entries : list (string * BucketState)) : list (string * BucketState) :=
  map (fun kb => (fst kb, Spec.apply_refill t now (snd kb))) entries.

(** The test of the loop of [prune]: [true] when the entry stays. *)
Definition prune_keeps (t : TokenBucket) (now : number)
  (kb : string * BucketState) : bool :=
  (tokens (snd kb) < capacity t)
  || (Spec.cooldown_wait t now (last_consume (snd kb)) > zero).

(* ================================================================== *)
(** ** Example worlds *)
(* ================================================================== *)

(** The limiter of the test "should refill tokens over time": capacity 2,
    one token per 100 ms, no cooldown. *)
Definition example_options : TokenBucketOptions :=
  {| opt_capacity := of_Z 2; opt_interval := of_Z 100;
     opt_refill := None; opt_initial := None; opt_cooldown := None |}.

(** The limiter of the test "should refill tokens during cooldown":
    capacity 2, one token per 100 ms, 200 ms of cooldown. *)
Definition cooldown_options : TokenBucketOptions :=
  {| opt_capacity := of_Z 2; opt_interval := of_Z 100;
     opt_refill := None; opt_initial := None;
     opt_cooldown := Some (of_Z 200) |}.

(** A clock that reads [before] for its first [n] readings and [after]
    from then on. *)
Definition step_clock (n : nat) (before after : Z) (i : nat) : Z :=
  if (i <? n)%nat then before else after.

(** A clock that reads 0 for the three readings of a first successful
    [consume] and 50 from then on. *)
Definition example_clock : nat -> Z := step_clock 3 0 50.

(** A clock that reads 0 three times, then 50 three times, then 100. *)
Definition prune_clock (i : nat) : Z :=
  if (i <? 3)%nat then 0 else if (i <? 6)%nat then 50 else 100.

(** The first limiter after [consume("key1", 2)] at time 0: the bucket of
    ["key1"] is empty, and the clock reads 50 from now on. *)
Definition drained_world : World :=
  call (CallConsume "key1"%string (of_Z 2))
    (fresh_world example_clock example_options).

(** The first limiter after one token was taken for ["key1"] at time 0
    and one for ["key2"] at time 50; the clock reads 100 from now on. *)
Definition two_keys_world : World :=
  run [CallConsume "key1"%string one; CallConsume "key2"%string one]
    (fresh_world prune_clock example_options).

(** The [wait_time] a call returned ([NaN] if it threw). *)
Definition wait_of (res : Outcome TokenBucketResult * World) : number :=
  match fst res with
  | Returned r => wait_time r
  | Thrown _ => NaN
  end.

(** [0.5] *)
Definition half : number := Fin (Q2Qc (1 # 2)).

(* ================================================================== *)
(** ** Keys, settings and later times *)
(* ================================================================== *)

(** The keys of a [Map], in insertion order. *)
Definition Map_keys (m : list (string * BucketState)) : list string :=
  map fst m.

(** A [Map] holds a key once. *)
Definition unique_keys (w : World) : Prop :=
  NoDup (Map_keys (buckets (self w))).

(** [key] is tracked. *)
Definition Map_has (key : string) (m : list (string * BucketState)) : bool :=
  match Map_get key m with Some _ => true | None => false end.

(** Two limiter objects with the same settings. *)
Definition same_config (t t' : TokenBucket) : Prop :=
  capacity t = capacity t' /\ interval t = interval t' /\
  refill t = refill t' /\ initial t = initial t' /\ cooldown t = cooldown t'.

(** The world at a later time: the limiter as [w] has it, with a clock
    that reads [now] from now on. *)
Definition at_time (now : Z) (w : World) : World :=
  {| clock := fun _ => now; console := console w; self := self w |}.

(** The bucket of [key] as an access at [now] sees it: the stored bucket,
    or a new one, refilled. *)
Definition refilled_entry (t : TokenBucket) (now : Z) (key : string)
  : BucketState :=
  Spec.apply_refill t (of_Z now) (entry_bucket t (of_Z now) key).

(* ================================================================== *)
(** ** More example worlds *)
(* ================================================================== *)

(** The limiter with 200 ms of cooldown, new, at a time 0 that stands
    still. *)
Definition cooldown_world : World :=
  fresh_world (fun _ => 0%Z) cooldown_options.

(** The limiter of the first test, new. *)
Definition example_world : World := fresh_world example_clock example_options.

(* ================================================================== *)
(** ** The same program on IEEE-754 doubles *)
(* ================================================================== *)

(** The embedding above reads [number] as an exact rational.  [Double] is
    the same program, line for line, with [number] read as what it is in
    JavaScript: a binary64 floating-point number, every operation rounded
    to nearest, ties to even ([SpecFloat], 53 bits of precision, exponents
    up to 1024). *)
Module Double.

Definition prec : Z := 53.
Definition emax : Z := 1024.

Definition number : Type := spec_float.

Definition NaN : number := S754_nan.
Definition PosInf : number := S754_infinity false.
Definition NegInf : number := S754_infinity true.

(** [0] and [1] *)
Definition zero : number := S754_zero false.
Definition one : number := S754_finite false 4503599627370496 (-52).

(** The double nearest to an integer (the integer itself below [2^53]). *)
Definition of_Z (z : Z) : number := binary_normalize prec emax z 0 false.

(** A value a double can hold: [valid_binary] of [SpecFloat]. *)
Definition is_double (a : number) : bool := valid_binary prec emax a.

Definition Number_isNaN (a : number) : bool :=
  match a with S754_nan => true | _ => false end.

Definition is_finite (a : number) : bool :=
  match a with S754_zero _ | S754_finite _ _ _ => true | _ => false end.

Definition cmp (a b : number) : option comparison := SFcompare a b.

(** [a < b], [a <= b], [a > b], [a >= b] and [a === b]. *)
Definition lt (a b : number) : bool := SFltb a b.
Definition le (a b : number) : bool := SFleb a b.
Definition gt (a b : number) : bool := SFltb b a.
Definition ge (a b : number) : bool := SFleb b a.
Definition strict_eq (a b : number) : bool := SFeqb a b.

Definition add (a b : number) : number := SFadd prec emax a b.
Definition sub (a b : number) : number := SFsub prec emax a b.
Definition mul (a b : number) : number := SFmul prec emax a b.
Definition div (a b : number) : number := SFdiv prec emax a b.

(** [Math.min] and [Math.max]: [NaN] if an argument is [NaN]; [-0] is
    smaller than [+0]. *)
Definition Math_min (a b : number) : number :=
  match cmp a b with
  | None => NaN
  | Some Lt => a
  | Some Gt => b
  | Some Eq => match a with S754_zero false => b | _ => a end
  end.

Definition Math_max (a b : number) : number :=
  match cmp a b with
  | None => NaN
  | Some Lt => b
  | Some Gt => a
  | Some Eq => match a with S754_zero true => b | _ => a end
  end.

(** The rational a finite double is ([0] for the others). *)
Definition to_Q (a : number) : Q :=
  match a with
  | S754_finite s m e =>
      (if s then - inject_Z (Zpos m) else inject_Z (Zpos m)) * Qpower 2 e
  | _ => 0
  end.

Declare Scope double_scope.
Delimit Scope double_scope with double.
Infix "+" := add : double_scope.
Infix "-" := sub : double_scope.
Infix "*" := mul : double_scope.
Infix "/" := div : double_scope.
Infix "<" := lt : double_scope.
Infix "<=" := le : double_scope.
Infix ">" := gt : double_scope.
Infix ">=" := ge : double_scope.
Infix "===" := strict_eq (at level 70, no associativity) : double_scope.

#[local] Open Scope double_scope.

(** [type BucketState] *)
Record BucketState : Type := {
  tokens : number;
  last_refill : number;
  last_consume : number;
}.

(** The fields of [class TokenBucket]; [buckets] is the private [Map],
    kept in insertion order. *)
Record TokenBucket : Type := {
  capacity : number;
  interval : number;
  refill : number;
  initial : number;
  cooldown : number;
  buckets : list (string * BucketState);
}.

(** [type TokenBucketOptions]; an optional field is [None] when absent. *)
Record TokenBucketOptions : Type := {
  opt_capacity : number;
  opt_interval : number;
  opt_refill : option number;
  opt_initial : option number;
  opt_cooldown : option number;
}.

(** [a ?? b] *)
Definition nullish (a : option number) (b : number) : number :=
  match a with Some v => v | None => b end.

(** [constructor(options)] *)
Definition new_TokenBucket (options : TokenBucketOptions) : TokenBucket :=
  let capacity := opt_capacity options in
  {| capacity := capacity;
     interval := opt_interval options;
     refill := nullish (opt_refill options) one;
     initial := nullish (opt_initial options) capacity;
     cooldown := nullish (opt_cooldown options) zero;
     buckets := [] |}.

(** The world a method runs in, as above. *)
Record World : Type := {
  clock : nat -> Z;
  console : list string;
  self : TokenBucket;
}.

Definition M (A : Type) : Type := World -> Outcome A * World.

Definition ret {A} (a : A) : M A := fun w => (Returned a, w).

Definition bind {A B} (m : M A) (f : A -> M B) : M B :=
  fun w =>
    match m w with
    | (Returned a, w') => f a w'
    | (Thrown msg, w') => (Thrown msg, w')
    end.

Notation "x <- m ;; k" := (bind m (fun x => k))
  (at level 61, m at next level, right associativity) : double_scope.
Notation "m ;;; k" := (bind m (fun _ => k))
  (at level 61, right associativity) : double_scope.

(** [throw new Error(msg)] *)
Definition throw {A} (msg : string) : M A := fun w => (Thrown msg, w).

(** [Date.now()]: an integer number of milliseconds. *)
Definition Date_now : M number :=
  fun w =>
    (Returned (of_Z (clock w 0)),
     {| clock := fun i => clock w (S i);
        console := console w;
        self := self w |}).

Definition console_warn (msg : string) : M unit :=
  fun w =>
    (Returned tt,
     {| clock := clock w; console := console w ++ [msg]; self := self w |}).

Definition get_this : M TokenBucket := fun w => (Returned (self w), w).

Definition set_buckets (bs : list (string * BucketState)) : M unit :=
  fun w =>
    (Returned tt,
     {| clock := clock w;
        console := console w;
        self := {| capacity := capacity (self w);
                   interval := interval (self w);
                   refill := refill (self w);
                   initial := initial (self w);
                   cooldown := cooldown (self w);
                   buckets := bs |} |}).

Fixpoint Map_get (key : string) (m : list (string * BucketState))
  : option BucketState :=
  match m with
  | [] => None
  | (k, b) :: rest => if String.eqb key k then Some b else Map_get key rest
  end.

(** [Map.set]: an existing key keeps its place, a new key goes last. *)
Fixpoint Map_set (key : string) (v : BucketState)
  (m : list (string * BucketState)) : list (string * BucketState) :=
  match m with
  | [] => [(key, v)]
  | (k, b) :: rest =>
      if String.eqb key k then (k, v) :: rest
      else (k, b) :: Map_set key v rest
  end.

Fixpoint Map_delete (key : string) (m : list (string * BucketState))
  : list (string * BucketState) :=
  match m with
  | [] => []
  | (k, b) :: rest =>
      if String.eqb key k then rest else (k, b) :: Map_delete key rest
  end.

Definition Map_size (m : list (string * BucketState)) : nat := List.length m.

(** A write through a bucket reference, as above. *)
Definition write_bucket (key : string) (bucket : BucketState) : M unit :=
  t <- get_this ;; set_buckets (Map_set key bucket (buckets t)).

(** [type TokenBucketResult] *)
Record TokenBucketResult : Type := { wait_time : number }.

(** [private get_bucket(key)] *)
Definition get_bucket (key : string) : M BucketState :=
  t <- get_this ;;
  match Map_get key (buckets t) with
  | Some bucket => ret bucket
  | None =>
      now <- Date_now ;;
      let bucket :=
        {| tokens := initial t; last_refill := now; last_consume := NegInf |} in
      write_bucket key bucket ;;;
      ret bucket
  end.

(** [private refill_bucket(bucket)] *)
Definition refill_bucket (bucket : BucketState) : M BucketState :=
  t <- get_this ;;
  now <- Date_now ;;
  let elapsed := now - last_refill bucket in
  let refill_amount := (elapsed / interval t) * refill t in
  ret {| tokens := Math_min (capacity t) (tokens bucket + refill_amount);
         last_refill := now;
         last_consume := last_consume bucket |}.

(** [private calc_token_wait_time(tokens, amount)] *)
Definition calc_token_wait_time (tokens amount : number) : M number :=
  t <- get_this ;;
  if tokens >= amount then ret zero
  else
    let needed := amount - tokens in
    ret ((needed / refill t) * interval t).

(** [private calc_cooldown_wait_time(bucket)] *)
Definition calc_cooldown_wait_time (bucket : BucketState) : M number :=
  t <- get_this ;;
  if cooldown t === zero then ret zero
  else
    now <- Date_now ;;
    let elapsed := now - last_consume bucket in
    if elapsed >= cooldown t then ret zero
    else ret (cooldown t - elapsed).

(** [check(key, amount = 1)] *)
Definition check (key : string) (amount : number) : M TokenBucketResult :=
  if Number_isNaN amount then throw "amount must be a number"
  else if amount < zero then throw "amount must be >= 0"
  else
    t <- get_this ;;
    if amount > capacity t then throw "amount must be <= capacity"
    else
      bucket <- get_bucket key ;;
      bucket <- refill_bucket bucket ;;
      write_bucket key bucket ;;;
      cooldown_wait <- calc_cooldown_wait_time bucket ;;
      token_wait <- calc_token_wait_time (tokens bucket) amount ;;
      ret {| wait_time := Math_max cooldown_wait token_wait |}.

(** [consume(key, amount = 1)] *)
Definition consume (key : string) (amount : number) : M TokenBucketResult :=
  if Number_isNaN amount then throw "amount must be a number"
  else if amount <= zero then throw "amount must be > 0"
  else
    t <- get_this ;;
    if amount > capacity t then throw "amount must be <= capacity"
    else
      bucket <- get_bucket key ;;
      bucket <- refill_bucket bucket ;;
      write_bucket key bucket ;;;
      cooldown_wait <- calc_cooldown_wait_time bucket ;;
      token_wait <- calc_token_wait_time (tokens bucket) amount ;;
      let wait_time := Math_max cooldown_wait token_wait in
      if wait_time === zero then
        now <- Date_now ;;
        write_bucket key
          {| tokens := tokens bucket - amount;
             last_refill := last_refill bucket;
             last_consume := now |} ;;;
        ret {| wait_time := wait_time |}
      else ret {| wait_time := wait_time |}.

(** [reset(key)] *)
Definition reset (key : string) : M unit :=
  t <- get_this ;; set_buckets (Map_delete key (buckets t)).

(** [reset_all()] *)
Definition reset_all : M unit := set_buckets [].

(** [get size()] *)
Definition size : M nat := t <- get_this ;; ret (Map_size (buckets t)).

(** The [for ... of this.buckets] loop of [prune], as above. *)
Fixpoint prune_loop (capacity : number) (entries : list (string * BucketState))
  (removed : nat) : M (list (string * BucketState) * nat) :=
  match entries with
  | [] => ret ([], removed)
  | (key, bucket) :: rest =>
      bucket <- refill_bucket bucket ;;
      cooldown_wait <- calc_cooldown_wait_time bucket ;;
      if (tokens bucket < capacity) || (cooldown_wait > zero) then
        r <- prune_loop capacity rest removed ;;
        ret ((key, bucket) :: fst r, snd r)
      else prune_loop capacity rest (S removed)
  end.

(** [prune()] *)
Definition prune : M nat :=
  t <- get_this ;;
  let capacity := capacity t in
  if initial t < capacity then
    console_warn
      "TokenBucket.prune(): initial < capacity, won't prune to avoid losing accumulated tokens" ;;;
    ret 0%nat
  else
    r <- prune_loop capacity (buckets t) 0%nat ;;
    set_buckets (fst r) ;;;
    ret (snd r).

(** The specification's wait formulas and refill, with each operation a
    double operation. *)
Module Spec.

Definition token_wait (t : TokenBucket) (tokens amount : number) : number :=
  if tokens >= amount then zero
  else (amount - tokens) / refill t * interval t.

Definition cooldown_wait (t : TokenBucket) (now last_consume : number)
  : number :=
  if cooldown t === zero then zero
  else if (now - last_consume) >= cooldown t then zero
  else cooldown t - (now - last_consume).

Definition combined_wait (t : TokenBucket) (now : number) (b : BucketState)
  (amount : number) : number :=
  Math_max (token_wait t (tokens b) amount)
           (cooldown_wait t now (last_consume b)).

Definition apply_refill (t : TokenBucket) (now : number) (b : BucketState)
  : BucketState :=
  {| tokens :=
       Math_min (capacity t)
         (tokens b + (now - last_refill b) / interval t * refill t);
     last_refill := now;
     last_consume := last_consume b |}.

Definition fresh_bucket (t : TokenBucket) (now : number) : BucketState :=
  {| tokens := initial t; last_refill := now; last_consume := NegInf |}.

End Spec.

(** Settings of the documented domain: [capacity], [interval] and [refill]
    positive, [initial] and [cooldown] not negative, all finite doubles. *)
Definition is_positive (a : number) : bool :=
  is_double a && is_finite a && (zero < a).
Definition is_nonnegative (a : number) : bool :=
  is_double a && is_finite a && (zero <= a).

Definition valid_config (t : TokenBucket) : bool :=
  is_positive (capacity t) && is_positive (interval t)
  && is_positive (refill t)
  && is_nonnegative (initial t) && is_nonnegative (cooldown t).

(** The amounts [check] rejects, and the amounts [consume] rejects. *)
Definition check_rejects (t : TokenBucket) (amount : number) : bool :=
  Number_isNaN amount || (amount < zero) || (amount > capacity t).
Definition consume_rejects (t : TokenBucket) (amount : number) : bool :=
  Number_isNaN amount || (amount <= zero) || (amount > capacity t).

(** The world after one reading of the clock, and after [n] readings. *)
Definition tick (w : World) : World :=
  {| clock := fun i => clock w (S i); console := console w; self := self w |}.

Fixpoint advance (n : nat) (w : World) : World :=
  match n with
  | O => w
  | S n' => tick (advance n' w)
  end.

Definition with_buckets (bs : list (string * BucketState)) (w : World)
  : World :=
  snd (set_buckets bs w).

(** The bucket a method finds under [key]: the stored one, or the one
    [get_bucket] creates at the reading [now]. *)
Definition entry_bucket (t : TokenBucket) (now : number) (key : string)
  : BucketState :=
  match Map_get key (buckets t) with
  | Some b => b
  | None => Spec.fresh_bucket t now
  end.

(** The number of clock readings [get_bucket] makes, and the number
    [calc_cooldown_wait_time] makes. *)
Definition creation_reads (t : TokenBucket) (key : string) : nat :=
  match Map_get key (buckets t) with Some _ => 0 | None => 1 end.
Definition cooldown_reads (t : TokenBucket) : nat :=
  if cooldown t === zero then 0 else 1.

Definition fresh_world (clk : nat -> Z) (options : TokenBucketOptions)
  : World :=
  {| clock := clk; console := []; self := new_TokenBucket options |}.

(** The [wait_time] a call returned ([NaN] if it threw). *)
Definition wait_of (res : Outcome TokenBucketResult * World) : number :=
  match fst res with
  | Returned r => wait_time r
  | Thrown _ => NaN
  end.

(** The fields of a bucket are doubles the methods can have put there:
    [tokens] and [last_refill] finite, [last_consume] finite or
    [-Infinity]. *)
Definition well_formed (b : BucketState) : bool :=
  is_double (tokens b) && is_finite (tokens b)
  && is_double (last_refill b) && is_finite (last_refill b)
  && is_double (last_consume b)
  && (is_finite (last_consume b) || (last_consume b === NegInf)).

(** What the loop of [prune] computes for the entries, the next reading
    of the clock being reading [i]: each entry as refilled at its reading,
    with the cooldown wait computed for it at the reading after. *)
Fixpoint prune_scan (t : TokenBucket) (clk : nat -> Z) (i : nat)
  (entries : list (string * BucketState))
  : list (string * BucketState * number) :=
  match entries with
  | [] => []
  | (key, b) :: rest =>
      let b' := Spec.apply_refill t (of_Z (clk i)) b in
      (key, b', Spec.cooldown_wait t (of_Z (clk (S i))) (last_consume b'))
      :: prune_scan t clk (S i + cooldown_reads t) rest
  end.

(** The test of the loop of [prune]: [true] when the entry stays. *)
Definition prune_keeps (t : TokenBucket)
  (e : string * BucketState * number) : bool :=
  (tokens (snd (fst e)) < capacity t) || (snd e > zero).

(** A bucket [prune] regards as fully recovered: its refilled tokens equal
    [capacity] and its cooldown wait is 0. *)
Definition recovered (t : TokenBucket)
  (e : string * BucketState * number) : bool :=
  (tokens (snd (fst e)) === capacity t) && (snd e === zero).

(** The mantissa and the exponent of a finite double are within the
    format, normalised or not: at most 53 bits, exponent at least -1074.
    Every operation returns such a double. *)
Definition fits (a : number) : Prop :=
  match a with
  | S754_finite _ m e => (Zpos m < 2 ^ prec)%Z /\ (emin prec emax <= e)%Z
  | _ => True
  end.

(** A number, not [NaN], of sign [s] ([true]: negative). *)
Definition has_sign (s : bool) (a : number) : Prop :=
  match a with
  | S754_zero s' | S754_infinity s' | S754_finite s' _ _ => s' = s
  | S754_nan => False
  end.

(** The smallest positive double, [5e-324]. *)
Definition min_value : number := S754_finite false 1 (-1074).

(** [new TokenBucket({capacity: 1, interval: 1, refill: 4})] *)
Definition fast_options : TokenBucketOptions :=
  {| opt_capacity := of_Z 1; opt_interval := of_Z 1;
     opt_refill := Some (of_Z 4); opt_initial := None;
     opt_cooldown := None |}.

(** That limiter at a time 0 that stands still, after
    [consume("key1", 1)] has emptied the bucket of ["key1"]. *)
Definition emptied_world : World :=
  snd (consume "key1" one (fresh_world (fun _ => 0%Z) fast_options)).

(** The bucket of ["key1"] there, as a refill at time 0 leaves it. *)
Definition emptied_bucket : BucketState :=
  Spec.apply_refill (self emptied_world) (of_Z 0)
    (entry_bucket (self emptied_world) (of_Z 0) "key1").

(** ... and after [consume("key1", 5e-324)]. *)
Definition overdrawn_world : World :=
  snd (consume "key1" min_value emptied_world).

(** [-5e-324], the tokens of the overdrawn bucket. *)
Definition overdrawn_bucket : BucketState :=
  {| tokens := S754_finite true 1 (-1074);
     last_refill := zero;
     last_consume := zero |}.

(** Two keys emptied at time 0, the first looked at again at time 1, and
    the limiter pruned at time 7: capacity 3, 3 tokens every 7 ms and a
    cooldown of 2 ms.  The clock is read four times by a [consume] that
    creates its bucket and twice by a [check] of a known key. *)
Definition recovering_options : TokenBucketOptions :=
  {| opt_capacity := of_Z 3; opt_interval := of_Z 7;
     opt_refill := Some (of_Z 3); opt_initial := None;
     opt_cooldown := Some (of_Z 2) |}.

Definition recovering_clock (i : nat) : Z :=
  if (i <? 8)%nat then 0%Z else if (i <? 10)%nat then 1%Z else 7%Z.

Definition recovering_world : World :=
  snd (check "key1" one
         (snd (consume "key2" (of_Z 3)
                 (snd (consume "key1" (of_Z 3)
                         (fresh_world recovering_clock
                            recovering_options)))))).

(** Limiters of the examples: a refill of 3 tokens per millisecond; a
    capacity of [2^1000] refilled by [2^-100]; 10 tokens refilled by
    [2^1000] every [2^-1000] ms.  [still] is a clock that stays at 0. *)
Definition pow2 (e : Z) : number :=
  S754_finite false 4503599627370496 (e - 52).

Definition third_options : TokenBucketOptions :=
  {| opt_capacity := of_Z 1; opt_interval := of_Z 1;
     opt_refill := Some (of_Z 3); opt_initial := Some zero;
     opt_cooldown := None |}.

Definition huge_options : TokenBucketOptions :=
  {| opt_capacity := pow2 1000; opt_interval := of_Z 1;
     opt_refill := Some (pow2 (-100)); opt_initial := Some zero;
     opt_cooldown := None |}.

Definition dense_options : TokenBucketOptions :=
  {| opt_capacity := of_Z 10; opt_interval := pow2 (-1000);
     opt_refill := Some (pow2 1000); opt_initial := None;
     opt_cooldown := None |}.

Definition still (_ : nat) : Z := 0%Z.

Definition third_world : World := fresh_world still third_options.

(** The double nearest to one third, [0.33333333333333331]. *)
Definition one_third : number := S754_finite false 6004799503160661 (-54).

(** The limiters of the tests "should refill tokens over time" and
    "should refill tokens during cooldown". *)
Definition example_options : TokenBucketOptions :=
  {| opt_capacity := of_Z 2; opt_interval := of_Z 100;
     opt_refill := None; opt_initial := None; opt_cooldown := None |}.

Definition cooldown_options : TokenBucketOptions :=
  {| opt_capacity := of_Z 2; opt_interval := of_Z 100;
     opt_refill := None; opt_initial := None;
     opt_cooldown := Some (of_Z 200) |}.

Definition dense_world (n : nat) : World :=
  Nat.iter n (fun w => snd (consume "key1" (of_Z 10) w))
    (fresh_world still dense_options).

End Double.

(* ================================================================== *)
(** ** Proof automation *)
(* ================================================================== *)

(** Running the methods symbolically. *)
Ltac run_cbn :=
  cbn -[add sub mul div Math_max Math_min strict_eq ge le lt gt of_Z].

Ltac run_methods :=
  unfold check, consume, prune, reset, reset_all, size, get_bucket,
    refill_bucket, write_bucket, calc_cooldown_wait_time,
    calc_token_wait_time, Date_now, console_warn, set_buckets, get_this,
    throw, ret, bind, with_buckets, entry_bucket, creation_reads,
    cooldown_reads, Spec.cooldown_wait, Spec.token_wait, Spec.apply_refill,
    Spec.fresh_bucket, set_buckets.

Ltac run_cases :=
  repeat (run_cbn;
          match goal with
          | H : ?c = _ |- context [if ?c then _ else _] => rewrite H
          | H : ?c = _ |- context [match ?c with _ => _ end] => rewrite H
          | |- context [match Map_get ?k ?m with _ => _ end] =>
              destruct (Map_get k m) eqn:?
          | |- context [if ?c then _ else _] => destruct c eqn:?
          end).

Ltac qc_to_q :=
  unfold Qcle, Qclt, Qccompare, Qcminus, Qcdiv, Qcplus, Qcmult, Qcopp,
    Qcinv, Q2Qc in *;
  cbn [Qcanon.this] in *;
  rewrite ?Qred_correct in *.

(** Case analysis on every comparison of two rationals in sight. *)
Ltac qc_cmp :=
  repeat match goal with
  | |- context [Qccompare ?x ?y] =>
      let E := fresh "E" in
      destruct (Qccompare x y) eqn:E;
      [apply Qceq_alt in E | apply Qclt_alt in E | apply Qcgt_alt in E]
  | H : context [Qccompare ?x ?y] |- _ =>
      let E := fresh "E" in
      destruct (Qccompare x y) eqn:E;
      [apply Qceq_alt in E | apply Qclt_alt in E | apply Qcgt_alt in E]
  end.

Ltac qc_solve :=
  try discriminate; try reflexivity;
  try (exfalso; subst; qc_to_q; lra);
  try (subst; qc_to_q; lra).

(* ================================================================== *)
(** ** Facts about numbers *)
(* ================================================================== *)

Lemma Qc_eq_Q (x y : Qc) : (Qcanon.this x == Qcanon.this y)%Q -> x = y.
Proof. apply Qc_is_canon. Qed.

Lemma cmp_Eq a b : cmp a b = Some Eq -> a = b.
Proof.
  destruct a, b; simpl; try discriminate; auto.
  intros H. injection H as H. apply Qceq_alt in H. now subst.
Qed.

Lemma cmp_antisym a b : cmp b a = option_map CompOpp (cmp a b).
Proof.
  destruct a, b; simpl; auto.
  unfold Qccompare. now rewrite <- Qcompare_antisym.
Qed.

Lemma cmp_refl a : Number_isNaN a = false -> cmp a a = Some Eq.
Proof.
  destruct a; simpl; try discriminate; auto.
  intros _. f_equal. now apply Qceq_alt.
Qed.

Lemma positive_inv a :
  positive a = true -> exists q, a = Fin q /\ (0 < q)%Qc.
Proof.
  unfold positive, lt, cmp, zero, is_finite.
  destruct a; try discriminate.
  destruct (0 ?= q)%Qc eqn:E; try discriminate.
  intros _. exists q. split; [reflexivity|]. now apply Qclt_alt.
Qed.

Lemma nonnegative_inv a :
  nonnegative a = true -> exists q, a = Fin q /\ (0 <= q)%Qc.
Proof.
  unfold nonnegative, le, cmp, zero, is_finite.
  destruct a; try discriminate.
  intros H. exists q. split; [reflexivity|]. apply Qcle_alt.
  destruct (0 ?= q)%Qc; simpl in H; congruence.
Qed.

Lemma valid_config_inv t :
  valid_config t = true ->
  exists c i r n d,
    capacity t = Fin c /\ interval t = Fin i /\ refill t = Fin r /\
    initial t = Fin n /\ cooldown t = Fin d /\
    (0 < c)%Qc /\ (0 < i)%Qc /\ (0 < r)%Qc /\ (0 <= n)%Qc /\ (0 <= d)%Qc.
Proof.
  unfold valid_config. rewrite !andb_true_iff.
  intros [[[[Hc Hi] Hr] Hn] Hd].
  apply positive_inv in Hc, Hi, Hr. apply nonnegative_inv in Hn, Hd.
  destruct Hc as (c & ? & ?), Hi as (i & ? & ?), Hr as (r & ? & ?),
    Hn as (n & ? & ?), Hd as (d & ? & ?).
  exists c, i, r, n, d. auto 12.
Qed.

Lemma div_Fin (e i : Qc) : (0 < i)%Qc -> Fin e / Fin i = Fin (e / i)%Qc.
Proof.
  intros Hi. unfold div.
  destruct (Qeq_bool i 0) eqn:E; auto.
  apply Qeq_bool_iff in E. qc_to_q. lra.
Qed.

Lemma sub_Fin (x y : Qc) : Fin x - Fin y = Fin (x - y)%Qc.
Proof. reflexivity. Qed.

Lemma sub_same z : of_Z z - of_Z z = zero.
Proof.
  unfold of_Z. rewrite sub_Fin. unfold zero. f_equal.
  apply Qc_eq_Q. qc_to_q. lra.
Qed.

Lemma le_Fin (x y : Qc) : (Fin x <= Fin y) = true <-> (x <= y)%Qc.
Proof.
  unfold le, cmp. rewrite Qcle_alt.
  destruct (x ?= y)%Qc; split; congruence.
Qed.

Lemma lt_Fin (x y : Qc) : (Fin x < Fin y) = true <-> (x < y)%Qc.
Proof.
  unfold lt, cmp. rewrite Qclt_alt.
  destruct (x ?= y)%Qc; split; congruence.
Qed.

Lemma ge_le a b : (a >= b) = (b <= a).
Proof.
  unfold ge, le. rewrite (cmp_antisym b a).
  destruct (cmp b a) as [[]|]; reflexivity.
Qed.

Lemma Math_min_Fin (x y : Qc) :
  exists m, Math_min (Fin x) (Fin y) = Fin m /\ (m <= x)%Qc /\ (m <= y)%Qc
            /\ (m = x \/ m = y).
Proof.
  unfold Math_min, cmp.
  destruct (x ?= y)%Qc eqn:E.
  - apply Qceq_alt in E. subst. exists y. repeat split; auto; apply Qcle_refl.
  - apply Qclt_alt in E. exists x. repeat split; auto.
    apply Qcle_refl. now apply Qclt_le_weak.
  - apply Qcgt_alt in E. exists y. repeat split; auto.
    now apply Qclt_le_weak. apply Qcle_refl.
Qed.

Lemma zero_rate (i r : Qc) : (0 < i)%Qc -> zero / Fin i * Fin r = zero.
Proof.
  intros Hi. unfold zero. rewrite div_Fin by auto. unfold mul. f_equal.
  apply Qc_eq_Q. qc_to_q. field. lra.
Qed.

Lemma is_finite_inv a : is_finite a = true -> exists q, a = Fin q.
Proof. destruct a; try discriminate. eauto. Qed.

Lemma gt_not_strict_eq a b : (a > b) = true -> (a === b) = false.
Proof. unfold gt, strict_eq. now destruct (cmp a b) as [[]|]. Qed.

Lemma not_le_not_lt a b : (a <= b) = false -> (a < b) = false.
Proof. unfold le, lt. now destruct (cmp a b) as [[]|]. Qed.

Lemma consume_rejects_check t amount :
  consume_rejects t amount = false -> check_rejects t amount = false.
Proof.
  unfold consume_rejects, check_rejects. rewrite !orb_false_iff.
  intros [[H1 H2] H3]. repeat split; auto using not_le_not_lt.
Qed.

Lemma of_Z_le (x y : Z) : (x <= y)%Z -> (of_Z x <= of_Z y) = true.
Proof.
  intros H. apply le_Fin. qc_to_q. now rewrite <- Zle_Qle.
Qed.

(** The elapsed time since a refill in the past is a non-negative number. *)
Lemma elapsed_nonneg (l : Qc) now :
  (Fin l <= of_Z now) = true ->
  exists e, of_Z now - Fin l = Fin e /\ (0 <= e)%Qc.
Proof.
  intros H. apply le_Fin in H. unfold of_Z. rewrite sub_Fin.
  eexists. split; [reflexivity|]. qc_to_q. lra.
Qed.

Lemma Qc_rate_nonneg (e i r : Qc) :
  (0 <= e)%Qc -> (0 < i)%Qc -> (0 < r)%Qc -> (0 <= e / i * r)%Qc.
Proof.
  intros He Hi Hr. qc_to_q.
  apply Qmult_le_0_compat; [|lra].
  apply Qmult_le_0_compat; auto.
  apply Qlt_le_weak, Qinv_lt_0_compat; auto.
Qed.

(** The clamped sum the refill stores. *)
Lemma refill_tokens_bounds (c q e i r : Qc) :
  (0 < c)%Qc -> (0 <= q)%Qc -> (0 <= e)%Qc -> (0 < i)%Qc -> (0 < r)%Qc ->
  exists m,
    Math_min (Fin c) (Fin q + Fin e / Fin i * Fin r) = Fin m /\
    (0 <= m)%Qc /\ (m <= c)%Qc.
Proof.
  intros Hc Hq He Hi Hr. rewrite div_Fin by auto. cbn [mul add].
  destruct (Math_min_Fin c (q + e / i * r)) as (m & -> & Hmc & _ & Hm).
  exists m. repeat split; auto.
  pose proof (Qc_rate_nonneg He Hi Hr) as Hx.
  destruct Hm as [-> | ->].
  - now apply Qclt_le_weak.
  - qc_to_q. lra.
Qed.

(** A cooldown wait is never negative. *)
Lemma Math_max_cooldown_wait t now lc :
  Math_max (Spec.cooldown_wait t now lc) zero = Spec.cooldown_wait t now lc.
Proof.
  unfold Spec.cooldown_wait.
  destruct (cooldown t === zero); [reflexivity|].
  generalize (now - lc). intros e.
  destruct (e >= cooldown t) eqn:E; [reflexivity|].
  revert E. generalize (cooldown t). intros d.
  unfold zero, Math_max, ge, sub.
  destruct e as [| | |x], d as [| | |y]; cbn [cmp neg add];
    try discriminate; auto; intros E; qc_cmp; qc_solve.
Qed.

Lemma token_wait_zero_amount t tokens :
  (tokens >= zero) = true -> Spec.token_wait t tokens zero = zero.
Proof. unfold Spec.token_wait. now intros ->. Qed.

Lemma add_zero_r x : x + zero = x.
Proof.
  destruct x; try reflexivity.
  unfold zero, add. f_equal. apply Qcplus_0_r.
Qed.

Lemma Math_min_below (c m : Qc) :
  (m <= c)%Qc -> Math_min (Fin c) (Fin m) = Fin m.
Proof.
  intros H. unfold Math_min, cmp.
  destruct (c ?= m)%Qc eqn:E; auto.
  - apply Qceq_alt in E. now subst.
  - apply Qclt_alt in E. exfalso. eapply Qclt_not_le; eauto.
Qed.

Lemma Math_min_idem (c : Qc) y :
  Math_min (Fin c) (Math_min (Fin c) y) = Math_min (Fin c) y.
Proof.
  destruct y as [| | |q]; try reflexivity.
  - change (Math_min (Fin c) PosInf) with (Fin c).
    apply Math_min_below, Qcle_refl.
  - destruct (Math_min_Fin c q) as (m & -> & Hm & _).
    now apply Math_min_below.
Qed.

(* ================================================================== *)
(** ** Facts about the [Map] *)
(* ================================================================== *)

Lemma Map_get_set_same key v m : Map_get key (Map_set key v m) = Some v.
Proof.
  induction m as [|[k b] rest IH]; simpl.
  - now rewrite String.eqb_refl.
  - destruct (String.eqb key k) eqn:E; simpl; rewrite E; auto.
Qed.

Lemma Map_get_set_other key key' v m :
  key' <> key -> Map_get key' (Map_set key v m) = Map_get key' m.
Proof.
  intros Hne. induction m as [|[k b] rest IH]; simpl.
  - apply String.eqb_neq in Hne. now rewrite Hne.
  - destruct (String.eqb key k) eqn:E; simpl.
    + apply String.eqb_eq in E. subst k.
      apply String.eqb_neq in Hne. now rewrite Hne.
    + now rewrite IH.
Qed.

Lemma Map_set_set key v v' m :
  Map_set key v (Map_set key v' m) = Map_set key v m.
Proof.
  induction m as [|[k b] rest IH]; simpl.
  - now rewrite String.eqb_refl.
  - destruct (String.eqb key k) eqn:E; simpl; rewrite E; auto.
    now rewrite IH.
Qed.

Lemma Map_get_In key b m : Map_get key m = Some b -> In (key, b) m.
Proof.
  induction m as [|[k b'] rest IH]; simpl; try discriminate.
  destruct (String.eqb key k) eqn:E; auto.
  apply String.eqb_eq in E. intros H. injection H as ->. subst. auto.
Qed.

(* ================================================================== *)
(** ** Clocks *)
(* ================================================================== *)

Lemma clock_advance n w i : clock (advance n w) i = clock w (n + i)%nat.
Proof.
  revert i. induction n as [|n IH]; intros i; simpl; auto.
  rewrite IH. f_equal. lia.
Qed.

Lemma self_advance n w : self (advance n w) = self w.
Proof. induction n; simpl; auto. Qed.

Lemma frozen_advance now n w : frozen now w -> frozen now (advance n w).
Proof. intros H i. now rewrite clock_advance. Qed.

(* ================================================================== *)
(** ** What one run of each method does *)
(* ================================================================== *)

Lemma refill_bucket_run b w :
  refill_bucket b w
  = (Returned (Spec.apply_refill (self w) (of_Z (clock w 0)) b), tick w).
Proof. reflexivity. Qed.

Lemma calc_token_wait_time_run tokens amount w :
  calc_token_wait_time tokens amount w
  = (Returned (Spec.token_wait (self w) tokens amount), w).
Proof.
  unfold calc_token_wait_time, Spec.token_wait, bind, get_this, ret.
  now destruct (tokens >= amount).
Qed.

Lemma calc_cooldown_wait_time_run b w :
  calc_cooldown_wait_time b w
  = (Returned (Spec.cooldown_wait (self w) (of_Z (clock w 0)) (last_consume b)),
     advance (cooldown_reads (self w)) w).
Proof.
  unfold calc_cooldown_wait_time, Spec.cooldown_wait, cooldown_reads, bind,
    get_this, ret, Date_now.
  destruct (cooldown (self w) === zero); simpl; auto.
  now destruct (_ >= _).
Qed.

Lemma with_buckets_self w : with_buckets (buckets (self w)) w = w.
Proof. destruct w as [c o [? ? ? ? ? ?]]. reflexivity. Qed.

Lemma Map_set_get_id key b m : Map_get key m = Some b -> Map_set key b m = m.
Proof.
  induction m as [|[k b'] rest IH]; simpl; try discriminate.
  destruct (String.eqb key k) eqn:E.
  - intros H. injection H as ->. reflexivity.
  - intros H. now rewrite IH.
Qed.

Lemma get_bucket_run key w :
  let t := self w in
  let b0 := entry_bucket t (of_Z (clock w 0)) key in
  get_bucket key w
  = (Returned b0,
     with_buckets (Map_set key b0 (buckets t))
       (advance (creation_reads t key) w)).
Proof.
  unfold get_bucket, entry_bucket, creation_reads, bind, get_this, ret.
  cbn zeta. destruct (Map_get key (buckets (self w))) eqn:E.
  - rewrite Map_set_get_id by exact E. simpl. now rewrite with_buckets_self.
  - reflexivity.
Qed.

Lemma write_bucket_run key b w :
  write_bucket key b w
  = (Returned tt, with_buckets (Map_set key b (buckets (self w))) w).
Proof. reflexivity. Qed.

Lemma check_run key amount w :
  check_rejects (self w) amount = false ->
  let t := self w in
  let cr := creation_reads t key in
  let b0 := entry_bucket t (of_Z (clock w 0)) key in
  let b1 := Spec.apply_refill t (of_Z (clock w cr)) b0 in
  let cw := Spec.cooldown_wait t (of_Z (clock w (S cr))) (last_consume b1) in
  let tw := Spec.token_wait t (tokens b1) amount in
  check key amount w
  = (Returned {| wait_time := Math_max cw tw |},
     with_buckets (Map_set key b1 (buckets t))
       (advance (S cr + cooldown_reads t) w)).
Proof.
  unfold check_rejects. rewrite !orb_false_iff. intros [[H1 H2] H3].
  cbn zeta. unfold check. rewrite H1, H2.
  unfold bind at 1. unfold get_this at 1. rewrite H3.
  unfold bind at 1. rewrite get_bucket_run.
  unfold bind at 1. rewrite refill_bucket_run.
  unfold bind at 1. rewrite write_bucket_run.
  unfold bind at 1. rewrite calc_cooldown_wait_time_run.
  unfold bind at 1. rewrite calc_token_wait_time_run.
  unfold ret, creation_reads, cooldown_reads, entry_bucket.
  destruct (Map_get key (buckets (self w))) eqn:E;
    simpl; rewrite Map_set_set;
    destruct (cooldown (self w) === zero); reflexivity.
Qed.

Lemma consume_run key amount w :
  consume_rejects (self w) amount = false ->
  let t := self w in
  let cr := creation_reads t key in
  let b0 := entry_bucket t (of_Z (clock w 0)) key in
  let b1 := Spec.apply_refill t (of_Z (clock w cr)) b0 in
  let cw := Spec.cooldown_wait t (of_Z (clock w (S cr))) (last_consume b1) in
  let tw := Spec.token_wait t (tokens b1) amount in
  let wt := Math_max cw tw in
  let n := (S cr + cooldown_reads t)%nat in
  consume key amount w
  = (Returned {| wait_time := wt |},
     if wt === zero then
       with_buckets
         (Map_set key
            {| tokens := tokens b1 - amount;
               last_refill := last_refill b1;
               last_consume := of_Z (clock w n) |}
            (buckets t))
         (advance (S n) w)
     else with_buckets (Map_set key b1 (buckets t)) (advance n w)).
Proof.
  unfold consume_rejects. rewrite !orb_false_iff. intros [[H1 H2] H3].
  destruct w as [clk con [cap int rf ini cd bs]].
  cbn [self capacity] in H3.
  run_methods. run_cbn. rewrite H1, H2. run_cbn. rewrite H3.
  run_cases; run_cbn; rewrite ?Map_set_set; reflexivity.
Qed.

Lemma advance_advance a b w : advance a (advance b w) = advance (a + b) w.
Proof. induction a as [|a IH]; simpl; [reflexivity|]. now rewrite IH. Qed.

Lemma check_throws key amount w :
  check_rejects (self w) amount = true ->
  exists msg, check key amount w = (Thrown msg, w).
Proof.
  unfold check_rejects, check. intros E.
  destruct (Number_isNaN amount); [eexists; reflexivity|].
  destruct (amount < zero); [eexists; reflexivity|].
  simpl in E. unfold bind, get_this. rewrite E. eexists; reflexivity.
Qed.

Lemma consume_throws key amount w :
  consume_rejects (self w) amount = true ->
  exists msg, consume key amount w = (Thrown msg, w).
Proof.
  unfold consume_rejects, consume. intros E.
  destruct (Number_isNaN amount); [eexists; reflexivity|].
  destruct (amount <= zero); [eexists; reflexivity|].
  simpl in E. unfold bind, get_this. rewrite E. eexists; reflexivity.
Qed.

(* ================================================================== *)
(** ** Validation *)
(* ================================================================== *)

(** C6: [check(key, amount)] throws exactly when [amount] is [NaN],
    negative or greater than [capacity]; [consume(key, amount)] throws
    exactly when [amount] is [NaN], not positive or greater than
    [capacity].  A call that throws leaves the world as it found it: the
    clock is not read, no bucket is created, the [Map] and its size are
    the same. *)
Theorem validation_fails_fast key amount w :
  ((Number_isNaN amount || (amount < zero) || (amount > capacity (self w))
    = true
    /\ exists msg, check key amount w = (Thrown msg, w))
   \/
   (Number_isNaN amount || (amount < zero) || (amount > capacity (self w))
    = false
    /\ exists r w', check key amount w = (Returned r, w')))
  /\
  ((Number_isNaN amount || (amount <= zero) || (amount > capacity (self w))
    = true
    /\ exists msg, consume key amount w = (Thrown msg, w))
   \/
   (Number_isNaN amount || (amount <= zero) || (amount > capacity (self w))
    = false
    /\ exists r w', consume key amount w = (Returned r, w'))).
Proof.
  split.
  - destruct (check_rejects (self w) amount) eqn:E.
    + left. split; [exact E|]. now apply check_throws.
    + right. split; [exact E|]. rewrite check_run by exact E. eauto.
  - destruct (consume_rejects (self w) amount) eqn:E.
    + left. split; [exact E|]. now apply consume_throws.
    + right. split; [exact E|]. rewrite consume_run by exact E. eauto.
Qed.

(* ================================================================== *)
(** ** Wait times *)
(* ================================================================== *)

Lemma frozen_with_buckets now bs w :
  frozen now w -> frozen now (with_buckets bs w).
Proof. intros H i. apply H. Qed.

Lemma cooldown_wait_never t now :
  Number_isNaN (cooldown t) = false ->
  Spec.cooldown_wait t (of_Z now) NegInf = zero.
Proof.
  intros Hn. unfold Spec.cooldown_wait.
  destruct (cooldown t === zero); auto.
  destruct (cooldown t); try discriminate; reflexivity.
Qed.

(** C8: a bucket that [get_bucket] has just created for an unseen key has
    [last_consume = -Infinity], and after its refill the cooldown wait is
    0, whatever number the [cooldown] setting is; so the first [consume]
    for a key waits for tokens only. *)
Theorem fresh_bucket_no_cooldown key w :
  Map_get key (buckets (self w)) = None ->
  Number_isNaN (cooldown (self w)) = false ->
  exists b w1 b' w2 w3,
    get_bucket key w = (Returned b, w1) /\
    last_consume b = NegInf /\
    refill_bucket b w1 = (Returned b', w2) /\
    calc_cooldown_wait_time b' w2 = (Returned zero, w3) /\
    (forall amount,
       consume_rejects (self w) amount = false ->
       wait_of (consume key amount w)
       = Math_max zero (Spec.token_wait (self w) (tokens b') amount)).
Proof.
  intros Hnone Hnan. do 5 eexists.
  rewrite get_bucket_run. unfold entry_bucket, creation_reads.
  rewrite Hnone.
  split; [reflexivity|]. split; [reflexivity|].
  rewrite refill_bucket_run. split; [reflexivity|].
  rewrite calc_cooldown_wait_time_run.
  cbn [Spec.apply_refill Spec.fresh_bucket last_consume].
  rewrite cooldown_wait_never by exact Hnan.
  split; [reflexivity|].
  intros amount Hok. rewrite consume_run by exact Hok.
  unfold wait_of, entry_bucket, creation_reads. rewrite Hnone.
  cbn [fst wait_time Spec.apply_refill Spec.fresh_bucket last_consume].
  rewrite cooldown_wait_never by exact Hnan. reflexivity.
Qed.

(** An unseen key of the limiter with 200 ms of cooldown. *)
Lemma fresh_bucket_no_cooldown_witness :
  Map_get "key2" (buckets (self (fresh_world example_clock cooldown_options)))
  = None /\
  Number_isNaN (cooldown (self (fresh_world example_clock cooldown_options)))
  = false /\
  exists b w1 b' w2 w3,
    get_bucket "key2" (fresh_world example_clock cooldown_options)
    = (Returned b, w1) /\
    refill_bucket b w1 = (Returned b', w2) /\
    calc_cooldown_wait_time b' w2 = (Returned zero, w3).
Proof.
  split; [reflexivity|]. split; [reflexivity|].
  destruct (@fresh_bucket_no_cooldown "key2"
              (fresh_world example_clock cooldown_options)
              eq_refl eq_refl)
    as (b & w1 & b' & w2 & w3 & Hg & _ & Hr & Hc & _).
  exists b, w1, b', w2, w3. auto.
Defined.

(* ================================================================== *)
(** ** Refill *)
(* ================================================================== *)

Lemma apply_refill_idem t now b :
  valid_config t = true ->
  Spec.apply_refill t (of_Z now) (Spec.apply_refill t (of_Z now) b)
  = Spec.apply_refill t (of_Z now) b.
Proof.
  intros Hv.
  destruct (valid_config_inv _ Hv)
    as (c & i & r & n & d & Hcap & Hint & Hrf & _ & _ & _ & Hi & _).
  unfold Spec.apply_refill. cbn [tokens last_refill last_consume].
  rewrite sub_same, Hint, Hrf, zero_rate by auto.
  rewrite add_zero_r, Hcap, Math_min_idem. reflexivity.
Qed.

(** C9: refilling a bucket twice at the same reading of the clock leaves
    it as the first refill left it: the second refill returns the very
    same bucket state ([tokens], [last_refill] and [last_consume]), whose
    [last_refill] is that reading. *)
Theorem refill_idempotent b w :
  valid_config (self w) = true ->
  clock w 1 = clock w 0 ->
  exists b1 w1 w2,
    refill_bucket b w = (Returned b1, w1) /\
    refill_bucket b1 w1 = (Returned b1, w2) /\
    last_refill b1 = of_Z (clock w 0).
Proof.
  intros Hv Hc.
  exists (Spec.apply_refill (self w) (of_Z (clock w 0)) b), (tick w),
    (tick (tick w)).
  split; [apply refill_bucket_run|]. split; [|reflexivity].
  rewrite refill_bucket_run. cbn [tick self clock]. rewrite Hc.
  now rewrite apply_refill_idem.
Qed.

Lemma refill_idempotent_witness :
  valid_config (self drained_world) = true /\
  clock drained_world 1 = clock drained_world 0 /\
  exists b b1 w1 w2,
    Map_get "key1" (buckets (self drained_world)) = Some b /\
    refill_bucket b drained_world = (Returned b1, w1) /\
    refill_bucket b1 w1 = (Returned b1, w2).
Proof.
  assert (H1 : valid_config (self drained_world) = true)
    by (vm_compute; reflexivity).
  assert (H2 : clock drained_world 1 = clock drained_world 0)
    by reflexivity.
  split; [exact H1|]. split; [exact H2|].
  destruct (Map_get "key1" (buckets (self drained_world))) as [b|] eqn:E;
    [|vm_compute in E; discriminate].
  destruct (@refill_idempotent b drained_world H1 H2)
    as (b1 & w1 & w2 & Ha & Hb & _).
  exists b, b1, w1, w2. auto.
Defined.

(* ================================================================== *)
(** ** [check] and [consume] *)
(* ================================================================== *)

Lemma consume_returned key amount w r w' :
  consume key amount w = (Returned r, w') ->
  consume_rejects (self w) amount = false.
Proof.
  intros H. destruct (consume_rejects (self w) amount) eqn:E; auto.
  destruct (@consume_throws key amount w E) as [msg Hm]. congruence.
Qed.

Lemma buckets_with_buckets bs w : buckets (self (with_buckets bs w)) = bs.
Proof. reflexivity. Qed.

(** C2, as the code has it: a [consume(key, amount)] that returns
    [wait_time > 0] deducts nothing and leaves [last_consume] alone, but it
    is not without effect: it does exactly what [check(key, amount)] does.
    The bucket of [key] is created if the key was unseen and is refilled
    ([tokens] and [last_refill] are those of the refill); the buckets of
    the other keys are untouched. *)
Theorem blocked_consume_only_refills key amount w r w' :
  consume key amount w = (Returned r, w') ->
  (wait_time r > zero) = true ->
  let b0 := entry_bucket (self w) (of_Z (clock w 0)) key in
  let b1 :=
    Spec.apply_refill (self w)
      (of_Z (clock w (creation_reads (self w) key))) b0 in
  check key amount w = (Returned r, w') /\
  Map_get key (buckets (self w')) = Some b1 /\
  last_consume b1 = last_consume b0 /\
  (forall key', key' <> key ->
     Map_get key' (buckets (self w')) = Map_get key' (buckets (self w))).
Proof.
  intros Hrun Hpos. pose proof (consume_returned _ _ _ Hrun) as Hok.
  rewrite consume_run in Hrun by exact Hok.
  injection Hrun as Hr Hw. subst r. cbn [wait_time] in Hpos.
  rewrite (gt_not_strict_eq _ _ Hpos) in Hw. subst w'.
  cbn zeta. split; [|split; [|split]].
  - rewrite check_run by (apply consume_rejects_check; exact Hok).
    reflexivity.
  - rewrite buckets_with_buckets. apply Map_get_set_same.
  - reflexivity.
  - intros key' Hne. rewrite buckets_with_buckets.
    now apply Map_get_set_other.
Qed.

Lemma blocked_consume_only_refills_witness :
  exists r w',
    consume "key1" one drained_world = (Returned r, w') /\
    (wait_time r > zero) = true /\
    check "key1" one drained_world = (Returned r, w').
Proof.
  pose (res := consume "key1" one drained_world).
  exists (match fst res with
          | Returned r => r
          | Thrown _ => {| wait_time := NaN |}
          end), (snd res).
  assert (H1 : consume "key1" one drained_world
               = (Returned (match fst res with
                            | Returned r => r
                            | Thrown _ => {| wait_time := NaN |}
                            end), snd res))
    by (vm_compute; reflexivity).
  assert (H2 : (wait_time (match fst res with
                           | Returned r => r
                           | Thrown _ => {| wait_time := NaN |}
                           end) > zero) = true)
    by (vm_compute; reflexivity).
  split; [exact H1|]. split; [exact H2|].
  exact (proj1 (blocked_consume_only_refills _ _ _ H1 H2)).
Defined.

(** C2 as stated fails: 50 ms after ["key1"] was drained, a blocked
    [consume("key1", 1)] changes the token count of its bucket from 0 to
    0.5. *)
Lemma blocked_consume_changes_tokens :
  exists r w' b b',
    consume "key1" one drained_world = (Returned r, w') /\
    (wait_time r > zero) = true /\
    Map_get "key1" (buckets (self drained_world)) = Some b /\
    Map_get "key1" (buckets (self w')) = Some b' /\
    (tokens b === zero) = true /\
    (tokens b' === half) = true /\
    tokens b' <> tokens b.
Proof.
  do 4 eexists.
  split; [vm_compute; reflexivity|].
  split; [vm_compute; reflexivity|].
  split; [vm_compute; reflexivity|].
  split; [vm_compute; reflexivity|].
  split; [vm_compute; reflexivity|].
  split; [vm_compute; reflexivity|].
  intros H. apply (f_equal (fun x => x === zero)) in H.
  vm_compute in H. discriminate.
Qed.

(** C7, as the code has it: [check(key, amount)] with an accepted
    [amount] never deducts from [tokens] and never changes [last_consume],
    but it does assign [tokens]: afterwards the bucket of [key] is the
    entry bucket refilled.  The buckets of the other keys are untouched.
    With [amount = 0], which is rejected only by a negative [capacity],
    and refilled tokens that are not negative, the wait returned is the
    cooldown wait alone. *)
Theorem check_only_refills key amount w :
  check_rejects (self w) amount = false ->
  let b0 := entry_bucket (self w) (of_Z (clock w 0)) key in
  let b1 :=
    Spec.apply_refill (self w)
      (of_Z (clock w (creation_reads (self w) key))) b0 in
  exists r w',
    check key amount w = (Returned r, w') /\
    Map_get key (buckets (self w')) = Some b1 /\
    last_consume b1 = last_consume b0 /\
    (forall key', key' <> key ->
       Map_get key' (buckets (self w')) = Map_get key' (buckets (self w))) /\
    (amount = zero -> (tokens b1 >= zero) = true ->
     wait_time r
     = Spec.cooldown_wait (self w)
         (of_Z (clock w (S (creation_reads (self w) key))))
         (last_consume b1)) /\
    check_rejects (self w) zero = (zero > capacity (self w)).
Proof.
  intros Hok. cbn zeta. rewrite check_run by exact Hok.
  do 2 eexists. split; [reflexivity|].
  rewrite buckets_with_buckets.
  split; [apply Map_get_set_same|]. split; [reflexivity|].
  split; [|split].
  - intros key' Hne. now apply Map_get_set_other.
  - intros -> Hge. cbn [wait_time].
    rewrite token_wait_zero_amount by exact Hge.
    apply Math_max_cooldown_wait.
  - reflexivity.
Qed.

Lemma check_only_refills_witness :
  check_rejects (self drained_world) zero = false /\
  exists r w',
    check "key1" zero drained_world = (Returned r, w') /\
    (wait_time r === zero) = true.
Proof.
  assert (H1 : check_rejects (self drained_world) zero = false)
    by (vm_compute; reflexivity).
  split; [exact H1|].
  destruct (@check_only_refills "key1" zero drained_world H1)
    as (r & w' & Hc & _ & _ & _ & Hz & _).
  exists r, w'. split; [exact Hc|].
  rewrite (Hz eq_refl); vm_compute; reflexivity.
Defined.

(** C7 as stated fails: 50 ms after ["key1"] was drained,
    [check("key1", 1)] changes the token count of its bucket from 0 to
    0.5. *)
Lemma check_changes_tokens :
  exists r w' b b',
    check "key1" one drained_world = (Returned r, w') /\
    Map_get "key1" (buckets (self drained_world)) = Some b /\
    Map_get "key1" (buckets (self w')) = Some b' /\
    (tokens b === zero) = true /\
    (tokens b' === half) = true /\
    tokens b' <> tokens b.
Proof.
  do 4 eexists.
  split; [vm_compute; reflexivity|].
  split; [vm_compute; reflexivity|].
  split; [vm_compute; reflexivity|].
  split; [vm_compute; reflexivity|].
  split; [vm_compute; reflexivity|].
  intros H. apply (f_equal (fun x => x === zero)) in H.
  vm_compute in H. discriminate.
Qed.

Lemma self_with_buckets_advance bs n w :
  self (with_buckets bs (advance n w)) = self (with_buckets bs w).
Proof.
  unfold with_buckets, set_buckets. cbn [snd self]. now rewrite self_advance.
Qed.

(** C4: with no time passing, [check(key, amount)] followed by
    [consume(key, amount)] return the same [wait_time]; when it is 0 the
    [consume] deducts [amount] from the tokens [check] left and sets
    [last_consume] to [now], otherwise it leaves the bucket as [check]
    left it. *)
Theorem check_then_consume key amount now w :
  frozen now w ->
  valid_config (self w) = true ->
  consume_rejects (self w) amount = false ->
  exists wt b w1 w2,
    check key amount w = (Returned {| wait_time := wt |}, w1) /\
    consume key amount w1 = (Returned {| wait_time := wt |}, w2) /\
    Map_get key (buckets (self w1)) = Some b /\
    Map_get key (buckets (self w2))
    = Some (if wt === zero
            then {| tokens := tokens b - amount;
                    last_refill := last_refill b;
                    last_consume := of_Z now |}
            else b).
Proof.
  intros Hf Hv Hok.
  rewrite check_run by (apply consume_rejects_check; exact Hok).
  rewrite !Hf.
  set (b1 := Spec.apply_refill (self w) (of_Z now)
               (entry_bucket (self w) (of_Z now) key)).
  set (bs1 := Map_set key b1 (buckets (self w))).
  set (w1 := with_buckets bs1 _).
  assert (Hs1 : self w1 = self (with_buckets bs1 w))
    by apply self_with_buckets_advance.
  assert (Hf1 : frozen now w1).
  { unfold w1. apply frozen_with_buckets, frozen_advance, Hf. }
  assert (Hget : Map_get key (buckets (self w1)) = Some b1).
  { unfold w1. rewrite buckets_with_buckets. apply Map_get_set_same. }
  assert (Hb1 : Spec.apply_refill (self w1) (of_Z now) b1 = b1).
  { rewrite Hs1.
    change (Spec.apply_refill (self w) (of_Z now) b1 = b1).
    now apply apply_refill_idem. }
  assert (Hok1 : consume_rejects (self w1) amount = false).
  { rewrite Hs1. exact Hok. }
  exists (Math_max
            (Spec.cooldown_wait (self w) (of_Z now) (last_consume b1))
            (Spec.token_wait (self w) (tokens b1) amount)), b1, w1.
  rewrite (@consume_run key amount w1 Hok1). rewrite !Hf1.
  unfold entry_bucket, creation_reads. rewrite Hget, Hb1.
  rewrite Hs1.
  change (Spec.cooldown_wait (self (with_buckets bs1 w)))
    with (Spec.cooldown_wait (self w)).
  change (Spec.token_wait (self (with_buckets bs1 w)))
    with (Spec.token_wait (self w)).
  eexists. split; [reflexivity|]. split; [reflexivity|].
  split; [reflexivity|].
  match goal with |- context [if ?c then _ else _] => destruct c end;
    rewrite buckets_with_buckets; apply Map_get_set_same.
Qed.

Lemma check_then_consume_witness :
  frozen 50 drained_world /\
  valid_config (self drained_world) = true /\
  consume_rejects (self drained_world) one = false /\
  exists wt w1 w2,
    check "key1" one drained_world = (Returned {| wait_time := wt |}, w1) /\
    consume "key1" one w1 = (Returned {| wait_time := wt |}, w2).
Proof.
  assert (H1 : frozen 50 drained_world) by (intros i; reflexivity).
  assert (H2 : valid_config (self drained_world) = true)
    by (vm_compute; reflexivity).
  assert (H3 : consume_rejects (self drained_world) one = false)
    by (vm_compute; reflexivity).
  split; [exact H1|]. split; [exact H2|]. split; [exact H3|].
  destruct (@check_then_consume "key1" one 50 drained_world H1 H2 H3)
    as (wt & b & w1 & w2 & Hc & Hk & _).
  exists wt, w1, w2. split; [exact Hc|exact Hk].
Defined.

(* ================================================================== *)
(** ** [prune] *)
(* ================================================================== *)

Lemma prune_loop_frozen t now entries : forall removed w,
  self w = t -> frozen now w ->
  exists k,
    prune_loop (capacity t) entries removed w
    = (Returned
         (filter (prune_keeps t (of_Z now)) (refill_all t (of_Z now) entries),
          (removed
           + List.length
               (filter (fun kb => negb (prune_keeps t (of_Z now) kb))
                  (refill_all t (of_Z now) entries)))%nat),
       advance k w).
Proof.
  induction entries as [|[key b] rest IH]; intros removed w Ht Hf.
  - exists 0%nat. cbn. now rewrite Nat.add_0_r.
  - cbn [prune_loop]. unfold bind at 1. rewrite refill_bucket_run.
    unfold bind at 1. rewrite calc_cooldown_wait_time_run.
    cbn [tick self clock]. rewrite Ht, !Hf.
    set (b' := Spec.apply_refill t (of_Z now) b).
    set (w1 := advance (cooldown_reads t) (tick w)).
    assert (Hw1 : w1 = advance (cooldown_reads t + 1) w).
    { unfold w1. now rewrite <- advance_advance. }
    assert (Ht1 : self w1 = t) by now rewrite Hw1, self_advance.
    assert (Hf1 : frozen now w1) by (rewrite Hw1; now apply frozen_advance).
    cbn [refill_all map filter fst snd]. fold (refill_all t (of_Z now) rest).
    fold b'.
    change ((tokens b' < capacity t)
            || (Spec.cooldown_wait t (of_Z now) (last_consume b') > zero))
      with (prune_keeps t (of_Z now) (key, b')).
    destruct (prune_keeps t (of_Z now) (key, b')).
    + destruct (IH removed w1 Ht1 Hf1) as [k Hk].
      unfold bind at 1. rewrite Hk. cbn [fst snd ret negb].
      exists (k + (cooldown_reads t + 1))%nat.
      now rewrite Hw1, advance_advance.
    + destruct (IH (S removed) w1 Ht1 Hf1) as [k Hk].
      rewrite Hk. cbn [negb List.length].
      exists (k + (cooldown_reads t + 1))%nat.
      rewrite Hw1, advance_advance. do 3 f_equal. lia.
Qed.

Lemma ge_not_lt a b : (a >= b) = true -> (a < b) = false.
Proof. unfold ge, lt. now destruct (cmp a b) as [[]|]. Qed.

Lemma gt_zero_not_eq x :
  Number_isNaN x = false -> Math_max x zero = x ->
  (x > zero) = negb (x === zero).
Proof.
  unfold Math_max, gt, strict_eq. intros Hn.
  destruct (cmp x zero) as [[]|] eqn:E; auto.
  - intros <-. now rewrite cmp_refl in E.
  - destruct x; discriminate.
Qed.

Lemma cooldown_wait_not_NaN t now lc :
  is_finite (cooldown t) = true -> Number_isNaN lc = false ->
  Number_isNaN (Spec.cooldown_wait t (of_Z now) lc) = false.
Proof.
  intros Hd Hlc. apply is_finite_inv in Hd. destruct Hd as [d Hd].
  unfold Spec.cooldown_wait. rewrite Hd.
  destruct (Fin d === zero); [reflexivity|].
  destruct lc; try discriminate; cbn [of_Z sub neg add ge cmp];
    try reflexivity.
  now destruct (_ ?= _)%Qc.
Qed.

Lemma lt_not_eq_below (m c : Qc) :
  (m <= c)%Qc -> (Fin m < Fin c) = negb (Fin m === Fin c).
Proof.
  intros H. unfold lt, strict_eq, cmp. qc_cmp; qc_solve.
Qed.

(** On a well-formed bucket, the test of the loop of [prune] fails exactly
    when the refilled bucket is fully recovered. *)
Lemma prune_keeps_recovered t now key b :
  valid_config t = true -> well_formed b = true ->
  let b' := Spec.apply_refill t (of_Z now) b in
  prune_keeps t (of_Z now) (key, b') = negb (recovered t (of_Z now) b').
Proof.
  intros Hv Hwf. cbn zeta.
  destruct (valid_config_inv _ Hv)
    as (c & i & r & n & d & Hc & Hi & Hr & _ & Hd & _ & Hi0 & _).
  unfold well_formed in Hwf. rewrite !andb_true_iff in Hwf.
  destruct Hwf as [[Ht Hl] Hlc].
  apply is_finite_inv in Ht, Hl. destruct Ht as [q Ht], Hl as [l Hl].
  apply negb_true_iff in Hlc.
  unfold prune_keeps, recovered. cbn [snd].
  set (cw := Spec.cooldown_wait t (of_Z now)
               (last_consume (Spec.apply_refill t (of_Z now) b))).
  assert (Hcw : (cw > zero) = negb (cw === zero)).
  { apply gt_zero_not_eq.
    - apply cooldown_wait_not_NaN; [now rewrite Hd|exact Hlc].
    - apply Math_max_cooldown_wait. }
  rewrite Hcw, negb_andb. f_equal.
  unfold Spec.apply_refill. cbn [tokens].
  rewrite Hc, Hi, Hr, Ht, Hl. unfold of_Z. rewrite sub_Fin, div_Fin by auto.
  cbn [mul add].
  destruct (Math_min_Fin c (q + (Q2Qc (inject_Z now) - l) / i * r))
    as (m & -> & Hmc & _).
  now apply lt_not_eq_below.
Qed.

(* ================================================================== *)
(** ** More facts about the [Map] *)
(* ================================================================== *)

(* ---------------- Map facts ---------------- *)
Lemma Map_get_None_keys key m :
  Map_get key m = None <-> ~ In key (Map_keys m).
Proof.
  induction m as [|[k b] rest IH]; simpl.
  - tauto.
  - destruct (String.eqb key k) eqn:E.
    + apply String.eqb_eq in E. subst. split; [discriminate|]. tauto.
    + apply String.eqb_neq in E. rewrite IH. split.
      * intros H [H1|H1]; [congruence|tauto].
      * tauto.
Qed.

Lemma Map_keys_set_present key v m :
  Map_get key m <> None -> Map_keys (Map_set key v m) = Map_keys m.
Proof.
  induction m as [|[k b] rest IH]; simpl; [congruence|].
  destruct (String.eqb key k) eqn:E; simpl; [reflexivity|].
  intros H. now rewrite IH.
Qed.

Lemma Map_keys_set_absent key v m :
  Map_get key m = None -> Map_keys (Map_set key v m) = Map_keys m ++ [key].
Proof.
  induction m as [|[k b] rest IH]; simpl; [reflexivity|].
  destruct (String.eqb key k) eqn:E; simpl; [discriminate|].
  intros H. now rewrite IH.
Qed.

Lemma NoDup_Map_set key v m :
  NoDup (Map_keys m) -> NoDup (Map_keys (Map_set key v m)).
Proof.
  intros Hnd. destruct (Map_get key m) as [b|] eqn:E.
  - rewrite Map_keys_set_present; [exact Hnd|congruence].
  - rewrite Map_keys_set_absent by exact E.
    apply NoDup_app; [exact Hnd|repeat constructor; simpl; tauto|].
    intros k Hin [Hk|[]]. subst k.
    now apply Map_get_None_keys in E.
Qed.

Lemma Map_keys_delete_incl key m k :
  In k (Map_keys (Map_delete key m)) -> In k (Map_keys m).
Proof.
  induction m as [|[k0 b] rest IH]; simpl; [tauto|].
  destruct (String.eqb key k0); simpl; tauto.
Qed.

Lemma NoDup_Map_delete key m :
  NoDup (Map_keys m) -> NoDup (Map_keys (Map_delete key m)).
Proof.
  induction m as [|[k b] rest IH]; simpl; [auto|].
  intros Hnd. inversion Hnd as [|? ? Hk Hrest]; subst.
  destruct (String.eqb key k); simpl; [exact Hrest|].
  constructor; [|auto].
  intros Hin. apply Hk. eapply Map_keys_delete_incl; eauto.
Qed.

Lemma Map_get_delete_same key m :
  NoDup (Map_keys m) -> Map_get key (Map_delete key m) = None.
Proof.
  induction m as [|[k b] rest IH]; simpl; [reflexivity|].
  intros Hnd. inversion Hnd as [|? ? Hk Hrest]; subst.
  destruct (String.eqb key k) eqn:E; simpl.
  - apply String.eqb_eq in E. subst k. now apply Map_get_None_keys.
  - rewrite E. auto.
Qed.

Lemma Map_get_delete_other key key' m :
  key' <> key -> Map_get key' (Map_delete key m) = Map_get key' m.
Proof.
  intros Hne. induction m as [|[k b] rest IH]; simpl; [reflexivity|].
  destruct (String.eqb key k) eqn:E; simpl.
  - apply String.eqb_eq in E. subst k.
    apply String.eqb_neq in Hne. now rewrite Hne.
  - now rewrite IH.
Qed.

Lemma Map_delete_absent key m :
  Map_get key m = None -> Map_delete key m = m.
Proof.
  induction m as [|[k b] rest IH]; simpl; [reflexivity|].
  destruct (String.eqb key k); [discriminate|].
  intros H. now rewrite IH.
Qed.

Lemma Map_size_delete key m :
  (Map_size (Map_delete key m) + (if Map_has key m then 1 else 0))%nat
  = Map_size m.
Proof.
  unfold Map_has, Map_size.
  induction m as [|[k b] rest IH]; simpl; [reflexivity|].
  destruct (String.eqb key k); simpl; [lia|].
  destruct (Map_get key rest); simpl in *; lia.
Qed.

Lemma Map_size_set key v m :
  Map_size (Map_set key v m)
  = (Map_size m + (if Map_has key m then 0 else 1))%nat.
Proof.
  unfold Map_has, Map_size.
  induction m as [|[k b] rest IH]; simpl; [reflexivity|].
  destruct (String.eqb key k); simpl; [lia|].
  rewrite IH. destruct (Map_get key rest); simpl; lia.
Qed.

(* ================================================================== *)
(** ** What the calls leave behind *)
(* ================================================================== *)

Lemma same_config_refl t : same_config t t.
Proof. repeat split. Qed.

Lemma same_config_trans t1 t2 t3 :
  same_config t1 t2 -> same_config t2 t3 -> same_config t1 t3.
Proof.
  unfold same_config. intros (?&?&?&?&?) (?&?&?&?&?).
  repeat split; congruence.
Qed.

Lemma same_config_update bs n w :
  same_config (self (with_buckets bs (advance n w))) (self w).
Proof.
  rewrite self_with_buckets_advance. repeat split.
Qed.

(** What [check] and [consume] leave behind, accepted or not. *)
Lemma check_world key amount w :
  exists bs n,
    snd (check key amount w) = with_buckets bs (advance n w) /\
    (forall key', key' <> key ->
       Map_get key' bs = Map_get key' (buckets (self w))) /\
    Map_size bs
    = (Map_size (buckets (self w))
       + (if check_rejects (self w) amount || Map_has key (buckets (self w))
          then 0 else 1))%nat /\
    (NoDup (Map_keys (buckets (self w))) -> NoDup (Map_keys bs)).
Proof.
  destruct (check_rejects (self w) amount) eqn:E.
  - destruct (@check_throws key amount w E) as [msg ->].
    exists (buckets (self w)), 0%nat. cbn [snd advance orb].
    rewrite with_buckets_self.
    repeat split; auto; unfold Map_size; lia.
  - rewrite check_run by exact E. cbn [snd orb].
    do 2 eexists. split; [reflexivity|]. split; [|split].
    + intros key' Hne. now apply Map_get_set_other.
    + apply Map_size_set.
    + apply NoDup_Map_set.
Qed.

Lemma consume_world key amount w :
  exists bs n,
    snd (consume key amount w) = with_buckets bs (advance n w) /\
    (forall key', key' <> key ->
       Map_get key' bs = Map_get key' (buckets (self w))) /\
    Map_size bs
    = (Map_size (buckets (self w))
       + (if consume_rejects (self w) amount
             || Map_has key (buckets (self w))
          then 0 else 1))%nat /\
    (NoDup (Map_keys (buckets (self w))) -> NoDup (Map_keys bs)).
Proof.
  destruct (consume_rejects (self w) amount) eqn:E.
  - destruct (@consume_throws key amount w E) as [msg ->].
    exists (buckets (self w)), 0%nat. cbn [snd advance orb].
    rewrite with_buckets_self.
    repeat split; auto; unfold Map_size; lia.
  - rewrite consume_run by exact E. cbn [snd orb].
    match goal with |- context [if ?c then _ else _] => destruct c end;
      (do 2 eexists; split; [reflexivity|]; split; [|split];
       [ intros key' Hne; now apply Map_get_set_other
       | apply Map_size_set
       | apply NoDup_Map_set ]).
Qed.

(** The loop of [prune], whatever the clock and the buckets: it reads the
    clock some number of times, keeps some of the entries in their order
    and counts the others. *)
Lemma prune_loop_shape cap entries : forall removed w,
  exists kept n k,
    prune_loop cap entries removed w = (Returned (kept, n), advance k w) /\
    (List.length kept + n = List.length entries + removed)%nat /\
    (forall key, In key (Map_keys kept) -> In key (Map_keys entries)) /\
    (NoDup (Map_keys entries) -> NoDup (Map_keys kept)).
Proof.
  induction entries as [|[key b] rest IH]; intros removed w.
  - exists [], removed, 0%nat. repeat split; auto.
  - cbn [prune_loop]. unfold bind at 1. rewrite refill_bucket_run.
    unfold bind at 1. rewrite calc_cooldown_wait_time_run.
    set (w1 := advance (cooldown_reads (self (tick w))) (tick w)).
    assert (Hw1 : w1 = advance (cooldown_reads (self w) + 1) w).
    { unfold w1. now rewrite <- advance_advance. }
    match goal with |- context [if ?c then _ else _] => destruct c end.
    + destruct (IH removed w1) as (kept & n & k & Hrun & Hlen & Hin & Hnd).
      unfold bind at 1. rewrite Hrun. cbn [fst snd ret].
      do 3 eexists. split; [rewrite Hw1, advance_advance; reflexivity|].
      cbn [List.length Map_keys map fst]. split; [lia|]. split.
      * intros k0 [Hk|Hk]; [left; exact Hk|right; now apply Hin].
      * intros Hnd'. inversion Hnd' as [|? ? Hk Hrest]; subst.
        constructor; [|now apply Hnd].
        intros Hc. apply Hk. now apply Hin.
    + destruct (IH (S removed) w1) as (kept & n & k & Hrun & Hlen & Hin & Hnd).
      rewrite Hrun.
      do 3 eexists. split; [rewrite Hw1, advance_advance; reflexivity|].
      cbn [List.length Map_keys map fst]. split; [lia|]. split.
      * intros k0 Hk. right. now apply Hin.
      * intros Hnd'. inversion Hnd' as [|? ? Hk Hrest]; subst.
        now apply Hnd.
Qed.

Lemma prune_world w :
  exists bs n k,
    fst (prune w) = Returned n /\
    self (snd (prune w)) = self (with_buckets bs w) /\
    (forall i, clock (snd (prune w)) i = clock w (k + i)%nat) /\
    (Map_size bs + n = Map_size (buckets (self w)))%nat /\
    (forall key, In key (Map_keys bs) -> In key (Map_keys (buckets (self w))))
    /\
    (NoDup (Map_keys (buckets (self w))) -> NoDup (Map_keys bs)).
Proof.
  destruct (initial (self w) < capacity (self w)) eqn:E.
  - assert (Hp : exists msg,
               prune w
               = (Returned 0%nat,
                  {| clock := clock w; console := console w ++ [msg];
                     self := self w |})).
    { eexists. unfold prune, bind, get_this. rewrite E. reflexivity. }
    destruct Hp as [msg ->].
    exists (buckets (self w)), 0%nat, 0%nat. cbn [fst snd self clock].
    split; [reflexivity|].
    split; [rewrite with_buckets_self; reflexivity|].
    split; [reflexivity|].
    repeat split; auto; unfold Map_size; lia.
  - destruct (prune_loop_shape (capacity (self w)) (buckets (self w)) 0%nat w)
      as (kept & n & k & Hrun & Hlen & Hin & Hnd).
    assert (Hp : prune w = (Returned n, with_buckets kept (advance k w))).
    { unfold prune. unfold bind at 1. unfold get_this at 1. rewrite E.
      unfold bind at 1. rewrite Hrun. reflexivity. }
    rewrite Hp. cbn [fst snd].
    exists kept, n, k. split; [reflexivity|].
    split; [apply self_with_buckets_advance|].
    split; [intros i; apply clock_advance|].
    unfold Map_size. repeat split; auto; lia.
Qed.

Lemma call_shape c w :
  same_config (self (call c w)) (self w) /\
  (unique_keys w -> unique_keys (call c w)).
Proof.
  unfold unique_keys.
  destruct c as [key amount|key amount|key| | |]; cbn [call].
  - destruct (check_world key amount w) as (bs & n & -> & _ & _ & Hnd).
    split; [apply same_config_update|exact Hnd].
  - destruct (consume_world key amount w) as (bs & n & -> & _ & _ & Hnd).
    split; [apply same_config_update|exact Hnd].
  - split; [repeat split|]. apply NoDup_Map_delete.
  - split; [repeat split|]. intros _. constructor.
  - split; [repeat split|]. auto.
  - destruct (prune_world w) as (bs & n & k & _ & -> & _ & _ & _ & Hnd).
    split; [repeat split|exact Hnd].
Qed.

Lemma run_shape cs : forall w,
  same_config (self (run cs w)) (self w) /\
  (unique_keys w -> unique_keys (run cs w)).
Proof.
  induction cs as [|c cs IH]; intros w; cbn [run].
  - split; [apply same_config_refl|auto].
  - destruct (IH (call c w)) as [Hc Hu], (call_shape c w) as [Hc' Hu'].
    split; [eapply same_config_trans; eauto|auto].
Qed.

Lemma fresh_world_unique clk options : unique_keys (fresh_world clk options).
Proof. constructor. Qed.

Lemma two_keys_world_unique : unique_keys two_keys_world.
Proof. apply run_shape, fresh_world_unique. Qed.

(* ================================================================== *)
(** ** [reset], [reset_all], [size] and the keys *)
(* ================================================================== *)

(** X12: after any calls, [reset_all()] leaves the object the constructor
    made from the options (no method changes the settings), and [size] is 0.
    *)
Theorem reset_all_restores_constructor clk options cs :
  exists w',
    reset_all (run cs (fresh_world clk options)) = (Returned tt, w') /\
    self w' = new_TokenBucket options /\
    size w' = (Returned 0%nat, w').
Proof.
  eexists. split; [reflexivity|].
  destruct (run_shape cs (fresh_world clk options))
    as [(H1 & H2 & H3 & H4 & H5) _].
  split; [|reflexivity].
  unfold reset_all, set_buckets. cbn [snd self].
  rewrite H1, H2, H3, H4, H5. reflexivity.
Qed.

Lemma reset_run key w :
  reset key w
  = (Returned tt, with_buckets (Map_delete key (buckets (self w))) w).
Proof. reflexivity. Qed.

Lemma size_run w : size w = (Returned (Map_size (buckets (self w))), w).
Proof. reflexivity. Qed.

(** X11: after [reset(key)] the key is not tracked and every other key has
    the bucket it had; [size] is one less exactly when [key] was tracked,
    and the call changes nothing when it was not; the next [get_bucket(key)]
    creates a new bucket, with [initial] tokens, at the next reading of the
    clock. *)
Theorem reset_forgets_key key w :
  unique_keys w ->
  exists w',
    reset key w = (Returned tt, w') /\
    Map_get key (buckets (self w')) = None /\
    (forall key', key' <> key ->
       Map_get key' (buckets (self w')) = Map_get key' (buckets (self w))) /\
    (Map_size (buckets (self w'))
     + (if Map_has key (buckets (self w)) then 1 else 0))%nat
    = Map_size (buckets (self w)) /\
    (Map_get key (buckets (self w)) = None -> w' = w) /\
    fst (get_bucket key w')
    = Returned (Spec.fresh_bucket (self w) (of_Z (clock w 0))).
Proof.
  intros Hu. rewrite reset_run. eexists. split; [reflexivity|].
  rewrite buckets_with_buckets.
  assert (Hnone : Map_get key (Map_delete key (buckets (self w))) = None)
    by now apply Map_get_delete_same.
  split; [exact Hnone|]. split; [|split; [|split]].
  - intros key' Hne. now apply Map_get_delete_other.
  - apply Map_size_delete.
  - intros H. rewrite Map_delete_absent by exact H. apply with_buckets_self.
  - rewrite get_bucket_run. cbn [fst]. unfold entry_bucket.
    rewrite buckets_with_buckets, Hnone. reflexivity.
Qed.

(** The limiter that tracks ["key1"] and ["key2"], and [reset("key1")]. *)
Lemma reset_forgets_key_witness :
  unique_keys two_keys_world /\
  exists w',
    reset "key1" two_keys_world = (Returned tt, w') /\
    Map_get "key1" (buckets (self w')) = None /\
    Map_get "key2" (buckets (self w'))
    = Map_get "key2" (buckets (self two_keys_world)).
Proof.
  assert (H1 : unique_keys two_keys_world) by exact two_keys_world_unique.
  split; [exact H1|].
  destruct (@reset_forgets_key "key1" two_keys_world H1)
    as (w' & Hr & Hn & Ho & _).
  exists w'. split; [exact Hr|]. split; [exact Hn|].
  apply Ho. discriminate.
Defined.

(** X10: [check] and [consume] start tracking the key they are given, and no
    other: after the call [size] is the former [size], plus one exactly when
    the amount was accepted and the key was not tracked; and the key is
    tracked afterwards iff the amount was accepted or the key was tracked
    before. *)
Theorem access_tracks_its_key key amount w :
  size (snd (check key amount w))
  = (Returned
       (Map_size (buckets (self w))
        + (if check_rejects (self w) amount || Map_has key (buckets (self w))
           then 0 else 1))%nat,
     snd (check key amount w)) /\
  size (snd (consume key amount w))
  = (Returned
       (Map_size (buckets (self w))
        + (if consume_rejects (self w) amount
              || Map_has key (buckets (self w))
           then 0 else 1))%nat,
     snd (consume key amount w)) /\
  Map_has key (buckets (self (snd (check key amount w))))
  = negb (check_rejects (self w) amount) || Map_has key (buckets (self w)) /\
  Map_has key (buckets (self (snd (consume key amount w))))
  = negb (consume_rejects (self w) amount) || Map_has key (buckets (self w)).
Proof.
  rewrite !size_run. split; [|split; [|split]].
  - destruct (check_world key amount w) as (bs & n & -> & _ & Hsz & _).
    now rewrite buckets_with_buckets, Hsz.
  - destruct (consume_world key amount w) as (bs & n & -> & _ & Hsz & _).
    now rewrite buckets_with_buckets, Hsz.
  - destruct (check_rejects (self w) amount) eqn:E.
    + destruct (@check_throws key amount w E) as [msg ->]. reflexivity.
    + rewrite check_run by exact E. cbn [snd negb orb].
      rewrite buckets_with_buckets. unfold Map_has.
      now rewrite Map_get_set_same.
  - destruct (consume_rejects (self w) amount) eqn:E.
    + destruct (@consume_throws key amount w E) as [msg ->]. reflexivity.
    + rewrite consume_run by exact E. cbn [snd negb orb].
      match goal with |- context [if ?c then _ else _] => destruct c end;
        rewrite buckets_with_buckets; unfold Map_has;
        now rewrite Map_get_set_same.
Qed.

(** X13: [prune()] never throws, whatever the state and the clock; the
    number it returns is the number by which [size] goes down, a key that
    was not tracked is not tracked afterwards, and the settings are
    unchanged. *)
Theorem prune_returns_size_decrease w :
  exists n w',
    prune w = (Returned n, w') /\
    (Map_size (buckets (self w')) + n)%nat = Map_size (buckets (self w)) /\
    (forall key,
       Map_get key (buckets (self w)) = None ->
       Map_get key (buckets (self w')) = None) /\
    same_config (self w') (self w).
Proof.
  destruct (prune_world w) as (bs & n & k & Hf & Hs & _ & Hsz & Hin & _).
  exists n, (snd (prune w)). split; [|split; [|split]].
  - rewrite <- Hf. apply surjective_pairing.
  - rewrite Hs, buckets_with_buckets. exact Hsz.
  - intros key. rewrite Hs, buckets_with_buckets, !Map_get_None_keys.
    intros H Hc. apply H. now apply Hin.
  - rewrite Hs. repeat split.
Qed.

(** What [consume] and [check] return for a key depends on the settings,
    on the bucket of the key and on the clock only. *)
Lemma consume_ext key amount w w' :
  same_config (self w) (self w') ->
  Map_get key (buckets (self w)) = Map_get key (buckets (self w')) ->
  (forall i, clock w i = clock w' i) ->
  fst (consume key amount w) = fst (consume key amount w') /\
  Map_get key (buckets (self (snd (consume key amount w))))
  = Map_get key (buckets (self (snd (consume key amount w')))).
Proof.
  intros (Hc & Hi & Hr & Hn & Hd) Hg Hk.
  destruct (consume_rejects (self w) amount) eqn:E.
  - assert (E' : consume_rejects (self w') amount = true)
      by (unfold consume_rejects in *; now rewrite <- Hc).
    unfold consume_rejects in E, E'. unfold consume.
    destruct (Number_isNaN amount); [split; [reflexivity|exact Hg]|].
    destruct (amount <= zero); [split; [reflexivity|exact Hg]|].
    cbn [orb] in E, E'. unfold bind, get_this. rewrite E, E'.
    split; [reflexivity|exact Hg].
  - assert (E' : consume_rejects (self w') amount = false)
      by (unfold consume_rejects in *; now rewrite <- Hc).
    rewrite (@consume_run key amount w E), (@consume_run key amount w' E').
    unfold entry_bucket, creation_reads, cooldown_reads, Spec.cooldown_wait,
      Spec.token_wait, Spec.apply_refill, Spec.fresh_bucket.
    rewrite <- Hg, <- Hc, <- Hi, <- Hr, <- Hn, <- Hd, <- !Hk.
    cbn [fst snd]. split; [reflexivity|].
    match goal with |- context [if ?c then _ else _] => destruct c end;
      rewrite !buckets_with_buckets, !Map_get_set_same; reflexivity.
Qed.

Lemma check_ext key amount w w' :
  same_config (self w) (self w') ->
  Map_get key (buckets (self w)) = Map_get key (buckets (self w')) ->
  (forall i, clock w i = clock w' i) ->
  fst (check key amount w) = fst (check key amount w') /\
  Map_get key (buckets (self (snd (check key amount w))))
  = Map_get key (buckets (self (snd (check key amount w')))).
Proof.
  intros (Hc & Hi & Hr & Hn & Hd) Hg Hk.
  destruct (check_rejects (self w) amount) eqn:E.
  - assert (E' : check_rejects (self w') amount = true)
      by (unfold check_rejects in *; now rewrite <- Hc).
    unfold check_rejects in E, E'. unfold check.
    destruct (Number_isNaN amount); [split; [reflexivity|exact Hg]|].
    destruct (amount < zero); [split; [reflexivity|exact Hg]|].
    cbn [orb] in E, E'. unfold bind, get_this. rewrite E, E'.
    split; [reflexivity|exact Hg].
  - assert (E' : check_rejects (self w') amount = false)
      by (unfold check_rejects in *; now rewrite <- Hc).
    rewrite (@check_run key amount w E), (@check_run key amount w' E').
    unfold entry_bucket, creation_reads, cooldown_reads, Spec.cooldown_wait,
      Spec.token_wait, Spec.apply_refill, Spec.fresh_bucket.
    rewrite <- Hg, <- Hc, <- Hi, <- Hr, <- Hn, <- Hd, <- !Hk.
    cbn [fst snd]. split; [reflexivity|].
    rewrite !buckets_with_buckets, !Map_get_set_same; reflexivity.
Qed.

Lemma frozen_same_clock now w w' :
  frozen now w -> frozen now w' -> forall i, clock w i = clock w' i.
Proof. intros H H' i. now rewrite H, H'. Qed.

(** X9: keys do not interact. A [consume] or [check] of [key] leaves the
    bucket of any other key as it was; and when no time passes, what
    [consume] and [check] of the other key then return, and the bucket
    [consume] leaves there, are what they are without the call on [key]. *)
Theorem keys_are_independent key key' amount amount' w :
  key' <> key ->
  let w1 := snd (consume key amount w) in
  let w2 := snd (check key amount w) in
  Map_get key' (buckets (self w1)) = Map_get key' (buckets (self w)) /\
  Map_get key' (buckets (self w2)) = Map_get key' (buckets (self w)) /\
  (forall now, frozen now w ->
     fst (consume key' amount' w1) = fst (consume key' amount' w) /\
     fst (check key' amount' w1) = fst (check key' amount' w) /\
     Map_get key' (buckets (self (snd (consume key' amount' w1))))
     = Map_get key' (buckets (self (snd (consume key' amount' w))))).
Proof.
  intros Hne. cbn zeta.
  destruct (consume_world key amount w) as (bs & n & Hw & Hother & _).
  destruct (check_world key amount w) as (bs2 & n2 & Hw2 & Hother2 & _).
  assert (H1 : Map_get key' (buckets (self (snd (consume key amount w))))
               = Map_get key' (buckets (self w))).
  { rewrite Hw, buckets_with_buckets. now apply Hother. }
  split; [exact H1|]. split.
  { rewrite Hw2, buckets_with_buckets. now apply Hother2. }
  intros now Hf.
  assert (Hc : same_config (self (snd (consume key amount w))) (self w)).
  { rewrite Hw. apply same_config_update. }
  assert (Hk : forall i, clock (snd (consume key amount w)) i = clock w i).
  { apply (@frozen_same_clock now); [|exact Hf].
    rewrite Hw. now apply frozen_with_buckets, frozen_advance. }
  destruct (@consume_ext key' amount' _ _ Hc H1 Hk) as [Ha Hb].
  destruct (@check_ext key' amount' _ _ Hc H1 Hk) as [Ha' _].
  auto.
Qed.

(** A [consume] of ["key1"] on the drained limiter, and ["key2"]. *)
Lemma keys_are_independent_witness :
  "key2"%string <> "key1"%string /\
  frozen 50 drained_world /\
  Map_get "key2" (buckets (self (snd (consume "key1" one drained_world))))
  = Map_get "key2" (buckets (self drained_world)) /\
  fst (consume "key2" one (snd (consume "key1" one drained_world)))
  = fst (consume "key2" one drained_world).
Proof.
  assert (H1 : "key2"%string <> "key1"%string) by discriminate.
  assert (H2 : frozen 50 drained_world) by (intros i; reflexivity).
  split; [exact H1|]. split; [exact H2|].
  destruct (@keys_are_independent "key1" "key2" one one drained_world H1)
    as (Ha & _ & Hb).
  split; [exact Ha|]. exact (proj1 (Hb 50%Z H2)).
Defined.

(* ================================================================== *)
(** ** More facts about numbers and refills *)
(* ================================================================== *)

Lemma of_Z_sub (x y : Z) : of_Z x - of_Z y = of_Z (x - y).
Proof.
  unfold of_Z. rewrite sub_Fin. f_equal. apply Qc_eq_Q. qc_to_q.
  unfold Z.sub. rewrite inject_Z_plus, inject_Z_opp. lra.
Qed.

Lemma of_Z_nonneg (x : Z) : (0 <= x)%Z -> (0 <= Q2Qc (inject_Z x))%Qc.
Proof.
  intros H. qc_to_q. change 0%Q with (inject_Z 0). now rewrite <- Zle_Qle.
Qed.

Lemma ge_Fin (x y : Qc) : (Fin x >= Fin y) = true <-> (y <= x)%Qc.
Proof. rewrite ge_le. apply le_Fin. Qed.

Lemma ge_Fin_false (x y : Qc) : (Fin x >= Fin y) = false <-> (x < y)%Qc.
Proof.
  unfold ge, cmp. rewrite Qclt_alt. destruct (x ?= y)%Qc; split; congruence.
Qed.

Lemma Math_max_Fin (x y : Qc) :
  exists m, Math_max (Fin x) (Fin y) = Fin m /\ (x <= m)%Qc /\ (y <= m)%Qc
            /\ (m = x \/ m = y).
Proof.
  unfold Math_max, cmp.
  destruct (x ?= y)%Qc eqn:E.
  - apply Qceq_alt in E. subst. exists y. repeat split; auto; apply Qcle_refl.
  - apply Qclt_alt in E. exists y. repeat split; auto.
    now apply Qclt_le_weak. apply Qcle_refl.
  - apply Qcgt_alt in E. exists x. repeat split; auto.
    apply Qcle_refl. now apply Qclt_le_weak.
Qed.

Lemma apply_refill_tokens_finite t now b :
  valid_config t = true ->
  is_finite (tokens b) = true -> is_finite (last_refill b) = true ->
  is_finite (tokens (Spec.apply_refill t (of_Z now) b)) = true.
Proof.
  intros Hv Ht Hl.
  destruct (valid_config_inv _ Hv)
    as (c & i & r & n & d & Hc & Hi & Hr & _ & _ & _ & Hi0 & _).
  apply is_finite_inv in Ht, Hl. destruct Ht as [q Ht], Hl as [l Hl].
  unfold Spec.apply_refill. cbn [tokens].
  rewrite Hc, Hi, Hr, Ht, Hl. unfold of_Z.
  rewrite sub_Fin, div_Fin by auto. cbn [mul add].
  now destruct (Math_min_Fin c (q + (Q2Qc (inject_Z now) - l) / i * r))
    as (m & -> & _).
Qed.

Lemma self_at_time now w : self (at_time now w) = self w.
Proof. reflexivity. Qed.

(* ================================================================== *)
(** ** Calls that leave no trace *)
(* ================================================================== *)

Lemma check_rejected_ext key amount w w' :
  capacity (self w) = capacity (self w') ->
  check_rejects (self w) amount = true ->
  fst (check key amount w) = fst (check key amount w').
Proof.
  intros Hc E.
  assert (E' : check_rejects (self w') amount = true)
    by (unfold check_rejects in *; now rewrite <- Hc).
  unfold check_rejects in E, E'. unfold check.
  destruct (Number_isNaN amount); [reflexivity|].
  destruct (amount < zero); [reflexivity|].
  cbn [orb] in E, E'. unfold bind, get_this. now rewrite E, E'.
Qed.

Lemma consume_rejected_ext key amount w w' :
  capacity (self w) = capacity (self w') ->
  consume_rejects (self w) amount = true ->
  fst (consume key amount w) = fst (consume key amount w').
Proof.
  intros Hc E.
  assert (E' : consume_rejects (self w') amount = true)
    by (unfold consume_rejects in *; now rewrite <- Hc).
  unfold consume_rejects in E, E'. unfold consume.
  destruct (Number_isNaN amount); [reflexivity|].
  destruct (amount <= zero); [reflexivity|].
  cbn [orb] in E, E'. unfold bind, get_this. now rewrite E, E'.
Qed.

(** With no time passing during the call, what [check] and [consume]
    return is decided by the settings, the tokens of the refilled entry
    and its cooldown wait. *)
Lemma access_frozen_ext key amount now w w' :
  frozen now w -> frozen now w' -> same_config (self w) (self w') ->
  tokens (refilled_entry (self w) now key)
  = tokens (refilled_entry (self w') now key) ->
  Spec.cooldown_wait (self w) (of_Z now)
    (last_consume (refilled_entry (self w) now key))
  = Spec.cooldown_wait (self w) (of_Z now)
      (last_consume (refilled_entry (self w') now key)) ->
  fst (check key amount w) = fst (check key amount w') /\
  fst (consume key amount w) = fst (consume key amount w').
Proof.
  intros Hf Hf' Hcfg Ht Hcw. pose proof Hcfg as (Hc & Hi & Hr & Hn & Hd).
  unfold refilled_entry in *.
  assert (Hcwt : forall lc, Spec.cooldown_wait (self w') (of_Z now) lc
                            = Spec.cooldown_wait (self w) (of_Z now) lc)
    by (intros lc; unfold Spec.cooldown_wait; now rewrite Hd).
  assert (Htw : forall x, Spec.token_wait (self w') x amount
                          = Spec.token_wait (self w) x amount)
    by (intros x; unfold Spec.token_wait; now rewrite Hi, Hr).
  split.
  - destruct (check_rejects (self w) amount) eqn:E.
    + now apply check_rejected_ext.
    + assert (E' : check_rejects (self w') amount = false)
        by (unfold check_rejects in *; now rewrite <- Hc).
      rewrite (@check_run key amount w E), (@check_run key amount w' E').
      rewrite !Hf, !Hf'. cbn [fst]. now rewrite Hcwt, Htw, <- Ht, <- Hcw.
  - destruct (consume_rejects (self w) amount) eqn:E.
    + now apply consume_rejected_ext.
    + assert (E' : consume_rejects (self w') amount = false)
        by (unfold consume_rejects in *; now rewrite <- Hc).
      rewrite (@consume_run key amount w E), (@consume_run key amount w' E').
      rewrite !Hf, !Hf'. cbn [fst]. now rewrite Hcwt, Htw, <- Ht, <- Hcw.
Qed.

Lemma apply_refill_config t t' now b :
  same_config t t' -> Spec.apply_refill t now b = Spec.apply_refill t' now b.
Proof.
  intros (Hc & Hi & Hr & _). unfold Spec.apply_refill.
  now rewrite Hc, Hi, Hr.
Qed.

(* ================================================================== *)
(** ** [prune] and what the calls return *)
(* ================================================================== *)

Lemma strict_eq_eq a b : (a === b) = true -> a = b.
Proof.
  unfold strict_eq. destruct (cmp a b) as [[]|] eqn:E; try discriminate.
  intros _. now apply cmp_Eq.
Qed.

Lemma Map_get_filter_refill_all f t now key m :
  NoDup (Map_keys m) ->
  Map_get key (filter f (refill_all t now m))
  = match Map_get key m with
    | Some b =>
        if f (key, Spec.apply_refill t now b)
        then Some (Spec.apply_refill t now b) else None
    | None => None
    end.
Proof.
  induction m as [|[k b] rest IH]; [reflexivity|].
  cbn [Map_keys map fst]. intros Hnd.
  inversion Hnd as [|? ? Hk Hrest]; subst.
  cbn [refill_all map filter fst snd Map_get].
  fold (refill_all t now rest).
  destruct (String.eqb key k) eqn:E.
  - apply String.eqb_eq in E. subst k.
    destruct (f (key, Spec.apply_refill t now b)).
    + cbn [Map_get]. now rewrite String.eqb_refl.
    + rewrite (IH Hrest).
      apply Map_get_None_keys in Hk. now rewrite Hk.
  - destruct (f (k, Spec.apply_refill t now b)).
    + cbn [Map_get]. rewrite E. now apply IH.
    + now apply IH.
Qed.

(** [prune()] when it prunes and no time passes during the call. *)
Lemma prune_frozen_run now w :
  frozen now w ->
  (initial (self w) < capacity (self w)) = false ->
  exists n k,
    prune w
    = (Returned n,
       with_buckets
         (filter (prune_keeps (self w) (of_Z now))
            (refill_all (self w) (of_Z now) (buckets (self w))))
         (advance k w)).
Proof.
  intros Hf Hlt.
  destruct (@prune_loop_frozen (self w) now (buckets (self w)) 0%nat w
              eq_refl Hf) as [k Hk].
  do 2 eexists. unfold prune. unfold bind at 1. unfold get_this at 1.
  rewrite Hlt. unfold bind at 1. rewrite Hk. reflexivity.
Qed.

(** A new bucket, refilled when it is created, on a limiter whose
    [initial] is not below [capacity]. *)
Lemma fresh_refilled_full t now :
  valid_config t = true -> (initial t >= capacity t) = true ->
  tokens (Spec.apply_refill t (of_Z now) (Spec.fresh_bucket t (of_Z now)))
  = capacity t.
Proof.
  intros Hv Hge.
  destruct (valid_config_inv _ Hv)
    as (c & i & r & n & d & Hc & Hi & Hr & Hn & _ & _ & Hi0 & _).
  unfold Spec.apply_refill, Spec.fresh_bucket.
  cbn [tokens last_refill]. rewrite sub_same, Hc, Hi, Hr, Hn in *.
  rewrite zero_rate, add_zero_r by auto.
  apply ge_Fin in Hge. unfold Math_min, cmp. qc_cmp; qc_solve.
Qed.

(** X14: when [initial >= capacity], [prune()] cannot be observed through
    [check] and [consume]: with no time passing, they return after a
    [prune()] what they return without it, for every key and amount. *)
Theorem prune_is_unobservable key amount now w :
  frozen now w ->
  valid_config (self w) = true ->
  (initial (self w) >= capacity (self w)) = true ->
  Forall (fun kb => well_formed (snd kb) = true) (buckets (self w)) ->
  unique_keys w ->
  fst (check key amount (snd (prune w))) = fst (check key amount w) /\
  fst (consume key amount (snd (prune w))) = fst (consume key amount w).
Proof.
  intros Hf Hv Hge Hwf Hu.
  destruct (@prune_frozen_run now w Hf (ge_not_lt _ _ Hge)) as (n & k & ->).
  cbn [snd].
  set (kept := filter _ _).
  apply (@access_frozen_ext key amount now).
  - now apply frozen_with_buckets, frozen_advance.
  - exact Hf.
  - apply same_config_update.
  - unfold refilled_entry, entry_bucket.
    rewrite (apply_refill_config (of_Z now) _ (same_config_update kept k w)).
    rewrite self_with_buckets_advance, buckets_with_buckets.
    unfold kept. rewrite Map_get_filter_refill_all by exact Hu.
    destruct (Map_get key (buckets (self w))) as [b|] eqn:E; [|reflexivity].
    destruct (prune_keeps _ _ _) eqn:Ek.
    + now rewrite apply_refill_idem.
    + assert (Hb : well_formed b = true).
      { rewrite Forall_forall in Hwf.
        exact (Hwf _ (Map_get_In _ _ E)). }
      rewrite (@prune_keeps_recovered (self w) now key b Hv Hb) in Ek.
      apply negb_false_iff in Ek. unfold recovered in Ek.
      apply andb_true_iff in Ek. destruct Ek as [Ek _].
      apply strict_eq_eq in Ek. rewrite Ek.
      exact (@fresh_refilled_full (self w) now Hv Hge).
  - unfold refilled_entry, entry_bucket.
    rewrite self_with_buckets_advance, buckets_with_buckets.
    unfold kept. rewrite Map_get_filter_refill_all by exact Hu.
    destruct (Map_get key (buckets (self w))) as [b|] eqn:E; [|reflexivity].
    destruct (prune_keeps _ _ _) eqn:Ek; [reflexivity|].
    assert (Hb : well_formed b = true).
    { rewrite Forall_forall in Hwf.
      exact (Hwf _ (Map_get_In _ _ E)). }
    rewrite (@prune_keeps_recovered (self w) now key b Hv Hb) in Ek.
    apply negb_false_iff in Ek. unfold recovered in Ek.
    apply andb_true_iff in Ek. destruct Ek as [_ Ek].
    apply strict_eq_eq in Ek.
    cbn [Spec.apply_refill Spec.fresh_bucket last_consume] in *.
    match goal with
    | |- context [Spec.cooldown_wait (self (with_buckets ?bs w))] =>
        change (Spec.cooldown_wait (self (with_buckets bs w)))
          with (Spec.cooldown_wait (self w))
    end.
    rewrite Ek. apply cooldown_wait_never.
    destruct (valid_config_inv _ Hv)
      as (c & i & r & n0 & d & _ & _ & _ & _ & Hd & _).
    now rewrite Hd.
Qed.

(** The limiter that tracks ["key1"] and ["key2"], pruned at 100 ms. *)
Lemma prune_is_unobservable_witness :
  frozen 100 two_keys_world /\
  valid_config (self two_keys_world) = true /\
  (initial (self two_keys_world) >= capacity (self two_keys_world)) = true /\
  Forall (fun kb => well_formed (snd kb) = true)
    (buckets (self two_keys_world)) /\
  unique_keys two_keys_world /\
  fst (check "key1" one (snd (prune two_keys_world)))
  = fst (check "key1" one two_keys_world) /\
  fst (consume "key1" one (snd (prune two_keys_world)))
  = fst (consume "key1" one two_keys_world).
Proof.
  assert (H1 : frozen 100 two_keys_world) by (intros i; reflexivity).
  assert (H2 : valid_config (self two_keys_world) = true)
    by (vm_compute; reflexivity).
  assert (H3 : (initial (self two_keys_world)
                >= capacity (self two_keys_world)) = true)
    by (vm_compute; reflexivity).
  assert (H4 : Forall (fun kb => well_formed (snd kb) = true)
                 (buckets (self two_keys_world)))
    by (repeat constructor).
  assert (H5 : unique_keys two_keys_world) by exact two_keys_world_unique.
  split; [exact H1|]. split; [exact H2|]. split; [exact H3|].
  split; [exact H4|]. split; [exact H5|].
  exact (@prune_is_unobservable "key1" one 100 two_keys_world
           H1 H2 H3 H4 H5).
Defined.

(* ================================================================== *)
(** ** The first [consume] and the cooldown *)
(* ================================================================== *)

Lemma consume_accepts_inv t amount (c : Qc) :
  capacity t = Fin c -> consume_rejects t amount = false ->
  exists a, amount = Fin a /\ (0 < a)%Qc /\ (a <= c)%Qc.
Proof.
  intros Hc. unfold consume_rejects. rewrite Hc, !orb_false_iff.
  intros [[H1 H2] H3].
  destruct amount as [| | |a]; try discriminate.
  exists a. split; [reflexivity|].
  unfold le, gt, lt, cmp, zero in *. split; qc_cmp; qc_solve.
Qed.

Lemma Math_max_zero_zero : Math_max zero zero = zero.
Proof. reflexivity. Qed.

(** X1: the first [consume(key, amount)] for a key the limiter does not
    track is granted whenever [amount] is valid and at most [initial]: it
    returns [wait_time = 0] whatever the [cooldown], and leaves under [key]
    a bucket with [min(capacity, initial + elapsed / interval * refill) -
    amount] tokens (not negative), [last_refill] the second reading of the
    clock and [last_consume] the last reading of the call; [elapsed] is the
    time between the creation of the bucket and its refill. *)
Theorem first_consume_is_granted key amount w :
  valid_config (self w) = true ->
  (clock w 0 <= clock w 1)%Z ->
  Map_get key (buckets (self w)) = None ->
  consume_rejects (self w) amount = false ->
  (amount <= initial (self w)) = true ->
  wait_of (consume key amount w) = zero /\
  exists b,
    Map_get key (buckets (self (snd (consume key amount w)))) = Some b /\
    tokens b
    = Math_min (capacity (self w))
        (initial (self w)
         + (of_Z (clock w 1) - of_Z (clock w 0)) / interval (self w)
           * refill (self w))
      - amount /\
    (zero <= tokens b) = true /\
    last_refill b = of_Z (clock w 1) /\
    last_consume b = of_Z (clock w (2 + cooldown_reads (self w))).
Proof.
  intros Hv Hclk Hg Hrej Hle.
  destruct (valid_config_inv _ Hv)
    as (c & i & r & n & d & Hc & Hi & Hr & Hn & Hd
        & Hc0 & Hi0 & Hr0 & Hn0 & Hd0).
  destruct (@consume_accepts_inv (self w) amount c Hc Hrej)
    as (a & -> & Ha0 & Hac).
  rewrite Hn in Hle. apply le_Fin in Hle.
  rewrite (@consume_run key (Fin a) w Hrej).
  unfold wait_of, entry_bucket, creation_reads. rewrite Hg.
  cbn [fst snd wait_time Spec.fresh_bucket Spec.apply_refill tokens
         last_refill last_consume].
  rewrite cooldown_wait_never by now rewrite Hd.
  rewrite Hc, Hi, Hr, Hn.
  destruct (@elapsed_nonneg (Q2Qc (inject_Z (clock w 0))) (clock w 1))
    as (e & He & He0); [now apply of_Z_le|].
  change (Fin (Q2Qc (inject_Z (clock w 0)))) with (of_Z (clock w 0)) in He.
  rewrite He.
  destruct (@refill_tokens_bounds c n e i r Hc0 Hn0 He0 Hi0 Hr0)
    as (m & Hm & Hm0 & Hmc).
  rewrite Hm.
  assert (Ham : (a <= m)%Qc).
  { revert Hm. rewrite div_Fin by exact Hi0.
    pose proof (@Qc_rate_nonneg e i r He0 Hi0 Hr0) as Hrate.
    destruct (Math_min_Fin c (n + e / i * r)) as (m' & Hm' & _ & _ & Hcase).
    change (Fin n + Fin (e / i) * Fin r) with (Fin (n + e / i * r)).
    rewrite Hm'. intros [= ->].
    destruct Hcase as [-> | ->]; [exact Hac|]. qc_solve. }
  assert (Htw : Spec.token_wait (self w) (Fin m) (Fin a) = zero).
  { unfold Spec.token_wait.
    now rewrite (proj2 (ge_Fin m a) Ham). }
  rewrite Htw, Math_max_zero_zero.
  split; [reflexivity|].
  change (zero === zero) with true. cbn iota.
  eexists. rewrite buckets_with_buckets, Map_get_set_same.
  split; [reflexivity|].
  cbn [tokens last_refill last_consume].
  repeat split.
  rewrite sub_Fin. apply le_Fin. qc_solve.
Qed.

(** The first [consume("key1", 2)] on a new limiter of capacity 2. *)
Lemma first_consume_is_granted_witness :
  valid_config (self example_world) = true /\
  (clock example_world 0 <= clock example_world 1)%Z /\
  Map_get "key1" (buckets (self example_world)) = None /\
  consume_rejects (self example_world) (of_Z 2) = false /\
  (of_Z 2 <= initial (self example_world)) = true /\
  wait_of (consume "key1" (of_Z 2) example_world) = zero.
Proof.
  assert (H1 : valid_config (self example_world) = true)
    by (vm_compute; reflexivity).
  assert (H2 : (clock example_world 0 <= clock example_world 1)%Z)
    by (vm_compute; discriminate).
  assert (H3 : Map_get "key1" (buckets (self example_world)) = None)
    by reflexivity.
  assert (H4 : consume_rejects (self example_world) (of_Z 2) = false)
    by (vm_compute; reflexivity).
  assert (H5 : (of_Z 2 <= initial (self example_world)) = true)
    by (vm_compute; reflexivity).
  split; [exact H1|]. split; [exact H2|]. split; [exact H3|].
  split; [exact H4|]. split; [exact H5|].
  exact (proj1 (@first_consume_is_granted "key1" (of_Z 2) example_world
                  H1 H2 H3 H4 H5)).
Defined.

Lemma token_wait_Fin t (m a : Qc) :
  valid_config t = true ->
  exists x, Spec.token_wait t (Fin m) (Fin a) = Fin x /\ (0 <= x)%Qc.
Proof.
  intros Hv.
  destruct (valid_config_inv _ Hv)
    as (c & i & r & n & d & _ & Hi & Hr & _ & _ & _ & Hi0 & Hr0 & _).
  unfold Spec.token_wait. rewrite Hi, Hr.
  destruct (Fin m >= Fin a) eqn:E.
  - exists 0%Qc. split; [reflexivity|]. qc_solve.
  - apply ge_Fin_false in E.
    rewrite sub_Fin, div_Fin by auto. eexists. split; [reflexivity|].
    assert (H : (0 <= a - m)%Qc) by qc_solve.
    pose proof (@Qc_rate_nonneg (a - m) r i H Hr0 Hi0). assumption.
Qed.

(** X2: the cooldown separates granted consumes. After a [consume] of [key]
    granted at time [now], a [consume] of any valid amount at a time [now']
    less than [cooldown] ms later is blocked: it returns a positive
    [wait_time] of at least [cooldown - (now' - now)], and it only refills
    the bucket, whose [last_consume] stays [now]. *)
Theorem cooldown_blocks_next_consume key amount amount' now now' w :
  valid_config (self w) = true ->
  frozen now w ->
  (now <= now')%Z ->
  well_formed (entry_bucket (self w) (of_Z now) key) = true ->
  consume_rejects (self w) amount' = false ->
  wait_of (consume key amount w) = zero ->
  (of_Z (now' - now) < cooldown (self w)) = true ->
  let later := at_time now' (snd (consume key amount w)) in
  (wait_of (consume key amount' later)
   >= cooldown (self w) - of_Z (now' - now)) = true /\
  (wait_of (consume key amount' later) > zero) = true /\
  exists b,
    Map_get key (buckets (self later)) = Some b /\
    last_consume b = of_Z now /\
    Map_get key (buckets (self (snd (consume key amount' later))))
    = Some (Spec.apply_refill (self w) (of_Z now') b).
Proof.
  intros Hv Hf Hle Hwf Hrej' Hw Hcd later.
  destruct (valid_config_inv _ Hv)
    as (c & i & r & n & d & Hc & Hi & Hr & Hn & Hd
        & Hc0 & Hi0 & Hr0 & Hn0 & Hd0).
  destruct (consume_rejects (self w) amount) eqn:Hrej.
  { destruct (@consume_throws key amount w Hrej) as [msg E].
    rewrite E in Hw. discriminate. }
  destruct (@consume_accepts_inv (self w) amount c Hc Hrej)
    as (a & -> & Ha0 & Hac).
  destruct (@consume_accepts_inv (self w) amount' c Hc Hrej')
    as (a' & -> & Ha0' & Hac').
  set (b0 := entry_bucket (self w) (of_Z now) key) in *.
  set (b1 := Spec.apply_refill (self w) (of_Z now) b0).
  set (b2 := {| tokens := tokens b1 - Fin a;
                last_refill := last_refill b1;
                last_consume := of_Z now |}).
  assert (Hlater : self later
                   = self (with_buckets (Map_set key b2 (buckets (self w))) w)).
  { subst later. rewrite self_at_time.
    revert Hw. rewrite (@consume_run key (Fin a) w Hrej).
    unfold wait_of. cbn [fst snd wait_time]. rewrite !Hf.
    fold b0. fold b1. intros ->.
    change (zero === zero) with true. cbn iota.
    rewrite self_with_buckets_advance. reflexivity. }
  assert (Hcfg : same_config (self later) (self w)).
  { rewrite Hlater. apply same_config_update with (n := 0%nat). }
  pose proof Hcfg as (Hc' & Hi' & Hr' & Hn' & Hd').
  assert (Hget : Map_get key (buckets (self later)) = Some b2).
  { rewrite Hlater, buckets_with_buckets. apply Map_get_set_same. }
  assert (Hrl : consume_rejects (self later) (Fin a') = false).
  { unfold consume_rejects in *. now rewrite Hc'. }
  unfold well_formed in Hwf. rewrite !andb_true_iff in Hwf.
  destruct Hwf as [[Ht0 Hl0] _].
  assert (Ht1 : is_finite (tokens b1) = true)
    by now apply apply_refill_tokens_finite.
  destruct (is_finite_inv _ Ht1) as [m1 Hm1].
  assert (Ht2 : is_finite (tokens b2) = true).
  { subst b2. cbn [tokens]. rewrite Hm1, sub_Fin. reflexivity. }
  assert (Hl2 : is_finite (last_refill b2) = true) by reflexivity.
  pose proof (@apply_refill_tokens_finite (self w) now' b2 Hv Ht2 Hl2) as Ht3.
  destruct (is_finite_inv _ Ht3) as [m3 Hm3].
  destruct (@token_wait_Fin (self w) m3 a' Hv) as (x & Hx & Hx0).
  rewrite Hd in Hcd. unfold of_Z in Hcd. apply lt_Fin in Hcd.
  set (e := Q2Qc (inject_Z (now' - now))) in *.
  assert (He0 : (0 <= e)%Qc) by (apply of_Z_nonneg; lia).
  assert (Hcw : Spec.cooldown_wait (self w) (of_Z now') (of_Z now)
                = Fin (d - e)).
  { unfold Spec.cooldown_wait. rewrite Hd, of_Z_sub.
    unfold of_Z. fold e.
    assert (E0 : (Fin d === zero) = false).
    { unfold strict_eq, cmp, zero. qc_cmp; qc_solve. }
    rewrite E0, (proj2 (ge_Fin_false e d) Hcd), sub_Fin. reflexivity. }
  assert (Hcwt : forall x lc, Spec.cooldown_wait (self later) x lc
                              = Spec.cooldown_wait (self w) x lc)
    by (intros; unfold Spec.cooldown_wait; now rewrite Hd').
  assert (Htw : forall y z, Spec.token_wait (self later) y z
                            = Spec.token_wait (self w) y z)
    by (intros; unfold Spec.token_wait; now rewrite Hi', Hr').
  pose proof (@consume_run key (Fin a') later Hrl) as Hrun.
  cbn zeta in Hrun. unfold entry_bucket, creation_reads in Hrun.
  rewrite Hget in Hrun.
  change (clock later 0) with now' in Hrun.
  change (clock later 1) with now' in Hrun.
  rewrite (apply_refill_config _ _ Hcfg), Hcwt, Htw in Hrun.
  cbn [Spec.apply_refill last_consume b2] in Hrun.
  fold (Spec.apply_refill (self w) (of_Z now') b2) in Hrun.
  rewrite Hm3, Hx, Hcw in Hrun.
  destruct (Math_max_Fin (d - e) x) as (mx & Hmx & Hmx1 & Hmx2 & _).
  assert (Hnz : (Math_max (Fin (d - e)) (Fin x) === zero) = false).
  { rewrite Hmx. unfold strict_eq, cmp, zero. qc_cmp; qc_solve. }
  rewrite Hnz in Hrun. rewrite Hrun. unfold wait_of. cbn [fst snd wait_time].
  rewrite Hmx, Hd. unfold of_Z. fold e. rewrite sub_Fin.
  split; [now apply ge_Fin|].
  split.
  { unfold gt, cmp, zero. qc_cmp; qc_solve. }
  exists b2. split; [exact Hget|]. split; [reflexivity|].
  rewrite buckets_with_buckets. apply Map_get_set_same.
Qed.

(** With 200 ms of cooldown: a [consume] at 0 ms and another at 150 ms. *)
Lemma cooldown_blocks_next_consume_witness :
  valid_config (self cooldown_world) = true /\
  frozen 0 cooldown_world /\
  (0 <= 150)%Z /\
  well_formed (entry_bucket (self cooldown_world) (of_Z 0) "key1") = true /\
  consume_rejects (self cooldown_world) one = false /\
  wait_of (consume "key1" one cooldown_world) = zero /\
  (of_Z (150 - 0) < cooldown (self cooldown_world)) = true /\
  (wait_of (consume "key1" one
              (at_time 150 (snd (consume "key1" one cooldown_world))))
   > zero) = true.
Proof.
  assert (H1 : valid_config (self cooldown_world) = true)
    by (vm_compute; reflexivity).
  assert (H2 : frozen 0 cooldown_world) by (intros i; reflexivity).
  assert (H3 : (0 <= 150)%Z) by lia.
  assert (H4 : well_formed (entry_bucket (self cooldown_world) (of_Z 0)
                              "key1") = true)
    by (vm_compute; reflexivity).
  assert (H5 : consume_rejects (self cooldown_world) one = false)
    by (vm_compute; reflexivity).
  assert (H6 : wait_of (consume "key1" one cooldown_world) = zero)
    by reflexivity.
  assert (H7 : (of_Z (150 - 0) < cooldown (self cooldown_world)) = true)
    by (vm_compute; reflexivity).
  split; [exact H1|]. split; [exact H2|]. split; [exact H3|].
  split; [exact H4|]. split; [exact H5|]. split; [exact H6|].
  split; [exact H7|].
  exact (proj1 (proj2 (@cooldown_blocks_next_consume "key1" one one 0 150
                         cooldown_world H1 H2 H3 H4 H5 H6 H7))).
Defined.

(* ================================================================== *)
(** ** [prune], twice *)
(* ================================================================== *)

Lemma refill_all_filter_idem t now entries :
  valid_config t = true ->
  let kept := filter (prune_keeps t (of_Z now))
                (refill_all t (of_Z now) entries) in
  refill_all t (of_Z now) kept = kept /\
  filter (prune_keeps t (of_Z now)) kept = kept /\
  filter (fun kb => negb (prune_keeps t (of_Z now) kb)) kept = [].
Proof.
  intros Hv. cbn zeta.
  induction entries as [|[k b] rest IH]; [repeat split|].
  cbn [refill_all map fst snd filter]. fold (refill_all t (of_Z now) rest).
  destruct (prune_keeps t (of_Z now) (k, Spec.apply_refill t (of_Z now) b))
    eqn:E; [|exact IH].
  destruct IH as (IH1 & IH2 & IH3).
  cbn [refill_all map fst snd filter].
  fold (refill_all t (of_Z now)
          (filter (prune_keeps t (of_Z now)) (refill_all t (of_Z now) rest))).
  rewrite apply_refill_idem by exact Hv. rewrite IH1.
  split; [reflexivity|]. rewrite E. cbn [negb]. rewrite IH2, IH3.
  split; reflexivity.
Qed.

Lemma prune_frozen_count now w :
  frozen now w ->
  (initial (self w) < capacity (self w)) = false ->
  exists k,
    prune w
    = (Returned
         (List.length
            (filter (fun kb => negb (prune_keeps (self w) (of_Z now) kb))
               (refill_all (self w) (of_Z now) (buckets (self w))))),
       with_buckets
         (filter (prune_keeps (self w) (of_Z now))
            (refill_all (self w) (of_Z now) (buckets (self w))))
         (advance k w)).
Proof.
  intros Hf Hlt.
  destruct (@prune_loop_frozen (self w) now (buckets (self w)) 0%nat w
              eq_refl Hf) as [k Hk].
  exists k. unfold prune. unfold bind at 1. unfold get_this at 1.
  rewrite Hlt. unfold bind at 1. rewrite Hk. reflexivity.
Qed.

(** X15: with no time passing, a second [prune()] right after a first
    returns 0 and leaves the limiter as the first left it. *)
Theorem prune_twice_removes_nothing now w :
  frozen now w -> valid_config (self w) = true ->
  exists n w1 w2,
    prune w = (Returned n, w1) /\
    prune w1 = (Returned 0%nat, w2) /\
    self w2 = self w1.
Proof.
  intros Hf Hv.
  destruct (initial (self w) < capacity (self w)) eqn:E.
  { do 3 eexists. unfold prune at 1, bind, get_this. rewrite E.
    unfold console_warn, ret. split; [reflexivity|].
    unfold prune, bind, get_this. cbn [self]. rewrite E.
    split; reflexivity. }
  destruct (@prune_frozen_count now w Hf E) as (k & Hp).
  rewrite Hp.
  set (kept := filter (prune_keeps (self w) (of_Z now))
                 (refill_all (self w) (of_Z now) (buckets (self w)))) in *.
  set (w1 := with_buckets kept (advance k w)).
  assert (Hf1 : frozen now w1)
    by now apply frozen_with_buckets, frozen_advance.
  assert (Hs1 : self w1 = self (with_buckets kept w))
    by apply self_with_buckets_advance.
  assert (E1 : (initial (self w1) < capacity (self w1)) = false)
    by (rewrite Hs1; exact E).
  destruct (@prune_frozen_count now w1 Hf1 E1) as (k' & Hp').
  destruct (@refill_all_filter_idem (self w) now (buckets (self w)) Hv)
    as (H1 & H2 & H3).
  assert (Hb1 : buckets (self w1) = kept) by reflexivity.
  assert (Hcfg : forall x, refill_all (self w1) (of_Z now) x
                           = refill_all (self w) (of_Z now) x).
  { intros x. unfold refill_all. apply map_ext. intros [k0 b0].
    cbn [fst snd]. f_equal. apply apply_refill_config.
    rewrite Hs1. apply same_config_update with (n := 0%nat). }
  assert (Hkeep : forall kb, prune_keeps (self w1) (of_Z now) kb
                             = prune_keeps (self w) (of_Z now) kb).
  { intros kb. unfold prune_keeps, Spec.cooldown_wait. rewrite Hs1.
    reflexivity. }
  rewrite Hb1, Hcfg in Hp'.
  rewrite (filter_ext _ _ Hkeep) in Hp'.
  rewrite (filter_ext (fun kb => negb (prune_keeps (self w1) (of_Z now) kb))
             (fun kb => negb (prune_keeps (self w) (of_Z now) kb))) in Hp'
    by (intros kb; now rewrite Hkeep).
  unfold kept in Hp'. rewrite H1, H2, H3 in Hp'.
  cbn [List.length] in Hp'.
  fold kept in Hp'.
  eexists. exists w1, (with_buckets kept (advance k' w1)).
  split; [reflexivity|]. split; [exact Hp'|].
  rewrite self_with_buckets_advance. reflexivity.
Qed.

(** The limiter that tracks ["key1"] and ["key2"], pruned twice at 100 ms. *)
Lemma prune_twice_removes_nothing_witness :
  frozen 100 two_keys_world /\
  valid_config (self two_keys_world) = true /\
  exists w1 w2,
    prune two_keys_world = (Returned 1%nat, w1) /\
    prune w1 = (Returned 0%nat, w2).
Proof.
  assert (H1 : frozen 100 two_keys_world) by (intros i; reflexivity).
  assert (H2 : valid_config (self two_keys_world) = true)
    by (vm_compute; reflexivity).
  split; [exact H1|]. split; [exact H2|].
  destruct (@prune_twice_removes_nothing 100 two_keys_world H1 H2)
    as (n & w1 & w2 & Hp & Hp' & _).
  exists w1, w2. split; [|exact Hp'].
  rewrite Hp. f_equal. f_equal.
  assert (Hn : fst (prune two_keys_world) = Returned 1%nat)
    by (vm_compute; reflexivity).
  rewrite Hp in Hn. cbn [fst] in Hn. now injection Hn.
Defined.

(* ================================================================== *)
(** ** Rounding: what the operations on doubles return *)
(* ================================================================== *)

Module DoubleArith.

Import Double.
#[local] Open Scope double_scope.
#[local] Open Scope Z_scope.

(** The number of binary digits of a mantissa. *)
Lemma digits_bounds64 (p : Pos.t) :
  2 ^ (Zpos (digits2_pos p) - 1) <= Zpos p < 2 ^ Zpos (digits2_pos p).
Proof.
  induction p as [p IH|p IH|]; cbn [digits2_pos].
  - rewrite Pos2Z.inj_succ, (Pos2Z.inj_xI p).
    replace (Z.succ (Zpos (digits2_pos p)) - 1)
      with (Z.succ (Zpos (digits2_pos p) - 1)) by lia.
    rewrite !Z.pow_succ_r by lia. lia.
  - rewrite Pos2Z.inj_succ, (Pos2Z.inj_xO p).
    replace (Z.succ (Zpos (digits2_pos p)) - 1)
      with (Z.succ (Zpos (digits2_pos p) - 1)) by lia.
    rewrite !Z.pow_succ_r by lia. lia.
  - cbn. lia.
Qed.

Lemma Zdigits2_nonneg m : 0 <= Zdigits2 m.
Proof. destruct m; cbn; lia. Qed.

Lemma Zdigits2_bound m : 0 <= m -> m < 2 ^ Zdigits2 m.
Proof.
  destruct m as [|p|p]; cbn [Zdigits2]; intros H; try lia.
  apply digits_bounds64.
Qed.

(** A mantissa below [2^k] has at most [k] digits. *)
Lemma Zdigits2_le m k : 0 <= k -> 0 <= m -> m < 2 ^ k -> Zdigits2 m <= k.
Proof.
  intros Hk Hm Hlt. destruct m as [|p|p]; cbn [Zdigits2]; try lia.
  destruct (Z_le_gt_dec (Zpos (digits2_pos p)) k) as [H|H]; [exact H|].
  exfalso. pose proof (digits_bounds64 p) as [Hlo _].
  assert (2 ^ k <= 2 ^ (Zpos (digits2_pos p) - 1))
    by (apply Z.pow_le_mono_r; lia).
  lia.
Qed.

Lemma shr_1_div2 mrs : 0 <= shr_m mrs -> shr_m (shr_1 mrs) = shr_m mrs / 2.
Proof.
  destruct mrs as [m r s]. cbn [shr_m]. intros H.
  rewrite <- Z.div2_div.
  destruct m as [|[p|p|]|p]; cbn; try reflexivity; lia.
Qed.

Lemma iter_shr_1_div p : forall mrs,
  0 <= shr_m mrs ->
  shr_m (iter_pos shr_1 p mrs) = shr_m mrs / 2 ^ Zpos p.
Proof.
  induction p as [p IH|p IH|]; intros mrs H; cbn [iter_pos].
  - assert (H1 : 0 <= shr_m (shr_1 mrs))
      by (rewrite shr_1_div2 by exact H; apply Z.div_pos; lia).
    assert (H2 : 0 <= shr_m (iter_pos shr_1 p (shr_1 mrs)))
      by (rewrite IH by exact H1; apply Z.div_pos; [exact H1|];
          apply Z.pow_pos_nonneg; lia).
    rewrite IH by exact H2. rewrite IH by exact H1.
    rewrite shr_1_div2 by exact H.
    rewrite !Z.div_div by (try apply Z.pow_pos_nonneg; lia).
    f_equal. rewrite (Pos2Z.inj_xI p).
    rewrite Z.pow_add_r, Z.pow_mul_r by lia.
    change (2 ^ 2) with 4. rewrite Z.pow_1_r.
    replace 4 with (2 * 2) by reflexivity.
    rewrite Z.pow_mul_l. lia.
  - assert (H1 : 0 <= shr_m (iter_pos shr_1 p mrs))
      by (rewrite IH by exact H; apply Z.div_pos; [exact H|];
          apply Z.pow_pos_nonneg; lia).
    rewrite IH by exact H1. rewrite IH by exact H.
    rewrite !Z.div_div by (try apply Z.pow_pos_nonneg; lia).
    f_equal. rewrite (Pos2Z.inj_xO p).
    rewrite Z.pow_mul_r by lia.
    change (2 ^ 2) with 4. replace 4 with (2 * 2) by reflexivity.
    rewrite Z.pow_mul_l. lia.
  - rewrite shr_1_div2 by exact H. reflexivity.
Qed.

Lemma shr_record_of_loc_m m l : shr_m (shr_record_of_loc m l) = m.
Proof. destruct l as [|[]]; reflexivity. Qed.

(** The right shift that brings a mantissa to its format exponent. *)
Lemma shr_fexp_spec m e l mrs e' :
  0 <= m ->
  shr_fexp prec emax m e l = (mrs, e') ->
  let n := fexp prec emax (Zdigits2 m + e) - e in
  (0 < n /\ shr_m mrs = m / 2 ^ n /\ e' = e + n) \/
  (n <= 0 /\ shr_m mrs = m /\ e' = e).
Proof.
  intros Hm. unfold shr_fexp, shr. cbn zeta.
  destruct (fexp prec emax (Zdigits2 m + e) - e) as [|p|p] eqn:En;
    intros [= <- <-].
  - right. rewrite shr_record_of_loc_m. lia.
  - left. rewrite iter_shr_1_div by (rewrite shr_record_of_loc_m; exact Hm).
    rewrite shr_record_of_loc_m. lia.
  - right. rewrite shr_record_of_loc_m. lia.
Qed.

Lemma shr_fexp_bounds m e l mrs e' :
  0 <= m ->
  shr_fexp prec emax m e l = (mrs, e') ->
  0 <= shr_m mrs < 2 ^ prec /\ emin prec emax <= e'.
Proof.
  intros Hm E.
  pose proof (Zdigits2_bound Hm) as Hd.
  pose proof (Zdigits2_nonneg m) as Hd0.
  destruct (shr_fexp_spec _ _ Hm E) as [(Hn & -> & ->)|(Hn & -> & ->)];
    unfold fexp, emin, prec, emax in *.
  - set (n := Z.max (Zdigits2 m + e - 53) (3 - 1024 - 53) - e) in *.
    assert (Hpow : 0 < 2 ^ n) by (apply Z.pow_pos_nonneg; lia).
    split; [split|lia].
    + apply Z.div_pos; lia.
    + apply Z.div_lt_upper_bound; [exact Hpow|].
      rewrite <- Z.pow_add_r by lia.
      eapply Z.lt_le_trans; [exact Hd|].
      apply Z.pow_le_mono_r; lia.
  - split; [split; [exact Hm|]|lia].
    eapply Z.lt_le_trans; [exact Hd|].
    apply Z.pow_le_mono_r; lia.
Qed.

(** With an exponent within the format, nothing is shifted out entirely. *)
Lemma shr_fexp_pos m e l mrs e' :
  0 < m -> emin prec emax <= e ->
  shr_fexp prec emax m e l = (mrs, e') ->
  0 < shr_m mrs.
Proof.
  intros Hm He E.
  assert (Hm0 : 0 <= m) by lia.
  destruct (shr_fexp_spec _ _ Hm0 E) as [(Hn & -> & ->)|(Hn & -> & ->)];
    [|exact Hm].
  destruct m as [|p|p]; try lia.
  pose proof (digits_bounds64 p) as [Hlo _].
  unfold fexp, emin, prec, emax in *. cbn [Zdigits2] in *.
  set (d := Zpos (digits2_pos p)) in *.
  assert (Hd : 0 < d) by (unfold d; lia).
  replace (Z.max (d + e - 53) (3 - 1024 - 53) - e) with (d - 53) in * by lia.
  assert (Hpow : 0 < 2 ^ (d - 53)) by (apply Z.pow_pos_nonneg; lia).
  apply Z.lt_le_trans with 1; [lia|].
  apply Z.div_le_lower_bound; [exact Hpow|].
  rewrite Z.mul_1_r. eapply Z.le_trans; [|exact Hlo].
  apply Z.pow_le_mono_r; lia.
Qed.

Lemma round_nearest_even_bounds m l :
  m <= round_nearest_even m l <= m + 1.
Proof.
  unfold round_nearest_even. destruct l as [|[]]; try lia.
  destruct (Z.even m); lia.
Qed.

(** Rounding never gives [NaN], keeps the sign, and returns a zero, an
    infinity or a double within the format. *)
Lemma round_aux_spec sx mx ex lx :
  0 <= mx ->
  let r := binary_round_aux prec emax sx mx ex lx in
  has_sign sx r /\ fits r.
Proof.
  intros Hm. cbn zeta. unfold binary_round_aux.
  destruct (shr_fexp prec emax mx ex lx) as [mrs1 e1] eqn:E1.
  destruct (shr_fexp_bounds _ _ Hm E1) as [[H1 _] _].
  pose proof (round_nearest_even_bounds (shr_m mrs1)
                (loc_of_shr_record mrs1)) as [Hr _].
  destruct (shr_fexp prec emax
              (round_nearest_even (shr_m mrs1) (loc_of_shr_record mrs1))
              e1 loc_Exact) as [mrs2 e2] eqn:E2.
  assert (Hm2 : 0 <= round_nearest_even (shr_m mrs1)
                       (loc_of_shr_record mrs1)) by lia.
  destruct (shr_fexp_bounds _ _ Hm2 E2) as [[H2 H2'] He2].
  destruct (shr_m mrs2) as [|p|p]; try lia.
  - split; reflexivity.
  - destruct (e2 <=? emax - prec); split; cbn; auto.
Qed.

(** ... and with a positive mantissa and an exponent within the format,
    it does not return a zero. *)
Lemma round_aux_nonzero sx mx ex lx :
  0 < mx -> emin prec emax <= ex ->
  forall s, binary_round_aux prec emax sx mx ex lx <> S754_zero s.
Proof.
  intros Hm He s. unfold binary_round_aux.
  destruct (shr_fexp prec emax mx ex lx) as [mrs1 e1] eqn:E1.
  assert (Hm0 : 0 <= mx) by lia.
  destruct (shr_fexp_bounds _ _ Hm0 E1) as [_ He1].
  pose proof (shr_fexp_pos _ Hm He E1) as H1.
  pose proof (round_nearest_even_bounds (shr_m mrs1)
                (loc_of_shr_record mrs1)) as [Hr _].
  destruct (shr_fexp prec emax
              (round_nearest_even (shr_m mrs1) (loc_of_shr_record mrs1))
              e1 loc_Exact) as [mrs2 e2] eqn:E2.
  assert (Hm2 : 0 < round_nearest_even (shr_m mrs1)
                      (loc_of_shr_record mrs1)) by lia.
  pose proof (shr_fexp_pos _ Hm2 He1 E2) as H2.
  destruct (shr_m mrs2) as [|p|p]; try lia.
  destruct (e2 <=? emax - prec); discriminate.
Qed.

Lemma has_sign_not_NaN s a : has_sign s a -> Number_isNaN a = false.
Proof. destruct a; cbn; intros H; try reflexivity. destruct H. Qed.

Lemma iter_xO_pow m d : Zpos (Pos.iter xO m d) = Zpos m * 2 ^ Zpos d.
Proof.
  induction d as [|d IH] using Pos.peano_ind.
  - cbn [Pos.iter]. rewrite (Pos2Z.inj_xO m). change (2 ^ 1) with 2. lia.
  - rewrite Pos.iter_succ, (Pos2Z.inj_xO (Pos.iter xO m d)), IH.
    rewrite Pos2Z.inj_succ, Z.pow_succ_r by lia. lia.
Qed.

(** Aligning a mantissa to a smaller exponent multiplies it by the power
    of two between them. *)
Lemma shl_align_spec m e e' :
  e' <= e ->
  shl_align m e e' = (Z.to_pos (Zpos m * 2 ^ (e - e')), e').
Proof.
  intros H. unfold shl_align.
  destruct (e' - e) as [|p|p] eqn:E; try lia.
  - assert (e' = e) by lia. subst e'. rewrite Z.sub_diag, Z.mul_1_r.
    reflexivity.
  - replace (e - e') with (Zpos p) by lia.
    rewrite <- iter_xO_pow. reflexivity.
Qed.

Lemma shl_align_keep m e e' : e < e' -> shl_align m e e' = (m, e).
Proof.
  intros H. unfold shl_align.
  destruct (e' - e) as [|p|p] eqn:E; try lia; reflexivity.
Qed.

Lemma round_spec sx mx ex :
  let r := binary_round prec emax sx mx ex in
  has_sign sx r /\ fits r /\
  (emin prec emax <= ex -> forall s, r <> S754_zero s).
Proof.
  cbn zeta. unfold binary_round.
  set (f := fexp prec emax (Zpos (digits2_pos mx) + ex)).
  assert (Hf : emin prec emax <= f) by (unfold f, fexp; lia).
  destruct (Z_le_gt_dec f ex) as [Hle|Hgt].
  - rewrite shl_align_spec by exact Hle.
    assert (Hpos : 0 < Zpos mx * 2 ^ (ex - f))
      by (apply Z.mul_pos_pos; [lia|apply Z.pow_pos_nonneg; lia]).
    rewrite Z2Pos.id by exact Hpos.
    destruct (@round_aux_spec sx (Zpos mx * 2 ^ (ex - f)) f loc_Exact)
      as [H1 H2]; [lia|].
    split; [exact H1|]. split; [exact H2|].
    intros _. now apply round_aux_nonzero.
  - rewrite shl_align_keep by lia.
    destruct (@round_aux_spec sx (Zpos mx) ex loc_Exact) as [H1 H2]; [lia|].
    split; [exact H1|]. split; [exact H2|].
    intros He. apply round_aux_nonzero; [lia|exact He].
Qed.

(** The double nearest to [m * 2^e]: never [NaN], within the format, of
    the sign of [m], and not a zero unless [m] is (for [e] within the
    format). *)
Lemma normalize_spec m e sz :
  let r := binary_normalize prec emax m e sz in
  Number_isNaN r = false /\ fits r /\
  (0 < m -> emin prec emax <= e ->
   has_sign false r /\ forall s, r <> S754_zero s) /\
  (m < 0 -> emin prec emax <= e ->
   has_sign true r /\ forall s, r <> S754_zero s).
Proof.
  cbn zeta. unfold binary_normalize. destruct m as [|p|p].
  - repeat split; try lia; reflexivity.
  - destruct (round_spec false p e) as (H1 & H2 & H3).
    split; [exact (has_sign_not_NaN _ _ H1)|]. split; [exact H2|].
    split; [auto|lia].
  - destruct (round_spec true p e) as (H1 & H2 & H3).
    split; [exact (has_sign_not_NaN _ _ H1)|]. split; [exact H2|].
    split; [lia|auto].
Qed.

Lemma of_Z_spec z : Number_isNaN (of_Z z) = false /\ fits (of_Z z).
Proof.
  destruct (normalize_spec z 0 false) as (H1 & H2 & _). now split.
Qed.

(* ------------------------------------------------------------------ *)
(** *** The four operations *)

Lemma sub_fits a b : fits a -> fits b -> fits (a - b)%double.
Proof.
  unfold sub, SFsub.
  destruct a as [sa|sa| |sa ma ea], b as [sb|sb| |sb mb eb];
    try destruct sa; try destruct sb; cbn [fits]; auto.
  all: intros _ _; apply normalize_spec.
Qed.

Lemma add_fits a b : fits a -> fits b -> fits (a + b)%double.
Proof.
  unfold add, SFadd.
  destruct a as [sa|sa| |sa ma ea], b as [sb|sb| |sb mb eb];
    try destruct sa; try destruct sb; cbn [fits]; auto.
  all: intros _ _; apply normalize_spec.
Qed.

Lemma sub_not_NaN a b :
  is_finite a = true -> Number_isNaN b = false ->
  Number_isNaN (a - b)%double = false.
Proof.
  unfold sub, SFsub.
  destruct a as [sa|sa| |sa ma ea], b as [sb|sb| |sb mb eb];
    try destruct sa; try destruct sb; try discriminate; try reflexivity.
  all: intros _ _; apply normalize_spec.
Qed.

Lemma add_not_NaN a b :
  is_finite a = true -> Number_isNaN b = false ->
  Number_isNaN (a + b)%double = false.
Proof.
  unfold add, SFadd.
  destruct a as [sa|sa| |sa ma ea], b as [sb|sb| |sb mb eb];
    try destruct sa; try destruct sb; try discriminate; try reflexivity.
  all: intros _ _; apply normalize_spec.
Qed.

(** The sign of a product or quotient by a finite double other than
    zero: never [NaN], and the signs multiply. *)
Lemma mul_sign s a sb mb eb :
  has_sign s a -> has_sign (xorb s sb) (a * S754_finite sb mb eb)%double.
Proof.
  unfold mul, SFmul. destruct a as [sa|sa| |sa ma ea]; cbn [has_sign].
  - intros ->. reflexivity.
  - intros ->. reflexivity.
  - intros [].
  - intros ->. apply round_aux_spec. lia.
Qed.

Lemma div_core_nonneg m1 e1 m2 e2 :
  0 <= fst (fst (SFdiv_core_binary prec emax (Zpos m1) e1 (Zpos m2) e2)).
Proof.
  unfold SFdiv_core_binary.
  set (s := _ - _ - _).
  set (m' := match s with Z0 => Zpos m1 | Zpos _ => Z.shiftl (Zpos m1) s
                      | Zneg _ => 0 end).
  assert (Hm' : 0 <= m').
  { unfold m'. destruct s; try lia. apply Z.shiftl_nonneg. lia. }
  pose proof (Z.div_pos m' (Zpos m2) Hm' ltac:(lia)) as Hq.
  unfold Z.div in Hq.
  destruct (Z.div_eucl m' (Zpos m2)) as [q r]. exact Hq.
Qed.

Lemma div_sign s a sb mb eb :
  has_sign s a -> has_sign (xorb s sb) (a / S754_finite sb mb eb)%double.
Proof.
  unfold div, SFdiv. destruct a as [sa|sa| |sa ma ea]; cbn [has_sign].
  1, 2: intros ->; reflexivity.
  1: intros [].
  intros ->. pose proof (div_core_nonneg ma ea mb eb) as Hq.
  destruct (SFdiv_core_binary prec emax (Zpos ma) ea (Zpos mb) eb)
    as [[mz ez] lz].
  apply round_aux_spec. exact Hq.
Qed.

Lemma mul_fits a b : fits a -> fits b -> fits (a * b)%double.
Proof.
  unfold mul, SFmul.
  destruct a as [sa|sa| |sa ma ea], b as [sb|sb| |sb mb eb];
    cbn [fits]; auto.
  intros _ _. apply round_aux_spec. lia.
Qed.

Lemma div_fits a b : fits a -> fits b -> fits (a / b)%double.
Proof.
  unfold div, SFdiv.
  destruct a as [sa|sa| |sa ma ea], b as [sb|sb| |sb mb eb];
    cbn [fits]; auto.
  intros _ _. pose proof (div_core_nonneg ma ea mb eb) as Hq.
  destruct (SFdiv_core_binary prec emax (Zpos ma) ea (Zpos mb) eb)
    as [[mz ez] lz].
  apply round_aux_spec. exact Hq.
Qed.

(* ------------------------------------------------------------------ *)
(** *** Differences *)

(** A normalised double of the format has 53 bits unless its exponent is
    the smallest. *)
Lemma is_double_finite s m e :
  is_double (S754_finite s m e) = true ->
  Zpos m < 2 ^ prec /\ emin prec emax <= e /\
  (emin prec emax < e -> 2 ^ (prec - 1) <= Zpos m).
Proof.
  unfold is_double, valid_binary, bounded, canonical_mantissa.
  rewrite andb_true_iff, Z.eqb_eq, Z.leb_le. intros [Hc _].
  pose proof (digits_bounds64 m) as [Hlo Hhi].
  unfold fexp, emin, prec, emax in *.
  set (d := Zpos (digits2_pos m)) in *.
  assert (Hd : d <= 53) by lia.
  split; [|split; [lia|]].
  - eapply Z.lt_le_trans; [exact Hhi|]. apply Z.pow_le_mono_r; lia.
  - intros He. assert (d = 53) by lia.
    eapply Z.le_trans; [|exact Hlo]. apply Z.pow_le_mono_r; lia.
Qed.

Lemma is_double_fits a : is_double a = true -> fits a.
Proof.
  destruct a as [| | |s m e]; cbn [fits]; auto.
  intros H. destruct (is_double_finite _ _ _ H) as (H1 & H2 & _). auto.
Qed.

Lemma positive_lt_zero a : has_sign false a ->
  (forall s, a <> S754_zero s) -> (zero < a)%double = true.
Proof.
  destruct a as [sa|sa| |sa ma ea]; cbn [has_sign]; intros Hs Hz;
    try subst sa; try reflexivity.
  - now destruct (Hz false).
  - destruct Hs.
Qed.

(** The difference of two doubles in order is positive: it does not
    round to zero.  [y] is a positive double, [x] any smaller number
    within the format. *)
Lemma sub_pos x my ey :
  let y := S754_finite false my ey in
  is_double y = true -> fits x ->
  cmp x y = Some Lt ->
  (zero < y - x)%double = true.
Proof.
  cbn zeta. intros Hy Hx Hlt.
  destruct (is_double_finite _ _ _ Hy) as (Hmy & Hey & Hnorm).
  destruct x as [sx|sx| |sx mx ex]; try discriminate.
  - reflexivity.
  - destruct sx; [reflexivity|discriminate].
  - cbn [fits] in Hx. destruct Hx as [Hmx Hex].
    apply positive_lt_zero.
    all: unfold sub, SFsub.
    all: rewrite !shl_align_spec by lia.
    all: set (ez := Z.min ey ex).
    all: assert (Hez : emin prec emax <= ez) by (unfold ez; lia).
    all: assert (HMy : 0 < Zpos my * 2 ^ (ey - ez))
        by (apply Z.mul_pos_pos; [lia|apply Z.pow_pos_nonneg; unfold ez; lia]).
    all: assert (HMx : 0 < Zpos mx * 2 ^ (ex - ez))
        by (apply Z.mul_pos_pos; [lia|apply Z.pow_pos_nonneg; unfold ez; lia]).
    all: cbn [fst]; rewrite !Z2Pos.id by assumption.
    all: assert (Hdiff : 0 < cond_Zopp false (Zpos my * 2 ^ (ey - ez))
                         - cond_Zopp sx (Zpos mx * 2 ^ (ex - ez))).
    1, 3: destruct sx; cbn [cond_Zopp]; [lia|];
      cbn [cmp SFcompare] in Hlt;
      destruct (Z.compare_spec ex ey) as [Heq|Hl|Hg]; try discriminate;
      [ replace (ey - ez) with 0 by (unfold ez; lia);
        replace (ex - ez) with 0 by (unfold ez; lia);
        rewrite Z.pow_0_r, !Z.mul_1_r;
        injection Hlt as Hlt;
        assert (Hlt' : (mx < my)%positive) by exact Hlt; lia
      | replace (ex - ez) with 0 by (unfold ez; lia);
        replace (ey - ez) with (ey - ex) by (unfold ez; lia);
        rewrite Z.pow_0_r, Z.mul_1_r;
        assert (H52 : 2 ^ (prec - 1) <= Zpos my) by (apply Hnorm; lia);
        assert (H2 : 2 ^ 1 <= 2 ^ (ey - ex))
          by (apply Z.pow_le_mono_r; lia);
        change (2 ^ 1) with 2 in H2;
        change (2 ^ prec) with (2 ^ (prec - 1) * 2) in Hmx;
        nia ].
    all: destruct (normalize_spec
                (cond_Zopp false (Zpos my * 2 ^ (ey - ez))
                 - cond_Zopp sx (Zpos mx * 2 ^ (ex - ez))) ez false)
        as (_ & _ & Hp & _);
      destruct (Hp Hdiff Hez) as [Hs Hnz]; assumption.
Qed.

End DoubleArith.

(* ================================================================== *)
(** ** The program on doubles: what one run of each method does *)
(* ================================================================== *)

Module DoubleFacts.

Import Double DoubleArith.
#[local] Open Scope double_scope.

Ltac run_cbn64 :=
  cbn -[add sub mul div Math_max Math_min strict_eq ge le lt gt of_Z].

Ltac run_methods64 :=
  unfold check, consume, prune, reset, reset_all, size, get_bucket,
    refill_bucket, write_bucket, calc_cooldown_wait_time,
    calc_token_wait_time, Date_now, console_warn, set_buckets, get_this,
    throw, ret, bind, with_buckets, entry_bucket, creation_reads,
    cooldown_reads, Spec.cooldown_wait, Spec.token_wait, Spec.apply_refill,
    Spec.fresh_bucket, set_buckets.

Ltac run_cases64 :=
  repeat (run_cbn64;
          match goal with
          | H : ?c = _ |- context [if ?c then _ else _] => rewrite H
          | H : ?c = _ |- context [match ?c with _ => _ end] => rewrite H
          | |- context [match Map_get ?k ?m with _ => _ end] =>
              destruct (Map_get k m) eqn:?
          | |- context [if ?c then _ else _] => destruct c eqn:?
          end).

Lemma Map_get_set_same64 key v m : Map_get key (Map_set key v m) = Some v.
Proof.
  induction m as [|[k b] rest IH]; simpl.
  - now rewrite String.eqb_refl.
  - destruct (String.eqb key k) eqn:E; simpl; rewrite E; auto.
Qed.

Lemma Map_set_set64 key v v' m :
  Map_set key v (Map_set key v' m) = Map_set key v m.
Proof.
  induction m as [|[k b] rest IH]; simpl.
  - now rewrite String.eqb_refl.
  - destruct (String.eqb key k) eqn:E; simpl; rewrite E; auto.
    now rewrite IH.
Qed.

Lemma Map_set_get_id64 key b m :
  Map_get key m = Some b -> Map_set key b m = m.
Proof.
  induction m as [|[k b'] rest IH]; simpl; try discriminate.
  destruct (String.eqb key k) eqn:E.
  - intros H. injection H as ->. reflexivity.
  - intros H. now rewrite IH.
Qed.

Lemma clock_advance64 n w i : clock (advance n w) i = clock w (n + i)%nat.
Proof.
  revert i. induction n as [|n IH]; intros i; simpl; auto.
  rewrite IH. f_equal. lia.
Qed.

Lemma self_advance64 n w : self (advance n w) = self w.
Proof. induction n; simpl; auto. Qed.

Lemma advance_advance64 a b w :
  advance a (advance b w) = advance (a + b) w.
Proof. induction a as [|a IH]; simpl; [reflexivity|]. now rewrite IH. Qed.

Lemma with_buckets_self64 w : with_buckets (buckets (self w)) w = w.
Proof. destruct w as [c o [? ? ? ? ? ?]]. reflexivity. Qed.

Lemma refill_bucket_run64 b w :
  refill_bucket b w
  = (Returned (Spec.apply_refill (self w) (of_Z (clock w 0)) b), tick w).
Proof. reflexivity. Qed.

Lemma calc_token_wait_time_run64 tokens amount w :
  calc_token_wait_time tokens amount w
  = (Returned (Spec.token_wait (self w) tokens amount), w).
Proof.
  unfold calc_token_wait_time, Spec.token_wait, bind, get_this, ret.
  now destruct (tokens >= amount).
Qed.

Lemma calc_cooldown_wait_time_run64 b w :
  calc_cooldown_wait_time b w
  = (Returned (Spec.cooldown_wait (self w) (of_Z (clock w 0)) (last_consume b)),
     advance (cooldown_reads (self w)) w).
Proof.
  unfold calc_cooldown_wait_time, Spec.cooldown_wait, cooldown_reads, bind,
    get_this, ret, Date_now.
  destruct (cooldown (self w) === zero); [reflexivity|].
  cbn [fst snd clock self advance tick].
  now destruct (_ >= _).
Qed.

Lemma get_bucket_run64 key w :
  let t := self w in
  let b0 := entry_bucket t (of_Z (clock w 0)) key in
  get_bucket key w
  = (Returned b0,
     with_buckets (Map_set key b0 (buckets t))
       (advance (creation_reads t key) w)).
Proof.
  unfold get_bucket, entry_bucket, creation_reads, bind, get_this, ret.
  cbn zeta. destruct (Map_get key (buckets (self w))) eqn:E.
  - rewrite Map_set_get_id64 by exact E. cbn [advance].
    now rewrite with_buckets_self64.
  - reflexivity.
Qed.

Lemma write_bucket_run64 key b w :
  write_bucket key b w
  = (Returned tt, with_buckets (Map_set key b (buckets (self w))) w).
Proof. reflexivity. Qed.

Lemma check_run64 key amount w :
  check_rejects (self w) amount = false ->
  let t := self w in
  let cr := creation_reads t key in
  let b0 := entry_bucket t (of_Z (clock w 0)) key in
  let b1 := Spec.apply_refill t (of_Z (clock w cr)) b0 in
  let cw := Spec.cooldown_wait t (of_Z (clock w (S cr))) (last_consume b1) in
  let tw := Spec.token_wait t (tokens b1) amount in
  check key amount w
  = (Returned {| wait_time := Math_max cw tw |},
     with_buckets (Map_set key b1 (buckets t))
       (advance (S cr + cooldown_reads t) w)).
Proof.
  unfold check_rejects. rewrite !orb_false_iff. intros [[H1 H2] H3].
  destruct w as [clk con [cap int rf ini cd bs]].
  cbn [self capacity] in H3.
  run_methods64. run_cbn64. rewrite H1, H2. run_cbn64. rewrite H3.
  run_cases64; run_cbn64; rewrite ?Map_set_set64; reflexivity.
Qed.

Lemma consume_run64 key amount w :
  consume_rejects (self w) amount = false ->
  let t := self w in
  let cr := creation_reads t key in
  let b0 := entry_bucket t (of_Z (clock w 0)) key in
  let b1 := Spec.apply_refill t (of_Z (clock w cr)) b0 in
  let cw := Spec.cooldown_wait t (of_Z (clock w (S cr))) (last_consume b1) in
  let tw := Spec.token_wait t (tokens b1) amount in
  let wt := Math_max cw tw in
  let n := (S cr + cooldown_reads t)%nat in
  consume key amount w
  = (Returned {| wait_time := wt |},
     if wt === zero then
       with_buckets
         (Map_set key
            {| tokens := tokens b1 - amount;
               last_refill := last_refill b1;
               last_consume := of_Z (clock w n) |}
            (buckets t))
         (advance (S n) w)
     else with_buckets (Map_set key b1 (buckets t)) (advance n w)).
Proof.
  unfold consume_rejects. rewrite !orb_false_iff. intros [[H1 H2] H3].
  destruct w as [clk con [cap int rf ini cd bs]].
  cbn [self capacity] in H3.
  run_methods64. run_cbn64. rewrite H1, H2. run_cbn64. rewrite H3.
  run_cases64; run_cbn64; rewrite ?Map_set_set64; reflexivity.
Qed.

(* ------------------------------------------------------------------ *)
(** *** Comparisons of doubles *)

Lemma compare_cont_antisym64 p q :
  Pos.compare_cont Eq q p = CompOpp (Pos.compare_cont Eq p q).
Proof. now rewrite (Pos.compare_cont_antisym p q Eq). Qed.

Lemma cmp_antisym64 a b : cmp b a = option_map CompOpp (cmp a b).
Proof.
  unfold cmp.
  destruct a as [sa|sa| |sa ma ea], b as [sb|sb| |sb mb eb];
    try destruct sa; try destruct sb; cbn; try reflexivity;
    rewrite (Z.compare_antisym ea eb), (compare_cont_antisym64 ma mb);
    destruct (ea ?= eb)%Z; cbn; rewrite ?CompOpp_involutive; reflexivity.
Qed.

(** Doubles that compare equal are the same double, or two zeros. *)
Lemma cmp_Eq64 a b :
  cmp a b = Some Eq ->
  a = b \/ (exists sa sb, a = S754_zero sa /\ b = S754_zero sb).
Proof.
  unfold cmp.
  destruct a as [sa|sa| |sa ma ea], b as [sb|sb| |sb mb eb];
    try destruct sa; try destruct sb; cbn; try discriminate;
    try (intros _; left; reflexivity);
    try (intros _; right; do 2 eexists; split; reflexivity).
  - destruct (ea ?= eb)%Z eqn:E; try discriminate.
    apply Z.compare_eq in E. subst eb.
    destruct (Pos.compare_cont Eq ma mb) eqn:E'; try discriminate.
    apply Pos.compare_eq in E'. subst mb. now left.
  - destruct (ea ?= eb)%Z eqn:E; try discriminate.
    apply Z.compare_eq in E. subst eb.
    destruct (Pos.compare_cont Eq ma mb) eqn:E'; try discriminate.
    apply Pos.compare_eq in E'. subst mb. now left.
Qed.

Lemma Math_max_comm64 a b : Math_max a b = Math_max b a.
Proof.
  unfold Math_max. rewrite (cmp_antisym64 a b).
  destruct (cmp a b) as [[]|] eqn:E; cbn; try reflexivity.
  destruct (cmp_Eq64 _ _ E) as [->|(sa & sb & -> & ->)]; [reflexivity|].
  now destruct sa, sb.
Qed.

Lemma cmp_refl64 a : Number_isNaN a = false -> cmp a a = Some Eq.
Proof.
  unfold cmp. destruct a as [[]|[]| |[] m e]; cbn; try discriminate;
    intros _; try reflexivity;
    rewrite Z.compare_refl, Pos.compare_cont_refl; reflexivity.
Qed.

Lemma cmp_not_NaN64 a b c :
  cmp a b = Some c -> Number_isNaN a = false /\ Number_isNaN b = false.
Proof. unfold cmp. destruct a, b; cbn; try discriminate; auto. Qed.

Lemma lt_irrefl64 a : (a < a) = false.
Proof.
  unfold lt, SFltb. fold (cmp a a).
  destruct (Number_isNaN a) eqn:E.
  - destruct a; try discriminate. reflexivity.
  - now rewrite cmp_refl64.
Qed.

(** [Math.min(a, x)] is never above [a]; when it is a number, it is below
    [a] or equal to it. *)
Lemma Math_min_not_above64 a x : (Math_min a x > a) = false.
Proof.
  unfold gt, SFltb. fold (cmp a (Math_min a x)). unfold Math_min.
  destruct (cmp a x) as [[]|] eqn:E.
  - destruct (cmp_not_NaN64 _ _ E) as [Ha _].
    assert (Haa : cmp a a = Some Eq) by now apply cmp_refl64.
    destruct a as [[]| | |]; try (now rewrite Haa); now rewrite E.
  - destruct (cmp_not_NaN64 _ _ E) as [Ha _]. now rewrite cmp_refl64.
  - now rewrite E.
  - unfold cmp. now destruct a.
Qed.

Lemma Math_min_lt_eq64 a x :
  Number_isNaN (Math_min a x) = false ->
  (Math_min a x < a) = negb (Math_min a x === a).
Proof.
  unfold lt, strict_eq, SFltb, SFeqb. fold (cmp (Math_min a x) a).
  unfold Math_min. destruct (cmp a x) as [[]|] eqn:E; try discriminate;
    intros _; destruct (cmp_not_NaN64 _ _ E) as [Ha Hx].
  - assert (Haa : cmp a a = Some Eq) by now apply cmp_refl64.
    assert (Hxa : cmp x a = Some Eq)
      by (rewrite (cmp_antisym64 a x), E; reflexivity).
    destruct a as [[]| | |]; try (now rewrite Haa); now rewrite Hxa.
  - now rewrite cmp_refl64.
  - rewrite (cmp_antisym64 a x), E. reflexivity.
Qed.

(* ================================================================== *)
(** ** Wait times on doubles *)
(* ================================================================== *)

(** C1, as the code has it: the [wait_time] that [check(key, amount)]
    returns for an accepted [amount] is [max(token_wait, cooldown_wait)] as
    the specification words it, on the bucket as refilled (which is the
    bucket stored under [key] afterwards) and with [now] the reading of
    the clock that follows the refill; [consume] computes the same value
    before it decides.  Every operation of the formulas is a double
    operation, rounded to nearest: the value is not the exact one. *)
Theorem rounded_wait_time_formula key amount w :
  check_rejects (self w) amount = false ->
  let t := self w in
  let cr := creation_reads t key in
  exists b w',
    b = Spec.apply_refill t (of_Z (clock w cr))
          (entry_bucket t (of_Z (clock w 0)) key) /\
    check key amount w
    = (Returned
         {| wait_time :=
              Spec.combined_wait t (of_Z (clock w (S cr))) b amount |},
       w') /\
    Map_get key (buckets (self w')) = Some b /\
    (consume_rejects t amount = false ->
     fst (consume key amount w)
     = Returned
         {| wait_time :=
              Spec.combined_wait t (of_Z (clock w (S cr))) b amount |}).
Proof.
  intros Hok. cbn zeta. do 2 eexists. split; [reflexivity|].
  rewrite check_run64 by exact Hok.
  unfold Spec.combined_wait. rewrite Math_max_comm64.
  split; [reflexivity|]. split.
  - cbn [with_buckets set_buckets snd self buckets].
    apply Map_get_set_same64.
  - intros Hok'. rewrite consume_run64 by exact Hok'.
    cbn [fst]. now rewrite Math_max_comm64.
Qed.

(** One token asked of the emptied bucket of ["key1"]: the wait is
    [(1 - 0) / 4 * 1 = 0.25] ms. *)
Lemma rounded_wait_time_formula_witness :
  check_rejects (self emptied_world) one = false /\
  (wait_of (check "key1" one emptied_world)
   === S754_finite false 4503599627370496 (-54)) = true /\
  exists b w',
    check "key1" one emptied_world
    = (Returned
         {| wait_time :=
              Spec.combined_wait (self emptied_world) (of_Z 0) b one |},
       w').
Proof.
  assert (H : check_rejects (self emptied_world) one = false)
    by (vm_compute; reflexivity).
  split; [exact H|]. split; [vm_compute; reflexivity|].
  destruct (@rounded_wait_time_formula "key1" one emptied_world H)
    as (b & w' & _ & Hc & _).
  exists b, w'. exact Hc.
Defined.

(** C1 as stated fails: the formulas are not evaluated in exact
    arithmetic.  On [new TokenBucket({capacity: 1, interval: 1, refill: 3,
    initial: 0})], [check("key1", 1)] finds [tokens = 0 < amount]; the
    exact [(amount - tokens) / refill * interval] is one third, and
    [check] returns the double [0.33333333333333331], which is not one
    third. *)
Lemma wait_time_not_exact :
  valid_config (self third_world) = true /\
  check_rejects (self third_world) one = false /\
  option_map tokens
    (Map_get "key1" (buckets (self (snd (check "key1" one third_world)))))
  = Some zero /\
  (zero < one) = true /\
  fst (check "key1" one third_world)
  = Returned {| wait_time := one_third |} /\
  ~ (to_Q one_third
     == (to_Q one - to_Q zero) / to_Q (refill (self third_world))
        * to_Q (interval (self third_world)))%Q.
Proof.
  repeat split; try (vm_compute; reflexivity).
  intros H. vm_compute in H. discriminate H.
Qed.

(** The wait of a shortage too small for the quotient is 0: on [new
    TokenBucket({capacity: 1, interval: 1, refill: 4})] with the bucket
    of ["key1"] emptied, [check("key1", 5e-324)] finds [tokens = 0 <
    amount], and [5e-324 / 4] rounds to 0. *)
Example test_wait_underflows :
  valid_config (self emptied_world) = true /\
  is_double min_value = true /\
  check_rejects (self emptied_world) min_value = false /\
  (tokens emptied_bucket < min_value) = true /\
  (0 < (to_Q min_value - to_Q (tokens emptied_bucket))
       / to_Q (refill (self emptied_world))
       * to_Q (interval (self emptied_world)))%Q /\
  fst (check "key1" min_value emptied_world)
  = Returned {| wait_time := zero |}.
Proof. vm_compute. repeat split. Qed.

(* ================================================================== *)
(** ** Negative tokens *)
(* ================================================================== *)

(** C10 fails on the code.  On [new TokenBucket({capacity: 1, interval: 1,
    refill: 4})], after [consume("key1", 1)] has emptied the bucket,
    [consume("key1", 5e-324)] finds [tokens = 0 < amount]; the token wait
    [(amount - tokens) / refill * interval] rounds to 0, so [wait_time ===
    0], the consume is granted and [tokens] becomes [-5e-324]. *)
Theorem underflow_grants_consume :
  valid_config (self emptied_world) = true /\
  is_double min_value = true /\
  consume_rejects (self emptied_world) min_value = false /\
  Map_get "key1" (buckets (self emptied_world))
  = Some {| tokens := zero; last_refill := zero; last_consume := zero |} /\
  (tokens emptied_bucket >= zero) = true /\
  (tokens emptied_bucket >= min_value) = false /\
  fst (consume "key1" min_value emptied_world)
  = Returned {| wait_time := zero |} /\
  Map_get "key1" (buckets (self overdrawn_world)) = Some overdrawn_bucket /\
  (tokens overdrawn_bucket < zero) = true.
Proof. vm_compute. repeat split. Qed.

(** [refill_bucket] sets [tokens] to [min(capacity, tokens + elapsed /
    interval * refill)], each operation rounded, and [last_refill] to the
    reading of the clock; the result is never above [capacity]. *)
Lemma refill_clamps64 b w :
  let t := self w in
  exists b',
    refill_bucket b w = (Returned b', tick w) /\
    tokens b'
    = Math_min (capacity t)
        (tokens b
         + (of_Z (clock w 0) - last_refill b) / interval t * refill t) /\
    last_refill b' = of_Z (clock w 0) /\
    last_consume b' = last_consume b /\
    (tokens b' > capacity t) = false.
Proof.
  cbn zeta. eexists. rewrite refill_bucket_run64.
  split; [reflexivity|]. cbn [Spec.apply_refill tokens last_refill
                                last_consume].
  repeat split. apply Math_min_not_above64.
Qed.

(** C3 fails on the code, by the same defect: the overdrawn bucket is
    reached by two calls of [consume] on valid settings with a clock that
    does not go back, and the refill of the next access, in the same
    millisecond, leaves its tokens at [-5e-324 < 0]. *)
Theorem refill_leaves_tokens_negative :
  valid_config (self overdrawn_world) = true /\
  Map_get "key1" (buckets (self overdrawn_world)) = Some overdrawn_bucket /\
  refill_bucket overdrawn_bucket overdrawn_world
  = (Returned overdrawn_bucket, tick overdrawn_world) /\
  (zero <= tokens overdrawn_bucket) = false /\
  (tokens overdrawn_bucket <= capacity (self overdrawn_world)) = true /\
  Map_get "key1" (buckets (self (snd (check "key1" zero overdrawn_world))))
  = Some overdrawn_bucket.
Proof. vm_compute. repeat split. Qed.

(* ================================================================== *)
(** ** [prune] on doubles *)
(* ================================================================== *)

Lemma prune_scan_ext64 t clk clk' entries : forall i,
  (forall j, clk j = clk' j) ->
  prune_scan t clk i entries = prune_scan t clk' i entries.
Proof.
  induction entries as [|[key b] rest IH]; intros i H; [reflexivity|].
  cbn [prune_scan]. rewrite !H. now rewrite (IH _ H).
Qed.

Lemma prune_scan_shift64 t clk n entries : forall i,
  prune_scan t (fun j => clk (n + j)%nat) i entries
  = prune_scan t clk (n + i) entries.
Proof.
  induction entries as [|[key b] rest IH]; intros i; [reflexivity|].
  cbn [prune_scan]. rewrite IH.
  replace (n + S i)%nat with (S (n + i)) by lia.
  replace (n + (S i + cooldown_reads t))%nat
    with (S (n + i) + cooldown_reads t)%nat by lia.
  reflexivity.
Qed.

(** The loop of [prune], for every clock: the entries kept are the
    scanned entries that pass the test of the loop, in their order, and
    the others are counted. *)
Lemma prune_loop_scan64 entries : forall removed w,
  let scanned := prune_scan (self w) (clock w) 0 entries in
  prune_loop (capacity (self w)) entries removed w
  = (Returned
       (map fst (filter (prune_keeps (self w)) scanned),
        (removed
         + List.length
             (filter (fun e => negb (prune_keeps (self w) e)) scanned))%nat),
     advance (List.length entries * (1 + cooldown_reads (self w))) w).
Proof.
  induction entries as [|[key b] rest IH]; intros removed w; cbn zeta.
  - cbn [prune_scan filter map List.length Nat.mul advance prune_loop].
    unfold ret. now rewrite Nat.add_0_r.
  - cbn [prune_loop]. unfold bind at 1. rewrite refill_bucket_run64.
    unfold bind at 1. rewrite calc_cooldown_wait_time_run64.
    set (w1 := advance (cooldown_reads (self (tick w))) (tick w)).
    assert (Hw1 : w1 = advance (cooldown_reads (self w) + 1) w).
    { unfold w1. now rewrite <- advance_advance64. }
    assert (Hself : self w1 = self w)
      by (rewrite Hw1; apply self_advance64).
    assert (Hscan : prune_scan (self w1) (clock w1) 0 rest
                    = prune_scan (self w) (clock w)
                        (1 + cooldown_reads (self w)) rest).
    { rewrite Hself, Hw1.
      rewrite (@prune_scan_ext64 (self w)
                 (clock (advance (cooldown_reads (self w) + 1) w))
                 (fun j => clock w (cooldown_reads (self w) + 1 + j)%nat))
        by (intros j; apply clock_advance64).
      rewrite prune_scan_shift64. f_equal. lia. }
    assert (Hadv : forall n,
              advance n w1
              = advance (n + (1 + cooldown_reads (self w))) w).
    { intros n. rewrite Hw1, advance_advance64. f_equal. lia. }
    change (clock (tick w) 0) with (clock w 1).
    change (self (tick w)) with (self w).
    set (b' := Spec.apply_refill (self w) (of_Z (clock w 0)) b).
    set (cw := Spec.cooldown_wait (self w) (of_Z (clock w 1))
                 (last_consume b')).
    change (prune_scan (self w) (clock w) 0 ((key, b) :: rest))
      with ((key, b', cw)
            :: prune_scan (self w) (clock w) (1 + cooldown_reads (self w))
                 rest).
    change ((tokens b' < capacity (self w)) || (cw > zero))
      with (prune_keeps (self w) (key, b', cw)).
    cbn [filter].
    destruct (prune_keeps (self w) (key, b', cw)).
    + pose proof (IH removed w1) as IH1. cbn zeta in IH1.
      rewrite Hscan, Hself, Hadv in IH1.
      unfold bind at 1. rewrite IH1. unfold ret. cbn [fst snd map negb].
      f_equal. f_equal. cbn [List.length]. lia.
    + pose proof (IH (S removed) w1) as IH1. cbn zeta in IH1.
      rewrite Hscan, Hself, Hadv in IH1.
      rewrite IH1. cbn [negb List.length].
      f_equal; [f_equal; f_equal; lia|f_equal; lia].
Qed.

(* ================================================================== *)
(** ** Numbers of the refill and of the waits *)
(* ================================================================== *)

(** Numbers of the documented domain. *)
Lemma is_positive_shape a :
  is_positive a = true ->
  is_double a = true /\ exists m e, a = S754_finite false m e.
Proof.
  unfold is_positive. rewrite !andb_true_iff. intros [[Hd Hf] Hp].
  split; [exact Hd|].
  destruct a as [s|s| |[] m e]; try discriminate. now exists m, e.
Qed.

Lemma not_NaN_has_sign a :
  Number_isNaN a = false -> exists s, has_sign s a.
Proof. destruct a as [s|s| |s m e]; try discriminate; now exists s. Qed.

Lemma is_finite_not_NaN a : is_finite a = true -> Number_isNaN a = false.
Proof. now destruct a. Qed.

Lemma Math_min_not_NaN a b :
  Number_isNaN a = false -> Number_isNaN b = false ->
  Number_isNaN (Math_min a b) = false.
Proof.
  intros Ha Hb. unfold Math_min.
  destruct (cmp a b) as [[]|] eqn:E; auto.
  - destruct a as [[]| | |]; auto.
  - unfold cmp in E. destruct a, b; discriminate.
Qed.

Lemma ge_not_lt64 a b : (a >= b) = true -> (a < b) = false.
Proof.
  unfold ge, lt, SFleb, SFltb. fold (cmp b a). fold (cmp a b).
  rewrite (cmp_antisym64 b a). now destruct (cmp b a) as [[]|].
Qed.

Lemma lt_not_eq64 a b : (a < b) = true -> (b === a) = false.
Proof.
  unfold strict_eq, lt, SFeqb, SFltb. fold (cmp b a). fold (cmp a b).
  rewrite (cmp_antisym64 a b). now destruct (cmp a b) as [[]|].
Qed.

Lemma not_ge_lt64 a b :
  Number_isNaN a = false -> Number_isNaN b = false ->
  (a >= b) = false -> cmp a b = Some Lt.
Proof.
  intros Ha Hb. unfold ge, SFleb. fold (cmp b a).
  rewrite (cmp_antisym64 a b).
  destruct (cmp a b) as [[]|] eqn:E; cbn; try discriminate; auto.
  unfold cmp in E. destruct a, b; discriminate.
Qed.

(** The tokens of a refilled bucket are a number: with finite tokens and
    a finite last refill, no step of the refill gives [NaN]. *)
Lemma refilled_tokens_number t now b :
  valid_config t = true ->
  is_finite (tokens b) = true -> is_finite (last_refill b) = true ->
  is_finite now = true ->
  Number_isNaN (tokens (Spec.apply_refill t now b)) = false.
Proof.
  unfold valid_config. rewrite !andb_true_iff.
  intros [[[[Hcap Hint] Hre] _] _] Htf Hlf Hnow.
  destruct (is_positive_shape _ Hint) as [_ (mi & ei & Hi)].
  destruct (is_positive_shape _ Hre) as [_ (mr & er & Hr)].
  destruct (is_positive_shape _ Hcap) as [_ (mc & ec & Hc)].
  cbn [Spec.apply_refill tokens].
  apply Math_min_not_NaN; [now rewrite Hc|].
  apply add_not_NaN; [exact Htf|].
  assert (He : Number_isNaN (now - last_refill b) = false)
    by (apply sub_not_NaN; [exact Hnow|now apply is_finite_not_NaN]).
  destruct (not_NaN_has_sign _ He) as [s Hs].
  rewrite Hi, Hr.
  eapply has_sign_not_NaN. apply mul_sign. apply div_sign. exact Hs.
Qed.

Lemma refilled_tokens_not_NaN t now b :
  valid_config t = true -> well_formed b = true ->
  is_finite now = true ->
  Number_isNaN (tokens (Spec.apply_refill t now b)) = false.
Proof.
  unfold well_formed. rewrite !andb_true_iff.
  intros Hv [[[[[_ Htf] _] Hlf] _] _] Hnow.
  now apply refilled_tokens_number.
Qed.

Lemma Math_min_fits a b : fits a -> fits b -> fits (Math_min a b).
Proof.
  intros Ha Hb. unfold Math_min.
  destruct (cmp a b) as [[]|]; auto; [|exact I].
  destruct a as [[]| | |]; auto.
Qed.

Lemma refilled_tokens_fits t now b :
  valid_config t = true ->
  fits (tokens b) -> fits (last_refill b) -> fits now ->
  fits (tokens (Spec.apply_refill t now b)).
Proof.
  unfold valid_config, is_positive. rewrite !andb_true_iff.
  intros [[[[[[Hcap _] _] [[Hint _] _]] [[Hre _] _]] _] _] Htf Hlf Hnow.
  cbn [Spec.apply_refill tokens].
  apply Math_min_fits; [now apply is_double_fits|].
  apply add_fits; [exact Htf|].
  apply mul_fits; [|now apply is_double_fits].
  apply div_fits; [|now apply is_double_fits].
  now apply sub_fits.
Qed.

(** The cooldown wait is [0] or positive, never [NaN]: the difference
    [cooldown - elapsed] does not round to zero. *)
Lemma cooldown_wait_cases t z lc :
  valid_config t = true ->
  is_finite (of_Z z) = true ->
  is_double lc = true -> (is_finite lc || (lc === NegInf)) = true ->
  Spec.cooldown_wait t (of_Z z) lc = zero \/
  (zero < Spec.cooldown_wait t (of_Z z) lc) = true.
Proof.
  unfold valid_config. rewrite !andb_true_iff.
  intros [_ Hcd] Hnow Hld Hlf. unfold Spec.cooldown_wait.
  destruct (cooldown t === zero) eqn:Hz; [now left|].
  destruct (of_Z z - lc >= cooldown t) eqn:Hge; [now left|].
  right.
  unfold is_nonnegative in Hcd. rewrite !andb_true_iff in Hcd.
  destruct Hcd as [[Hcdd Hcdf] Hcdp].
  assert (Hlc : Number_isNaN lc = false)
    by (destruct lc; try discriminate; reflexivity).
  assert (He : Number_isNaN (of_Z z - lc) = false)
    by (apply sub_not_NaN; assumption).
  assert (Hfit : fits (of_Z z - lc))
    by (apply sub_fits; [apply of_Z_spec|now apply is_double_fits]).
  destruct (cooldown t) as [s|s| |[] m e] eqn:Hc; try discriminate.
  assert (Hlt : cmp (of_Z z - lc) (S754_finite false m e) = Some Lt)
    by (apply not_ge_lt64; auto).
  exact (@sub_pos _ m e Hcdd Hfit Hlt).
Qed.

Lemma cooldown_wait_sign t z lc :
  valid_config t = true ->
  is_finite (of_Z z) = true ->
  is_double lc = true -> (is_finite lc || (lc === NegInf)) = true ->
  (Spec.cooldown_wait t (of_Z z) lc > zero)
  = negb (Spec.cooldown_wait t (of_Z z) lc === zero).
Proof.
  intros Hv Hnow Hld Hlf.
  destruct (cooldown_wait_cases t z lc Hv Hnow Hld Hlf) as [->|Hpos];
    [reflexivity|].
  unfold gt. fold (lt zero (Spec.cooldown_wait t (of_Z z) lc)).
  rewrite Hpos. now rewrite (lt_not_eq64 _ _ Hpos).
Qed.

(** The test of the loop of [prune] keeps a bucket unless its tokens
    equal [capacity] and its cooldown wait is [0]. *)
Lemma prune_keeps_recovered64 t clk entries : forall i,
  valid_config t = true ->
  Forall (fun kb => well_formed (snd kb) = true) entries ->
  (forall j, is_finite (of_Z (clk j)) = true) ->
  Forall (fun e => prune_keeps t e = negb (recovered t e))
    (prune_scan t clk i entries).
Proof.
  induction entries as [|[key b] rest IH]; intros i Hv Hwf Hclk;
    cbn [prune_scan]; constructor.
  - inversion Hwf as [|? ? Hb Hrest]; subst. cbn [snd] in Hb.
    unfold prune_keeps, recovered. cbn [fst snd].
    rewrite negb_andb. f_equal.
    + cbn [Spec.apply_refill tokens]. apply Math_min_lt_eq64.
      exact (@refilled_tokens_not_NaN t (of_Z (clk i)) b Hv Hb (Hclk i)).
    + cbn [Spec.apply_refill last_consume].
      unfold well_formed in Hb. rewrite !andb_true_iff in Hb.
      destruct Hb as [[_ Hd] Hf].
      now apply cooldown_wait_sign.
  - inversion Hwf; subst. now apply IH.
Qed.

Lemma filter_ext_Forall A (f g : A -> bool) l :
  Forall (fun x => f x = g x) l -> filter f l = filter g l.
Proof.
  induction 1 as [|x l Hx _ IH]; [reflexivity|].
  cbn [filter]. now rewrite Hx, IH.
Qed.

(* ================================================================== *)
(** ** What [prune] removes *)
(* ================================================================== *)

(** C5: [prune()] never throws.  When [initial < capacity] it returns 0
    and leaves the limiter as it is (it only prints a warning), whatever
    the state.  When [initial >= capacity], on a limiter with a valid
    configuration whose buckets hold finite numbers, it refills every
    bucket, each at the reading of the clock made for it, and removes
    exactly the buckets whose refilled tokens equal [capacity] and whose
    cooldown wait is 0; the buckets that stay are the refilled ones, in
    their order, and the result is the number removed.  The numbers are
    doubles and every operation is rounded as the code rounds it. *)
Theorem prune_removes_recovered w :
  (exists n w', prune w = (Returned n, w'))
  /\
  ((initial (self w) < capacity (self w)) = true ->
   exists w', prune w = (Returned 0%nat, w') /\ self w' = self w)
  /\
  ((initial (self w) >= capacity (self w)) = true ->
   valid_config (self w) = true ->
   Forall (fun kb => well_formed (snd kb) = true) (buckets (self w)) ->
   (forall i, is_finite (of_Z (clock w i)) = true) ->
   let scanned := prune_scan (self w) (clock w) 0 (buckets (self w)) in
   exists w',
     prune w
     = (Returned (List.length (filter (recovered (self w)) scanned)), w') /\
     buckets (self w')
     = map fst (filter (fun e => negb (recovered (self w) e)) scanned)).
Proof.
  split; [|split].
  - unfold prune. unfold bind at 1. unfold get_this at 1.
    destruct (initial (self w) < capacity (self w)).
    + do 2 eexists. reflexivity.
    + unfold bind at 1. rewrite prune_loop_scan64.
      do 2 eexists. reflexivity.
  - intros Hlt. unfold prune. unfold bind at 1. unfold get_this at 1.
    rewrite Hlt. eexists. split; reflexivity.
  - intros Hge Hv Hwf Hclk. cbn zeta.
    unfold prune. unfold bind at 1. unfold get_this at 1.
    rewrite (ge_not_lt64 _ _ Hge).
    unfold bind at 1. rewrite prune_loop_scan64. cbn [fst snd Nat.add].
    pose proof (@prune_keeps_recovered64 (self w) (clock w)
                  (buckets (self w)) 0%nat Hv Hwf Hclk) as Hk.
    assert (Hkeep : filter (prune_keeps (self w))
                      (prune_scan (self w) (clock w) 0 (buckets (self w)))
                    = filter (fun e => negb (recovered (self w) e))
                        (prune_scan (self w) (clock w) 0
                           (buckets (self w))))
      by (apply filter_ext_Forall; exact Hk).
    assert (Hdrop : filter (fun e => negb (prune_keeps (self w) e))
                      (prune_scan (self w) (clock w) 0 (buckets (self w)))
                    = filter (recovered (self w))
                        (prune_scan (self w) (clock w) 0
                           (buckets (self w)))).
    { apply filter_ext_Forall.
      eapply Forall_impl; [|exact Hk]. cbn beta.
      intros e He. rewrite He. apply negb_involutive. }
    rewrite Hkeep, Hdrop.
    eexists. split; reflexivity.
Qed.

(** After both keys were emptied at time 0 and the first was looked at
    at time 1, [prune()] at time 7 removes the second key, which is full
    again, and keeps the first: its tokens, refilled in two steps, are
    the double just below 3. *)
Lemma prune_removes_recovered_witness :
  (initial (self recovering_world) >= capacity (self recovering_world))
  = true /\
  valid_config (self recovering_world) = true /\
  Forall (fun kb => well_formed (snd kb) = true)
    (buckets (self recovering_world)) /\
  (forall i, is_finite (of_Z (clock recovering_world i)) = true) /\
  exists w',
    prune recovering_world = (Returned 1%nat, w') /\
    Map_get "key2" (buckets (self recovering_world)) <> None /\
    Map_get "key2" (buckets (self w')) = None /\
    option_map tokens (Map_get "key1" (buckets (self w')))
    = Some (S754_finite false 6755399441055743 (-51)).
Proof.
  assert (H1 : (initial (self recovering_world)
                >= capacity (self recovering_world)) = true)
    by (vm_compute; reflexivity).
  assert (H2 : valid_config (self recovering_world) = true)
    by (vm_compute; reflexivity).
  assert (H3 : Forall (fun kb => well_formed (snd kb) = true)
                 (buckets (self recovering_world)))
    by (repeat constructor).
  assert (H4 : forall i,
             is_finite (of_Z (clock recovering_world i)) = true).
  { intros i. change (clock recovering_world i)
      with (recovering_clock (10 + i)).
    unfold recovering_clock.
    destruct (10 + i <? 8)%nat; [reflexivity|].
    destruct (10 + i <? 10)%nat; reflexivity. }
  split; [exact H1|]. split; [exact H2|]. split; [exact H3|].
  split; [exact H4|].
  destruct (proj2 (proj2 (prune_removes_recovered recovering_world))
              H1 H2 H3 H4) as (w' & Hrun & Hbs).
  exists w'. split; [exact Hrun|].
  rewrite Hbs. repeat split; vm_compute; congruence.
Defined.

(* ================================================================== *)
(** ** The wait is a delay *)
(* ================================================================== *)

Lemma has_sign_ge_zero a : has_sign false a -> (a >= zero) = true.
Proof. destruct a as [s|s| |s m e]; cbn [has_sign]; try intros ->; try intros []; reflexivity. Qed.

Lemma lt_zero_ge a : (zero < a) = true -> (a >= zero) = true.
Proof.
  unfold lt, ge, SFltb, SFleb. now destruct (SFcompare zero a) as [[]|].
Qed.

Lemma Math_max_ge_zero a b :
  (a >= zero) = true -> (b >= zero) = true -> (Math_max a b >= zero) = true.
Proof.
  intros Ha Hb. unfold Math_max.
  destruct (cmp a b) as [[]|] eqn:E; auto.
  - destruct a as [[]| | |]; auto.
  - unfold cmp in E. destruct a, b; try discriminate.
Qed.

(** The token wait is [0] or the rounded quotient of a positive
    shortage: a number that is not negative. *)
Lemma token_wait_ge_zero t tokens amount :
  valid_config t = true ->
  is_double amount = true -> Number_isNaN amount = false ->
  (amount < zero) = false ->
  Number_isNaN tokens = false -> fits tokens ->
  (Spec.token_wait t tokens amount >= zero) = true.
Proof.
  unfold valid_config. rewrite !andb_true_iff.
  intros [[[[_ Hint] Hre] _] _] Hd Hn Hneg Htn Htf.
  destruct (is_positive_shape _ Hint) as [_ (mi & ei & Hi)].
  destruct (is_positive_shape _ Hre) as [_ (mr & er & Hr)].
  unfold Spec.token_wait.
  destruct (tokens >= amount) eqn:Hge; [reflexivity|].
  assert (Hlt : cmp tokens amount = Some Lt) by now apply not_ge_lt64.
  assert (Hs : has_sign false (amount - tokens)).
  { destruct amount as [s|s| |[] m e]; try discriminate.
    - destruct tokens as [s'|[]| |[] m' e']; try discriminate; reflexivity.
    - destruct s; [discriminate|].
      destruct tokens as [s'|[]| |s' m' e']; try discriminate; reflexivity.
    - pose proof (@sub_pos tokens m e Hd Htf Hlt) as Hpos.
      destruct (S754_finite false m e - tokens) as [s'|s'| |s' m' e'];
        try discriminate; destruct s'; try discriminate; reflexivity. }
  rewrite Hi, Hr. apply has_sign_ge_zero.
  apply (@mul_sign false). apply (@div_sign false). exact Hs.
Qed.

(** X5: on valid settings, when the bucket of [key] holds finite numbers
    and the clock reads finite times, the [wait_time] that [check] and
    [consume] return for an amount they accept is a number and is not
    negative: it is never [NaN] and never below 0.  (It can be
    [+Infinity], and it can be 0 for a shortage too small for the
    quotient.) *)
Theorem wait_is_a_delay key amount w :
  valid_config (self w) = true ->
  is_double amount = true ->
  check_rejects (self w) amount = false ->
  (forall b, Map_get key (buckets (self w)) = Some b ->
             well_formed b = true) ->
  (forall i, is_finite (of_Z (clock w i)) = true) ->
  (wait_of (check key amount w) >= zero) = true /\
  Number_isNaN (wait_of (check key amount w)) = false /\
  (consume_rejects (self w) amount = false ->
   wait_of (consume key amount w) = wait_of (check key amount w)).
Proof.
  intros Hv Hd Hck Hwf Hclk.
  assert (Hge : (wait_of (check key amount w) >= zero) = true).
  { unfold wait_of. rewrite (@check_run64 key amount w Hck). cbn [fst wait_time].
    set (t := self w). set (cr := creation_reads t key).
    set (b0 := entry_bucket t (of_Z (clock w 0)) key).
    assert (Hb0 : is_finite (tokens b0) = true /\ fits (tokens b0) /\
                  is_finite (last_refill b0) = true /\
                  fits (last_refill b0) /\
                  is_double (last_consume b0) = true /\
                  (is_finite (last_consume b0)
                   || (last_consume b0 === NegInf)) = true).
    { unfold b0, entry_bucket.
      destruct (Map_get key (buckets t)) as [b|] eqn:E.
      - specialize (Hwf b E). unfold well_formed in Hwf.
        rewrite !andb_true_iff in Hwf.
        destruct Hwf as [[[[[H1 H2] H3] H4] H5] H6].
        repeat split; auto using is_double_fits.
      - cbn [Spec.fresh_bucket tokens last_refill last_consume].
        unfold valid_config, is_nonnegative in Hv.
        rewrite !andb_true_iff in Hv.
        destruct Hv as [[_ [[Hi1 Hi2] _]] _].
        repeat split; auto using is_double_fits.
        apply of_Z_spec. }
    destruct Hb0 as (H1 & H2 & H3 & H4 & H5 & H6).
    apply Math_max_ge_zero.
    - cbn [Spec.apply_refill last_consume].
      destruct (cooldown_wait_cases t (clock w (S cr)) (last_consume b0)
                  Hv (Hclk _) H5 H6) as [->|Hpos]; [reflexivity|].
      now apply lt_zero_ge.
    - unfold check_rejects in Hck. rewrite !orb_false_iff in Hck.
      destruct Hck as [[Hn Hneg] _].
      apply token_wait_ge_zero; auto.
      + apply refilled_tokens_number; auto.
      + apply refilled_tokens_fits; auto. apply of_Z_spec. }
  split; [exact Hge|]. split.
  - destruct (wait_of (check key amount w)); try discriminate; reflexivity.
  - intros Hcs. unfold wait_of.
    rewrite (@consume_run64 key amount w Hcs), (@check_run64 key amount w Hck).
    reflexivity.
Qed.

(** The wait of the emptied bucket, one quarter of a millisecond. *)
Lemma wait_is_a_delay_witness :
  valid_config (self emptied_world) = true /\
  is_double one = true /\
  check_rejects (self emptied_world) one = false /\
  (wait_of (check "key1" one emptied_world) >= zero) = true /\
  Number_isNaN (wait_of (check "key1" one emptied_world)) = false.
Proof.
  assert (H1 : valid_config (self emptied_world) = true)
    by (vm_compute; reflexivity).
  assert (H2 : is_double one = true) by (vm_compute; reflexivity).
  assert (H3 : check_rejects (self emptied_world) one = false)
    by (vm_compute; reflexivity).
  assert (H4 : forall b,
             Map_get "key1" (buckets (self emptied_world)) = Some b ->
             well_formed b = true).
  { intros b Hb. vm_compute in Hb. injection Hb as <-.
    vm_compute. reflexivity. }
  assert (H5 : forall i,
             is_finite (of_Z (clock emptied_world i)) = true)
    by (intros i; reflexivity).
  split; [exact H1|]. split; [exact H2|]. split; [exact H3|].
  destruct (@wait_is_a_delay "key1" one emptied_world H1 H2 H3 H4 H5)
    as (Ha & Hb & _).
  split; [exact Ha|exact Hb].
Defined.

(* ================================================================== *)
(** ** Runs on doubles *)
(* ================================================================== *)

(** A wait can be [+Infinity]: [2^1000] tokens at [2^-100] per
    millisecond. *)
Example test_wait_overflows :
  valid_config (self (fresh_world still huge_options)) = true /\
  fst (check "key1" (pow2 1000) (fresh_world still huge_options))
  = Returned {| wait_time := PosInf |}.
Proof. vm_compute. split; reflexivity. Qed.

(** Three [consume("key1", 10)] in the same millisecond, on a limiter of
    capacity 10: all three are granted, and the tokens are 0, -10 and
    -20. *)
Example test_consume_overdraws :
  valid_config (self (dense_world 0)) = true /\
  fst (consume "key1" (of_Z 10) (dense_world 0))
  = Returned {| wait_time := zero |} /\
  fst (consume "key1" (of_Z 10) (dense_world 1))
  = Returned {| wait_time := zero |} /\
  fst (consume "key1" (of_Z 10) (dense_world 2))
  = Returned {| wait_time := zero |} /\
  option_map tokens (Map_get "key1" (buckets (self (dense_world 1))))
  = Some zero /\
  option_map tokens (Map_get "key1" (buckets (self (dense_world 2))))
  = Some (of_Z (-10)) /\
  option_map tokens (Map_get "key1" (buckets (self (dense_world 3))))
  = Some (of_Z (-20)).
Proof. vm_compute. repeat split; reflexivity. Qed.

(** [prune()] keeps a bucket that exact arithmetic would call full: 3/7
    and then 18/7 tokens added to an empty bucket give the double just
    below 3, and [prune()] returns 0. *)
Example test_prune_keeps_rounded :
  fst (prune (with_buckets
                [("key1"%string,
                  entry_bucket (self recovering_world) zero "key1")]
                recovering_world))
  = Returned 0%nat.
Proof. vm_compute. reflexivity. Qed.

(** The tests of [index.spec.ts] that fix the clock, on doubles. *)
Example test_refill_tokens_over_time64 :
  (wait_of (consume "key1" (of_Z 2)
              (snd (consume "key1" (of_Z 2)
                      (fresh_world (step_clock 3 0 150) example_options))))
   === of_Z 50) = true.
Proof. vm_compute. reflexivity. Qed.

Example test_refill_tokens_during_cooldown64 :
  (wait_of (check "key1" one
              (snd (consume "key1" (of_Z 2)
                      (fresh_world (step_clock 4 0 150) cooldown_options))))
   === of_Z 50) = true.
Proof. vm_compute. reflexivity. Qed.

Example test_max_of_cooldown_and_token_wait64 :
  (wait_of (consume "key1" one
              (snd (consume "key1" one
                      (fresh_world still
                         {| opt_capacity := one; opt_interval := of_Z 1000;
                            opt_refill := None; opt_initial := None;
                            opt_cooldown := Some (of_Z 50) |}))))
   === of_Z 1000) = true.
Proof. vm_compute. reflexivity. Qed.

Example test_remaining_cooldown_time64 :
  (wait_of (consume "key1" one
              (snd (consume "key1" one
                      (fresh_world (step_clock 4 0 30)
                         {| opt_capacity := of_Z 10;
                            opt_interval := of_Z 1000;
                            opt_refill := None; opt_initial := None;
                            opt_cooldown := Some (of_Z 100) |}))))
   === of_Z 70) = true.
Proof. vm_compute. reflexivity. Qed.

End DoubleFacts.

(* ================================================================== *)
(** ** The tests of [index.spec.ts] that fix the clock *)
(* ================================================================== *)

Example test_refill_tokens_over_time :
  (wait_of (consume "key1" (of_Z 2)
              (call (CallConsume "key1" (of_Z 2))
                 (fresh_world (step_clock 3 0 150) example_options)))
   === of_Z 50) = true.
Proof. vm_compute. reflexivity. Qed.

Example test_refill_tokens_during_cooldown :
  (wait_of (check "key1" default_amount
              (call (CallConsume "key1" (of_Z 2))
                 (fresh_world (step_clock 4 0 150) cooldown_options)))
   === of_Z 50) = true.
Proof. vm_compute. reflexivity. Qed.

Example test_max_of_cooldown_and_token_wait :
  (wait_of (consume "key1" default_amount
              (call (CallConsume "key1" default_amount)
                 (fresh_world (fun _ => 0%Z)
                    {| opt_capacity := one; opt_interval := of_Z 1000;
                       opt_refill := None; opt_initial := None;
                       opt_cooldown := Some (of_Z 50) |})))
   === of_Z 1000) = true.
Proof. vm_compute. reflexivity. Qed.

Example test_remaining_cooldown_time :
  (wait_of (consume "key1" default_amount
              (call (CallConsume "key1" default_amount)
                 (fresh_world (step_clock 4 0 30)
                    {| opt_capacity := of_Z 10; opt_interval := of_Z 1000;
                       opt_refill := None; opt_initial := None;
                       opt_cooldown := Some (of_Z 100) |})))
   === of_Z 70) = true.
Proof. vm_compute. reflexivity. Qed.

Example test_not_consumed_when_blocked :
  let w :=
    fresh_world (fun _ => 0%Z)
      {| opt_capacity := of_Z 2; opt_interval := of_Z 1000;
         opt_refill := None; opt_initial := Some one;
         opt_cooldown := None |} in
  (wait_of (consume "key1" (of_Z 2) w) > zero) = true /\
  (wait_of (check "key1" one (call (CallConsume "key1" (of_Z 2)) w))
   === zero) = true.
Proof. split; vm_compute; reflexivity. Qed.
